(** * vue3-native-decorators: the [dPromise] call wrapper, the accessors, scopes and watchers

    A shallow embedding of the state-carrying part of [src/index.ts], in
    the revision that exports [AbortError] and takes the wrapped method
    itself as handle: the promise object that [dPromise] hangs on the
    wrapped method, the functions [abort], [onAbort], [isPromisePending],
    [getPromiseError], [getPromiseResult], the closure [makePromise], and
    the accessor decorators [dRef] / [dShallowRef].  What differs in the
    earlier revision, the one with [promiseMap], is in [Legacy].

    JavaScript runs every job to completion, and the wrapper calls code
    that it does not own: [makePromise] calls the underlying operation
    inside the executor, after [_isPending] has been set and before
    [promiseObject.promise] is assigned, and [abortPromise] calls every
    abort listener.  Such code can read the promise object, call the
    wrapped method and the exported functions, and throw.  The wrapper
    is therefore modelled twice.

    [Nested] is the general model.  A state carries the calls of the
    operation and of listeners that have not returned yet; a step is a
    call of the wrapped method or of an exported function, made by
    whatever code is running, the return or the throw of the innermost
    such call, or, with nothing on the stack, the operation delivering
    its outcome or one reaction of the chain
    [new Promise(..).then(..).catch(..).finally(..)].

    The transition system outside [Nested] is the special case in which
    the operation and the listeners, while they run, neither call the
    wrapper nor throw: one step is then one whole call of an exported
    function ([atomic_run_is_nested]).  What is proved of it is proved
    for such operations and listeners.

    The operation and the abort listeners are identified by the data
    they are called with.  The reactive cells behind [_isPending],
    [_error] and [_result] are plain fields: code that Vue runs
    synchronously when one of them changes is not part of the model. *)

From Stdlib Require Import ZArith String List Bool Lia.
From stdpp Require Import base option list gmap strings.

Open Scope string_scope.
Open Scope list_scope.

(** ** JavaScript values *)

(** [class AbortError extends Error]: two error classes are told apart by
    [instanceof]. *)
Inductive error_class : Type :=
| Error_class
| AbortError_class.

Inductive value : Type :=
| VUndefined
| VNull
| VBool (b : bool)
| VNum (n : Z)
| VStr (s : string)
| VObject (address : nat)
| VError (c : error_class) (message : string).

(** [new Error(message)] *)
Definition new_Error (message : string) : value := VError Error_class message.

(** [export class AbortError extends Error { constructor() { super('Aborted'); } }] *)
Definition AbortError : value := VError AbortError_class "Aborted".

Definition instanceof_AbortError (v : value) : bool :=
  match v with
  | VError AbortError_class _ => true
  | _ => false
  end.

Definition message_of (v : value) : option string :=
  match v with
  | VError _ m => Some m
  | _ => None
  end.

(** A field typed [T | undefined] is "present" when it is not [undefined]. *)
Definition present (v : value) : bool :=
  match v with
  | VUndefined => false
  | _ => true
  end.

(** A function call either returns or throws. *)
Inductive completion (A : Type) : Type :=
| Normal (a : A)
| Throw (e : value).
Arguments Normal {A} a.
Arguments Throw {A} e.

(** ** Promises *)

Inductive outcome : Type :=
| Fulfilled (v : value)
| Rejected (e : value).

(** One call of [makePromise] that starts the operation builds four
    promises: [P0 = new Promise(executor)], [P1 = P0.then(..)],
    [P2 = P1.catch(..)] and [P3 = P2.finally(..)], the one that is stored
    and returned.  A reaction runs one job after the promise it hangs on
    has settled, so how far the chain has got is one of: *)
Inductive stage : Type :=
| Started                (* P0 pending *)
| Settled0 (o : outcome) (* P0 settled, the [then] callback has not run *)
| Settled1 (o : outcome) (* P1 settled, the [catch] callback has not run *)
| Settled2 (o : outcome) (* P2 settled, the [finally] callback has not run *)
| Cleaned (o : outcome)  (* the [finally] callback has run, P3 still pending *)
| Settled3 (o : outcome) (* P3, the returned promise, has settled *).

(** The operation invoked as [target.call(this, ...args)]: it returns a
    promise, or (a function that is not [async]) throws before it does. *)
Inductive target_return : Type :=
| ReturnsPromise
| Throws (e : value).

(** Abort listeners are closures [() => void]; a number names each one. *)
Definition listener : Type := nat.

(** ** The promise object: [interface PromiseObject<R>] *)

Record PromiseObject : Type := {
  _isDPromise : bool;
  _abortListeners : list listener;
  _isPending : bool;
  _error : value;
  _result : value;
  promise : option nat;   (* the chain whose P3 is stored *)
  resolve : option nat;   (* the chain whose P0 this resolves *)
  reject : option nat;    (* the chain whose P0 this rejects *)
}.

(** The getters that [Object.defineProperty] installs. *)
Definition isPending (po : PromiseObject) : bool := _isPending po.
Definition error (po : PromiseObject) : value := _error po.
Definition result (po : PromiseObject) : value := _result po.

(** [Object.assign(target, { _isDPromise: true, promise: undefined, ... })] *)
Definition assignPromiseObject : PromiseObject :=
  {| _isDPromise := true;
     _abortListeners := [];
     _isPending := false;
     _error := VUndefined;
     _result := VUndefined;
     promise := None;
     resolve := None;
     reject := None |}.

(** ** The world of one decorated method on one instance *)

Record world : Type := {
  method : option PromiseObject; (* the properties found on the function object *)
  chains : list stage;           (* every promise chain built so far *)
  invoked : list (list value);   (* the arguments of every [target.call] *)
  fired : list (option nat * listener);
    (* every listener run, in order, with the chain then stored in [promise] *)
}.

Definition with_method (po : PromiseObject) (w : world) : world :=
  {| method := Some po; chains := chains w; invoked := invoked w; fired := fired w |}.

Definition with_chains (cs : list stage) (w : world) : world :=
  {| method := method w; chains := cs; invoked := invoked w; fired := fired w |}.

(** A function that no decorator has touched. *)
Definition plain_function : world :=
  {| method := None; chains := []; invoked := []; fired := [] |}.

(** [dPromiseFunction(target, context, eagerInit)]: the initializer
    assigns the promise object at once only when [eagerInit] is set. *)
Definition dPromiseFunction (eagerInit : bool) : world :=
  {| method := if eagerInit then Some assignPromiseObject else None;
     chains := []; invoked := []; fired := [] |}.

(** [resolve(v)] / [reject(e)] of P0: the first settlement wins, later
    ones do nothing. *)
Definition settle0 (k : nat) (o : outcome) (cs : list stage) : list stage :=
  match cs !! k with
  | Some Started => <[k := Settled0 o]> cs
  | _ => cs
  end.

(** [function abortPromise(promiseObject)], as one step: every listener
    returns, and calls nothing of the wrapper while it runs.
    [Nested.abortPromise] is the function listener by listener. *)
Definition abortPromise (po : PromiseObject) (w : world) : world :=
  if negb (isPending po) then w
  else
    (* promiseObject._abortListeners.forEach((listener) => listener()); *)
    let fired' := fired w ++ map (pair (promise po)) (_abortListeners po) in
    (* promiseObject._abortListeners.length = 0; *)
    let po' :=
      {| _isDPromise := _isDPromise po; _abortListeners := [];
         _isPending := _isPending po; _error := _error po; _result := _result po;
         promise := promise po; resolve := resolve po; reject := reject po |} in
    (* promiseObject.reject?.(new AbortError()); *)
    let chains' :=
      match reject po with
      | Some k => settle0 k (Rejected AbortError) (chains w)
      | None => chains w
      end in
    {| method := Some po'; chains := chains'; invoked := invoked w; fired := fired' |}.

(** The guard every exported function starts with:
    [if (!('_isDPromise' in method) || !method._isDPromise) throw new Error(..)] *)
Definition promise_object_of (w : world) : completion PromiseObject :=
  match method w with
  | Some po => if _isDPromise po then Normal po
               else Throw (new_Error "Promise object not found")
  | None => Throw (new_Error "Promise object not found")
  end.

(** [export function abort(method)] *)
Definition abort (w : world) : completion world :=
  match promise_object_of w with
  | Normal po => Normal (abortPromise po w)
  | Throw e => Throw e
  end.

(** [export function onAbort(method, listener)]: the promise object's own
    [onAbort] pushes onto [_abortListeners]. *)
Definition onAbort (l : listener) (w : world) : completion world :=
  match promise_object_of w with
  | Normal po =>
      Normal (with_method
        {| _isDPromise := _isDPromise po; _abortListeners := _abortListeners po ++ [l];
           _isPending := _isPending po; _error := _error po; _result := _result po;
           promise := promise po; resolve := resolve po; reject := reject po |} w)
  | Throw e => Throw e
  end.

(** [export function isPromisePending(method)] *)
Definition isPromisePending (w : world) : completion bool :=
  match promise_object_of w with
  | Normal po => Normal (isPending po)
  | Throw e => Throw e
  end.

(** [export function getPromiseError(method)] *)
Definition getPromiseError (w : world) : completion value :=
  match promise_object_of w with
  | Normal po => Normal (error po)
  | Throw e => Throw e
  end.

(** [export function getPromiseResult(method)] *)
Definition getPromiseResult (w : world) : completion value :=
  match promise_object_of w with
  | Normal po => Normal (result po)
  | Throw e => Throw e
  end.

(** The executor of [new Promise((resolve, reject) => { .. })], up to
    its call of [target]: it runs inside [makePromise], for the chain
    [k] being built, before [promiseObject.promise] is assigned. *)
Definition executor (k : nat) (po : PromiseObject) : PromiseObject :=
  {| _isDPromise := _isDPromise po; _abortListeners := _abortListeners po;
     _isPending := true; _error := VUndefined; _result := VUndefined;
     promise := promise po; resolve := Some k; reject := Some k |}.

(** [function makePromise(this, ...args)], the wrapped callable, as one
    step: the operation returns its promise, or throws, and calls
    nothing of the wrapper before it does.  [Nested.makePromise] and
    [Nested.makePromise_returns] are the two halves, before and after
    [target.call].  It returns the number of the chain whose last
    promise it hands out. *)
Definition makePromise (args : list value) (t : target_return) (w : world)
  : nat * world :=
  (* if (!promiseObject) promiseObject = assignPromiseObject(makePromise); *)
  let po := match method w with Some po => po | None => assignPromiseObject end in
  match promise po with
  | Some p =>
      (* if (promiseObject.promise) return promiseObject.promise; *)
      (p, with_method po w)
  | None =>
      let k := length (chains w) in
      let po1 := executor k po in
      (* target.call(this, ...args).then(resolve, reject); a throw inside
         the executor rejects P0 *)
      let st := match t with
                | ReturnsPromise => Started
                | Throws e => Settled0 (Rejected e)
                end in
      (* promiseObject.promise = new Promise(..).then(..).catch(..).finally(..) *)
      let po2 :=
        {| _isDPromise := _isDPromise po1; _abortListeners := _abortListeners po1;
           _isPending := _isPending po1; _error := _error po1; _result := _result po1;
           promise := Some k; resolve := resolve po1; reject := reject po1 |} in
      (k, {| method := Some po2; chains := chains w ++ [st];
             invoked := invoked w ++ [args]; fired := fired w |})
  end.

(** [.then((result) => { promiseObject._result.value = result; return result; })] *)
Definition then_callback (o : outcome) (po : PromiseObject) : PromiseObject :=
  match o with
  | Fulfilled v =>
      {| _isDPromise := _isDPromise po; _abortListeners := _abortListeners po;
         _isPending := _isPending po; _error := _error po; _result := v;
         promise := promise po; resolve := resolve po; reject := reject po |}
  | Rejected _ => po
  end.

(** [.catch((error) => { promiseObject._error.value = error; throw error; })] *)
Definition catch_callback (o : outcome) (po : PromiseObject) : PromiseObject :=
  match o with
  | Fulfilled _ => po
  | Rejected e =>
      {| _isDPromise := _isDPromise po; _abortListeners := _abortListeners po;
         _isPending := _isPending po; _error := e; _result := _result po;
         promise := promise po; resolve := resolve po; reject := reject po |}
  end.

(** [.finally(() => { promise = undefined; resolve = undefined;
    reject = undefined; _abortListeners.length = 0; _isPending.value = false; })] *)
Definition finally_callback (po : PromiseObject) : PromiseObject :=
  {| _isDPromise := _isDPromise po; _abortListeners := [];
     _isPending := false; _error := _error po; _result := _result po;
     promise := None; resolve := None; reject := None |}.

Definition update_method (f : PromiseObject -> PromiseObject) (w : world) : world :=
  {| method := f <$> method w; chains := chains w;
     invoked := invoked w; fired := fired w |}.

(** The next reaction job of chain [k]. *)
Definition tick (k : nat) (w : world) : world :=
  match chains w !! k with
  | Some (Settled0 o) =>
      with_chains (<[k := Settled1 o]> (chains w)) (update_method (then_callback o) w)
  | Some (Settled1 o) =>
      with_chains (<[k := Settled2 o]> (chains w)) (update_method (catch_callback o) w)
  | Some (Settled2 o) =>
      with_chains (<[k := Cleaned o]> (chains w)) (update_method finally_callback w)
  | Some (Cleaned o) =>
      with_chains (<[k := Settled3 o]> (chains w)) w
  | _ => w
  end.

(** The operation's promise settles: the reaction registered by
    [.then(resolve, reject)] settles P0 of chain [k]. *)
Definition op_settles (k : nat) (o : outcome) (w : world) : world :=
  with_chains (settle0 k o (chains w)) w.

(** The state of the promise that [makePromise] returned for chain [k]. *)
Definition returned_promise (k : nat) (w : world) : option outcome :=
  match chains w !! k with
  | Some (Settled3 o) => Some o
  | _ => None
  end.

(** ** Runs *)

Inductive event : Type :=
| Call (args : list value) (t : target_return)
| Abort
| OnAbort (l : listener)
| OpSettles (k : nat) (o : outcome)
| Tick (k : nat).

(** An exported function that throws leaves everything as it was. *)
Definition state_after (w : world) (c : completion world) : world :=
  match c with
  | Normal w' => w'
  | Throw _ => w
  end.

Definition step (w : world) (e : event) : world :=
  match e with
  | Call args t => snd (makePromise args t w)
  | Abort => state_after w (abort w)
  | OnAbort l => state_after w (onAbort l w)
  | OpSettles k o => op_settles k o w
  | Tick k => tick k w
  end.

Definition run (w : world) (es : list event) : world := fold_left step es w.

Definition reachable (eagerInit : bool) (w : world) : Prop :=
  exists es : list event, w = run (dPromiseFunction eagerInit) es.

(** ** Reading a world *)

(** The chain stored in [promiseObject.promise], if any. *)
Definition in_flight (w : world) : option nat :=
  match method w with
  | Some po => promise po
  | None => None
  end.

Definition listeners_of (w : world) : list listener :=
  match method w with
  | Some po => _abortListeners po
  | None => []
  end.

(** The chain a call made now would return. *)
Definition current_or_next (w : world) : nat :=
  match in_flight w with
  | Some k => k
  | None => length (chains w)
  end.

(** Before its [finally] callback has run. *)
Definition live (st : stage) : bool :=
  match st with
  | Started | Settled0 _ | Settled1 _ | Settled2 _ => true
  | Cleaned _ | Settled3 _ => false
  end.

(** The settlement of P0, once there is one. *)
Definition outcome_of (st : stage) : option outcome :=
  match st with
  | Started => None
  | Settled0 o | Settled1 o | Settled2 o | Cleaned o | Settled3 o => Some o
  end.

Definition is_OnAbort (l : listener) (e : event) : bool :=
  match e with
  | OnAbort l' => Nat.eqb l l'
  | _ => false
  end.

Definition is_Abort (e : event) : bool :=
  match e with
  | Abort => true
  | _ => false
  end.

Definition is_Call (e : event) : bool :=
  match e with
  | Call _ _ => true
  | _ => false
  end.

(** The listeners that a list of events registers, in order. *)
Definition registrations (es : list event) : list listener :=
  flat_map (fun e => match e with OnAbort l => [l] | _ => [] end) es.

(** ** What every reachable world satisfies *)

(** The fields [_result] / [_error] after outcome [o] has gone through
    both the [then] and the [catch] callback. *)
Definition recorded (o : outcome) (po : PromiseObject) : Prop :=
  match o with
  | Fulfilled v => _result po = v /\ _error po = VUndefined
  | Rejected e => _result po = VUndefined /\ _error po = e
  end.

(** The fields as the latest chain has left them. *)
Definition fields_at (st : stage) (po : PromiseObject) : Prop :=
  match st with
  | Started | Settled0 _ | Settled1 (Rejected _) =>
      _result po = VUndefined /\ _error po = VUndefined
  | Settled1 (Fulfilled v) => _result po = v /\ _error po = VUndefined
  | Settled2 o | Cleaned o | Settled3 o => recorded o po
  end.

Definition pending_flag (p : option nat) : bool :=
  match p with
  | Some _ => true
  | None => false
  end.

Record inv (w : world) : Prop := {
  inv_lazy : method w = None -> chains w = [];
  inv_obj : forall po, method w = Some po ->
    _isDPromise po = true /\ resolve po = promise po /\ reject po = promise po /\
    _isPending po = pending_flag (promise po);
  inv_latest : forall po, method w = Some po ->
    match chains w !! pred (length (chains w)) with
    | None => promise po = None /\ _result po = VUndefined /\ _error po = VUndefined
    | Some st =>
        fields_at st po /\
        promise po = if live st then Some (pred (length (chains w))) else None
    end;
  inv_old : forall j st,
    chains w !! j = Some st -> S j < length (chains w) -> live st = false;
  inv_invoked : length (invoked w) = length (chains w);
}.

(** How far a chain has got, as a number. *)
Definition rank (st : stage) : nat :=
  match st with
  | Started => 0
  | Settled0 _ => 1
  | Settled1 _ => 2
  | Settled2 _ => 3
  | Cleaned _ => 4
  | Settled3 _ => 5
  end.

(** [st'] is [st] or a later stage of the same chain: a settlement, once
    made, is kept. *)
Definition advances (st st' : stage) : Prop :=
  rank st <= rank st' /\
  forall o, outcome_of st = Some o -> outcome_of st' = Some o.

(** What one reaction does to its chain and to the promise object. *)
Definition reaction (st : stage) : option (stage * (PromiseObject -> PromiseObject)) :=
  match st with
  | Settled0 o => Some (Settled1 o, then_callback o)
  | Settled1 o => Some (Settled2 o, catch_callback o)
  | Settled2 o => Some (Cleaned o, finally_callback)
  | Cleaned o => Some (Settled3 o, id)
  | _ => None
  end.

(** ** Statements that are put to the test below *)

(** Exactly one of result and error is present once the latest call has
    settled. *)
Definition settled_has_exactly_one : Prop :=
  forall eager w k o,
    reachable eager w -> returned_promise k w = Some o -> S k = length (chains w) ->
    exists r e, getPromiseResult w = Normal r /\ getPromiseError w = Normal e /\
                xorb (present r) (present e) = true.

(** No listener is kept while no call is in flight. *)
Definition listeners_only_in_flight : Prop :=
  forall eager w, reachable eager w -> in_flight w = None -> listeners_of w = [].

(** The three inspection functions return on every wrapped callable. *)
Definition inspection_never_throws : Prop :=
  forall eager w, reachable eager w ->
    exists b r e, isPromisePending w = Normal b /\ getPromiseResult w = Normal r /\
                  getPromiseError w = Normal e.

(** Every exported function throws on a wrapped callable that has not
    been called yet. *)
Definition uncalled_always_throws : Prop :=
  forall eager w l, reachable eager w -> invoked w = [] ->
    (exists e, abort w = Throw e) /\ (exists e, onAbort l w = Throw e) /\
    (exists e, isPromisePending w = Throw e) /\ (exists e, getPromiseResult w = Throw e) /\
    (exists e, getPromiseError w = Throw e).

(** No listener has run for a call whose promise was fulfilled. *)
Definition fulfilled_call_fired_nothing : Prop :=
  forall eager w k v l,
    reachable eager w -> returned_promise k w = Some (Fulfilled v) ->
    (Some k, l) ∉ fired w.

(** ** Accessor decorators: [dRef] and [dShallowRef] *)

(** Vue's [ref] / [shallowRef] come from [@vue/reactivity], which is not
    part of this package.  They are taken as a parameter, with what
    Vue documents of them: a cell read with [.value] and written with
    [.value = v]; a shallow cell stores and exposes the value as it is;
    a deep cell exposes Vue's reactive view of the value stored
    ([toReactive]): the value itself when it is not an object that Vue
    makes reactive, and otherwise the reactive [Proxy] of the object
    (README, "Deep reactivity").  [ref(v)] and [shallowRef(v)] make a
    new cell unless [v] is itself a ref, which they hand back. *)
Class Reactivity (Value : Type) : Type := {
  Ref : Type;
  ref : Value -> Ref;
  shallowRef : Value -> Ref;
  get_value : Ref -> Value;
  set_value : Ref -> Value -> Ref;
  isRef : Value -> bool;
  reactive_view : Value -> Value;
  is_shallow : Ref -> bool;
  is_shallow_ref : forall v, isRef v = false -> is_shallow (ref v) = false;
  is_shallow_shallowRef : forall v, isRef v = false -> is_shallow (shallowRef v) = true;
  is_shallow_set_value : forall r v, is_shallow (set_value r v) = is_shallow r;
  get_value_ref : forall v, isRef v = false -> get_value (ref v) = reactive_view v;
  get_value_shallowRef : forall v, isRef v = false -> get_value (shallowRef v) = v;
  get_value_set_value : forall r v,
    get_value (set_value r v) = if is_shallow r then v else reactive_view v;
}.

(** A value as a cell can hold it: a value as written, or the reactive
    [Proxy] that Vue keeps for the object at an address. *)
Inductive cell_value : Type :=
| Written (v : value)
| ReactiveProxy (address : nat).

(** Cells in which every object is made reactive. *)
Record RefImpl : Type := {
  __v_isShallow : bool;
  _value : cell_value;
}.

Definition toReactive (v : cell_value) : cell_value :=
  match v with
  | Written (VObject a) => ReactiveProxy a
  | _ => v
  end.

#[export] Instance vue_cell : Reactivity cell_value :=
  {| Ref := RefImpl;
     ref := fun v => {| __v_isShallow := false; _value := toReactive v |};
     shallowRef := fun v => {| __v_isShallow := true; _value := v |};
     get_value := _value;
     set_value := fun r v =>
       {| __v_isShallow := __v_isShallow r;
          _value := if __v_isShallow r then v else toReactive v |};
     isRef := fun _ => false;
     reactive_view := toReactive;
     is_shallow := __v_isShallow;
     is_shallow_ref := fun _ _ => eq_refl;
     is_shallow_shallowRef := fun _ _ => eq_refl;
     is_shallow_set_value := fun _ _ => eq_refl;
     get_value_ref := fun _ _ => eq_refl;
     get_value_shallowRef := fun _ _ => eq_refl;
     get_value_set_value := fun _ _ => eq_refl |}.

(** The heap of cells, and an instance's private accessor storage: for
    each [accessor] field, the address of the object it holds. *)
Abbreviation heap := (gmap nat Ref) (only parsing).
Abbreviation instance := (gmap string nat) (only parsing).

Section Accessors.
Context {Value : Type} `{Reactivity Value}.

(** [ClassAccessorDecoratorTarget]: [target.get.call(this)] reads the
    private storage of the decorated accessor. *)
Record ClassAccessorDecoratorTarget : Type := {
  target_get : instance -> option nat;
}.

Definition accessor (name : string) : ClassAccessorDecoratorTarget :=
  {| target_get := fun this => this !! name |}.

(** [ClassAccessorDecoratorResult].  [get] and [set] fail ([None]) where
    JavaScript throws a [TypeError]: no storage, or no cell in it. *)
Record ClassAccessorDecoratorResult : Type := {
  init : Value -> Ref;
  get : instance -> heap -> option Value;
  set : instance -> Value -> heap -> option heap;
}.

(** [export function dRef(target)] *)
Definition dRef (target : ClassAccessorDecoratorTarget) : ClassAccessorDecoratorResult :=
  {| init := fun value => ref value;
     get := fun this h =>
       (* return (target.get.call(this) as Ref<Value>).value; *)
       match target_get target this with
       | Some a => get_value <$> h !! a
       | None => None
       end;
     set := fun this newValue h =>
       (* const ref = target.get.call(this); ref.value = newValue; *)
       match target_get target this with
       | Some a =>
           match h !! a with
           | Some r => Some (<[a := set_value r newValue]> h)
           | None => None
           end
       | None => None
       end |}.

(** [export function dShallowRef(target)] *)
Definition dShallowRef (target : ClassAccessorDecoratorTarget) : ClassAccessorDecoratorResult :=
  {| init := fun value => shallowRef value;
     get := fun this h =>
       match target_get target this with
       | Some a => get_value <$> h !! a
       | None => None
       end;
     set := fun this newValue h =>
       match target_get target this with
       | Some a =>
           match h !! a with
           | Some r => Some (<[a := set_value r newValue]> h)
           | None => None
           end
       | None => None
       end |}.

(** Field initialisation of [accessor name = value] under a decorator:
    the decorator's [init] result goes to a new object, and its
    address into the accessor's private storage. *)
Definition define_accessor (d : ClassAccessorDecoratorResult) (name : string)
    (value : Value) (this : instance) (h : heap) : instance * heap :=
  let a := fresh (dom h) in
  (<[name := a]> this, <[a := init d value]> h).

(** The instance has the accessor [name], and its cell is on the heap. *)
Definition has_accessor (name : string) (this : instance) (h : heap) : Prop :=
  exists a r, this !! name = Some a /\ h !! a = Some r.
End Accessors.

(** Assigning [v] to a decorated accessor and reading it yields [v],
    whatever Vue's cells are like. *)
Definition read_after_write_yields_the_value : Prop :=
  forall (Value : Type) (H : Reactivity Value) name value v this h,
    isRef value = false ->
    let st := define_accessor (dRef (accessor name)) name value this h in
    exists h', set (dRef (accessor name)) st.1 v st.2 = Some h' /\
               get (dRef (accessor name)) st.1 h' = Some v.

(** ** The earlier revision of [src/index.ts]

    The revision that keeps the promise objects in [promiseMap] and takes
    [(context, targetName)] as handle has the same [makePromise] and an
    [abortPromise] that rejects with a plain [Error].  Its promise object
    has no [_isDPromise]; the record above is reused and that field is
    not read here. *)
Module Legacy.

(** [function abortPromise(promiseObject)] *)
Definition abortPromise (po : PromiseObject) (w : world) : world :=
  if negb (isPending po) then w
  else
    let fired' := fired w ++ map (pair (promise po)) (_abortListeners po) in
    let po' :=
      {| _isDPromise := _isDPromise po; _abortListeners := [];
         _isPending := _isPending po; _error := _error po; _result := _result po;
         promise := promise po; resolve := resolve po; reject := reject po |} in
    (* promiseObject.reject?.(new Error('Aborted')); *)
    let chains' :=
      match reject po with
      | Some k => settle0 k (Rejected (new_Error "Aborted")) (chains w)
      | None => chains w
      end in
    {| method := Some po'; chains := chains'; invoked := invoked w; fired := fired' |}.

(** [function makePromise(this, ...args)]: the promise object is made
    on the first call; [_isPending], [error] and [result] are set just
    before [new Promise], in the same synchronous run. *)
Definition makePromise (args : list value) (t : target_return) (w : world)
  : nat * world :=
  let po := match method w with Some po => po | None => assignPromiseObject end in
  match promise po with
  | Some p => (p, with_method po w)
  | None =>
      let k := length (chains w) in
      let po1 :=
        {| _isDPromise := _isDPromise po; _abortListeners := _abortListeners po;
           _isPending := true; _error := VUndefined; _result := VUndefined;
           promise := promise po; resolve := resolve po; reject := reject po |} in
      let st := match t with
                | ReturnsPromise => Started
                | Throws e => Settled0 (Rejected e)
                end in
      let po2 :=
        {| _isDPromise := _isDPromise po1; _abortListeners := _abortListeners po1;
           _isPending := _isPending po1; _error := _error po1; _result := _result po1;
           promise := Some k; resolve := Some k; reject := Some k |} in
      (k, {| method := Some po2; chains := chains w ++ [st];
             invoked := invoked w ++ [args]; fired := fired w |})
  end.

End Legacy.

(** ** Where the wrapped method is stored: the reserved prefixes *)

(** [export const METHOD_PREFIXES = ['$D', '_$D'];] *)
Definition METHOD_PREFIXES : list string := ["$D"; "_$D"].

(** [type PropertyKey = string | symbol] *)
Inductive PropertyKey : Type :=
| StringKey (s : string)
| SymbolKey (id : nat).

#[export] Instance PropertyKey_eq_dec : EqDecision PropertyKey.
Proof. solve_decision. Defined.

#[export] Instance PropertyKey_countable : Countable PropertyKey :=
  inj_countable'
    (fun k => match k with StringKey s => inl s | SymbolKey id => inr id end)
    (fun x => match x with inl s => StringKey s | inr id => SymbolKey id end)
    (fun k => match k with StringKey _ => eq_refl | SymbolKey _ => eq_refl end).

(** [s.startsWith(prefix)] *)
Definition startsWith (s prefix : string) : bool := String.prefix prefix s.

(** [s.slice(start)], for [start] not negative. *)
Fixpoint slice (start : nat) (s : string) : string :=
  match start, s with
  | 0, _ => s
  | S n, String _ s' => slice n s'
  | S _, EmptyString => EmptyString
  end.

(** [for (const prefix of prefixes) { if (!name.startsWith(prefix)) continue;
    name = name.slice(prefix.length); break; }] *)
Fixpoint strip_first_prefix (prefixes : list string) (name : string) : string :=
  match prefixes with
  | [] => name
  | prefix :: rest =>
      if startsWith name prefix then slice (String.length prefix) name
      else strip_first_prefix rest name
  end.

(** The name under which the initializer of [dPromiseFunction] stores
    [makePromise]: [let name = context.name; if (typeof name === 'string')
    { .. } this[name] = makePromise;] *)
Definition stored_name (name : PropertyKey) : PropertyKey :=
  match name with
  | StringKey s => StringKey (strip_first_prefix METHOD_PREFIXES s)
  | SymbolKey _ => name
  end.

(** What a property of an instance holds: the method as written in the
    class ([target], found on the prototype) or the wrapper. *)
Inductive method_value : Type :=
| the_target
| the_makePromise.

#[export] Instance method_value_eq_dec : EqDecision method_value.
Proof. solve_decision. Defined.

#[export] Instance method_value_countable : Countable method_value :=
  inj_countable'
    (fun m => match m with the_target => false | the_makePromise => true end)
    (fun b => if b then the_makePromise else the_target)
    (fun m => match m with the_target => eq_refl | the_makePromise => eq_refl end).

(** [this[name] = makePromise] writes an own property of the instance. *)
Definition dPromise_initializer (name : PropertyKey) (own : gmap PropertyKey method_value)
  : gmap PropertyKey method_value :=
  <[stored_name name := the_makePromise]> own.

(** [instance[key]]: own properties first, then the prototype. *)
Definition get_property (own proto : gmap PropertyKey method_value) (key : PropertyKey)
  : option method_value :=
  match own !! key with
  | Some m => Some m
  | None => proto !! key
  end.
(** The earlier revision strips by the length of the first prefix,
    whichever prefix matched. *)
Module LegacyNames.

(** [if (typeof name === 'string' && METHOD_PREFIXES.some((prefix) =>
    name.startsWith(prefix))) { name = name.slice(METHOD_PREFIXES[0].length); }] *)
Definition stored_name (name : PropertyKey) : PropertyKey :=
  match name with
  | StringKey s =>
      if existsb (startsWith s) METHOD_PREFIXES
      then StringKey (slice (String.length (nth 0 METHOD_PREFIXES "")) s)
      else name
  | SymbolKey _ => name
  end.

End LegacyNames.
(** ** Scopes and watchers

    [makeObjectScope] / [disposeObjectScope], the watcher table behind
    [stopWatcher], [pauseWatcher] and [resumeWatcher], and the jobs that
    the initializers of [dEffect] and [dWatch] queue.  Objects, functions,
    scopes and watch handles are named by numbers.  Vue's [effectScope],
    [watch] and [watchEffect] are not part of the package: a scope is
    known here by whether it has stopped and by the scope that holds
    it, a watch handle
    by what it was made with and by the calls it has received. *)

(** A function as written, or the result of [f.bind(this)]. *)
Inductive func : Type :=
| Function (id : nat)
| Bound (this : nat) (id : nat).

(** [f.bind(this)]: binding a bound function again does not change the
    [this] it runs with. *)
Definition bind (this : nat) (f : func) : func :=
  match f with
  | Function id => Bound this id
  | Bound _ _ => f
  end.

(** [WatchSource<T>]: a getter function, or a ref. *)
Inductive WatchSource : Type :=
| SourceFunction (f : func)
| SourceRef (r : nat).

(** [if (typeof thisSource === 'function') thisSource = thisSource.bind(this);] *)
Definition bind_source (this : nat) (source : WatchSource) : WatchSource :=
  match source with
  | SourceFunction f => SourceFunction (bind this f)
  | SourceRef _ => source
  end.

(** The job that the initializer of [dWatch(source, options)] queues for
    [this] reads the closure variable [source] and leaves it alone:
    [let thisSource = source; ..bind..; watch(thisSource, ..)].  The pair
    is what [watch] is given and what [source] is afterwards. *)
Definition dWatch_source (this : nat) (source : WatchSource) : WatchSource * WatchSource :=
  (bind_source this source, source).

(** The instances of one class run their jobs one after the other, all
    on the same closure variable. *)
Fixpoint watched_sources (job : nat -> WatchSource -> WatchSource * WatchSource)
    (instances : list nat) (source : WatchSource) : list WatchSource :=
  match instances with
  | [] => []
  | this :: rest =>
      let '(thisSource, source') := job this source in
      thisSource :: watched_sources job rest source'
  end.

(** The methods of a [WatchHandle]. *)
Inductive handle_call : Type :=
| stop_call
| pause_call
| resume_call.

(** How a handle was made: [watchEffect(callback, { flush })] or
    [watch(source, callback, options)].  [flush] and [options] only go
    through to Vue. *)
Inductive made_by : Type :=
| by_watchEffect (flush : option string)
| by_watch (source : WatchSource) (options : option nat).

Record WatchHandle : Type := {
  made_for : nat;                 (* [this] of the job that made it *)
  made_from : nat;                (* the decorated method, [target] *)
  made_in : nat;                  (* the scope whose [run] made it *)
  maker : made_by;
  callback : func;                (* [target.bind(this)] *)
  calls : list handle_call;       (* the calls received, in order *)
}.

(** What a decorator's initializer hands to [queueMicrotask]. *)
Inductive job : Type :=
| effect_job (this target : nat) (flush : option string)
| watch_job (this target : nat) (source : WatchSource) (options : option nat).

Definition job_this (j : job) : nat :=
  match j with
  | effect_job this _ _ => this
  | watch_job this _ _ _ => this
  end.

(** A decorated method of a class: [@dEffect] / [@dEffect(flush)], or
    [@dWatch(source, options)]. *)
Inductive member : Type :=
| dEffect_member (target : nat) (flush : option string)
| dWatch_member (target : nat) (source : WatchSource) (options : option nat).

(** Vue's effect scopes are part of the runtime: [effectScope()] makes
    a scope that is held by the scope running at that moment
    ([activeEffectScope]), if there is one, and a scope that stops
    stops the scopes it holds. *)
Record runtime : Type := {
  scopes : gmap nat nat;                       (* [WeakMap<object, EffectScope>] *)
  stopped : list bool;                         (* every scope made: has it stopped? *)
  parents : list (option nat);                 (* every scope made: the scope that holds it *)
  activeEffectScope : option nat;              (* Vue's: the scope now running *)
  handles : list WatchHandle;                  (* every watch handle made *)
  watchersMap : gmap nat (gmap nat nat);       (* object, then function, to handle *)
  properties : list (gmap PropertyKey nat);    (* every object made: its methods *)
  microtasks : list job;                       (* queued, not yet run *)
}.

Definition no_runtime : runtime :=
  {| scopes := ∅; stopped := []; parents := []; activeEffectScope := None;
     handles := []; watchersMap := ∅; properties := []; microtasks := [] |}.

(** Vue's [effectScope(detached)]: the new scope is active; unless
    detached, the running scope holds it. *)
Definition effectScope (detached : bool) (rt : runtime) : nat * runtime :=
  let scope := length (stopped rt) in
  (scope,
   {| scopes := scopes rt; stopped := stopped rt ++ [false];
      parents := parents rt ++ [if detached then None else activeEffectScope rt];
      activeEffectScope := activeEffectScope rt;
      handles := handles rt; watchersMap := watchersMap rt;
      properties := properties rt; microtasks := microtasks rt |}).

(** Vue's [scope.stop()], for the scopes numbered below [n], in the
    order in which they were made (a scope is made after the scope
    that holds it).  A scope is stopped afterwards when it was stopped
    before, when it is [s], or when the scope that holds it stops in
    this very call: a scope that had stopped earlier does nothing when
    it is told to stop again, and passes nothing on. *)
Fixpoint stop_upto (s : nat) (old : list bool) (held_by : list (option nat)) (n : nat)
    : list bool :=
  match n with
  | 0 => []
  | S d =>
      let new := stop_upto s old held_by d in
      let by_parent :=
        match held_by !! d with
        | Some (Some p) => default false (new !! p) && negb (default true (old !! p))
        | _ => false
        end in
      new ++ [default true (old !! d) || Nat.eqb d s || by_parent]
  end.

Definition stop (s : nat) (rt : runtime) : runtime :=
  {| scopes := scopes rt;
     stopped := stop_upto s (stopped rt) (parents rt) (length (stopped rt));
     parents := parents rt; activeEffectScope := activeEffectScope rt;
     handles := handles rt; watchersMap := watchersMap rt;
     properties := properties rt; microtasks := microtasks rt |}.

(** Scope [d] is [s] or is held, through any number of scopes, by [s]. *)
Inductive below (held_by : list (option nat)) (s : nat) : nat -> Prop :=
| below_self : below held_by s s
| below_held d p : held_by !! d = Some (Some p) -> below held_by s p -> below held_by s d.

Definition with_scopes (m : gmap nat nat) (rt : runtime) : runtime :=
  {| scopes := m; stopped := stopped rt; parents := parents rt;
     activeEffectScope := activeEffectScope rt;
     handles := handles rt; watchersMap := watchersMap rt;
     properties := properties rt; microtasks := microtasks rt |}.

(** [export function makeObjectScope(object)] *)
Definition makeObjectScope (object : nat) (rt : runtime) : nat * runtime :=
  match scopes rt !! object with
  | Some scope => (scope, rt)
  | None =>
      (* scope = effectScope(); scopes.set(object, scope); *)
      let '(scope, rt') := effectScope false rt in
      (scope, with_scopes (<[object := scope]> (scopes rt')) rt')
  end.

(** [export function disposeObjectScope(object)] *)
Definition disposeObjectScope (object : nat) (rt : runtime) : runtime :=
  match scopes rt !! object with
  | Some scope =>
      (* scope.stop(); scopes.delete(object); *)
      let rt' := stop scope rt in
      with_scopes (delete object (scopes rt')) rt'
  | None => rt
  end.

(** [function setWatcher(context, target, handle)] *)
Definition setWatcher (context target handle : nat) (rt : runtime) : runtime :=
  (* if (!watchersMap.has(context)) watchersMap.set(context, new WeakMap()); *)
  let inner := default ∅ (watchersMap rt !! context) in
  (* watchersMap.get(context)!.set(target, handle); *)
  {| scopes := scopes rt; stopped := stopped rt; parents := parents rt;
     activeEffectScope := activeEffectScope rt; handles := handles rt;
     watchersMap := <[context := <[target := handle]> inner]> (watchersMap rt);
     properties := properties rt; microtasks := microtasks rt |}.

(** [context[targetName]] *)
Definition get_method (context : nat) (targetName : PropertyKey) (rt : runtime) : option nat :=
  match properties rt !! context with
  | Some methods => methods !! targetName
  | None => None
  end.

(** [watchersMap.get(context)?.get(target)], with [target] possibly
    [undefined] *)
Definition get_watchHandle (context : nat) (target : option nat) (rt : runtime) : option nat :=
  match target with
  | Some t =>
      match watchersMap rt !! context with
      | Some inner => inner !! t
      | None => None
      end
  | None => None
  end.

Definition receive (c : handle_call) (h : WatchHandle) : WatchHandle :=
  {| made_for := made_for h; made_from := made_from h; made_in := made_in h;
     maker := maker h; callback := callback h; calls := calls h ++ [c] |}.

Definition with_handles (l : list WatchHandle) (rt : runtime) : runtime :=
  {| scopes := scopes rt; stopped := stopped rt; parents := parents rt;
     activeEffectScope := activeEffectScope rt; handles := l;
     watchersMap := watchersMap rt;
     properties := properties rt; microtasks := microtasks rt |}.

(** The common body of [stopWatcher], [pauseWatcher], [resumeWatcher]:
    [const target = context[targetName];
     const watchHandle = watchersMap.get(context)?.get(target);
     if (watchHandle) watchHandle.stop();] *)
Definition call_watcher (c : handle_call) (context : nat) (targetName : PropertyKey)
    (rt : runtime) : runtime :=
  match get_watchHandle context (get_method context targetName rt) rt with
  | Some handle => with_handles (alter (receive c) handle (handles rt)) rt
  | None => rt
  end.

(** [export function stopWatcher(context, targetName)] *)
Definition stopWatcher := call_watcher stop_call.
(** [export function pauseWatcher(context, targetName)] *)
Definition pauseWatcher := call_watcher pause_call.
(** [export function resumeWatcher(context, targetName)] *)
Definition resumeWatcher := call_watcher resume_call.

(** [scope.run(() => { const watchHandle = ..; setWatcher(this, target,
    watchHandle); })]: a scope that has stopped does not run the
    function; an active one is the running scope while the function
    runs, so that the watcher is made in it, and the scope that was
    running before is running again afterwards.  The decorated method
    itself is not run here: what the first run of an effect does is
    not part of the model. *)
Definition run_in_scope (scope this target : nat) (how : made_by)
    (rt : runtime) : runtime :=
  match stopped rt !! scope with
  | Some false =>
      let handle := length (handles rt) in
      let made :=
        {| made_for := this; made_from := target; made_in := scope;
           maker := how; callback := bind this (Function target); calls := [] |} in
      setWatcher this target handle (with_handles (handles rt ++ [made]) rt)
  | _ => rt
  end.

(** The jobs of [dEffectFunction] and [dWatch]:
    [const scope = makeObjectScope(this); scope.run(..)] *)
Definition run_job (j : job) (rt : runtime) : runtime :=
  match j with
  | effect_job this target flush =>
      let '(scope, rt') := makeObjectScope this rt in
      (* watchEffect(target.bind(this), { flush }) *)
      run_in_scope scope this target (by_watchEffect flush) rt'
  | watch_job this target source options =>
      let '(scope, rt') := makeObjectScope this rt in
      (* watch(thisSource, target.bind(this), options) *)
      run_in_scope scope this target
        (by_watch (fst (dWatch_source this source)) options) rt'
  end.

Definition member_target (m : member) : nat :=
  match m with
  | dEffect_member target _ => target
  | dWatch_member target _ _ => target
  end.

(** [context.addInitializer(function () { queueMicrotask(..) })] *)
Definition initializer_job (this : nat) (m : member) : job :=
  match m with
  | dEffect_member target flush => effect_job this target flush
  | dWatch_member target source options => watch_job this target source options
  end.

(** [new C()]: the instance gets the next number, its initializers run
    in the order of the decorated members, each queueing one job.  An
    object that is not an instance of a decorated class is one with no
    members. *)
Definition construct (methods : gmap PropertyKey nat) (members : list member)
    (rt : runtime) : nat * runtime :=
  let this := length (properties rt) in
  (this,
   {| scopes := scopes rt; stopped := stopped rt; parents := parents rt;
      activeEffectScope := activeEffectScope rt; handles := handles rt;
      watchersMap := watchersMap rt;
      properties := properties rt ++ [methods];
      microtasks := microtasks rt ++ map (initializer_job this) members |}).

(** The oldest queued job runs. *)
Definition run_microtask (rt : runtime) : runtime :=
  match microtasks rt with
  | [] => rt
  | j :: rest =>
      run_job j
        {| scopes := scopes rt; stopped := stopped rt; parents := parents rt;
           activeEffectScope := activeEffectScope rt; handles := handles rt;
           watchersMap := watchersMap rt;
           properties := properties rt; microtasks := rest |}
  end.

(** User code starts or stops running in a scope ([scope.run(..)],
    [scope.on()], [scope.off()]): any scope made so far, stopped or
    not, or none. *)
Definition enter (a : option nat) (rt : runtime) : runtime :=
  {| scopes := scopes rt; stopped := stopped rt; parents := parents rt;
     activeEffectScope := a; handles := handles rt;
     watchersMap := watchersMap rt;
     properties := properties rt; microtasks := microtasks rt |}.

(** What the program around the library can do, one action at a time:
    make objects, let a queued job run, call the exported functions on
    objects that exist, and use Vue on its own: make scopes, run code
    in a scope, and stop any scope, also one that [makeObjectScope]
    handed out. *)
Inductive action : Type :=
| New (methods : gmap PropertyKey nat) (members : list member)
| Microtask
| MakeObjectScope (object : nat)
| DisposeObjectScope (object : nat)
| CallWatcher (c : handle_call) (context : nat) (targetName : PropertyKey)
| EffectScope (detached : bool)
| Enter (a : option nat)
| Stop (scope : nat).

Definition made (a : option nat) (rt : runtime) : bool :=
  match a with
  | Some s => Nat.ltb s (length (stopped rt))
  | None => true
  end.

Definition act (rt : runtime) (a : action) : runtime :=
  match a with
  | New methods members => snd (construct methods members rt)
  | Microtask => run_microtask rt
  | MakeObjectScope object =>
      if Nat.ltb object (length (properties rt)) then snd (makeObjectScope object rt) else rt
  | DisposeObjectScope object => disposeObjectScope object rt
  | CallWatcher c context targetName => call_watcher c context targetName rt
  | EffectScope detached => snd (effectScope detached rt)
  | Enter a => if made a rt then enter a rt else rt
  | Stop scope => stop scope rt
  end.

Definition acts (rt : runtime) (l : list action) : runtime := fold_left act l rt.

Definition possible (rt : runtime) : Prop := exists l, rt = acts no_runtime l.

(** What holds of every possible runtime. *)
Record sound (rt : runtime) : Prop := {
  sound_scopes : forall o s, scopes rt !! o = Some s -> s < length (stopped rt);
  sound_objects : forall o s, scopes rt !! o = Some s -> o < length (properties rt);
  sound_parents : length (parents rt) = length (stopped rt);
  sound_held : forall d p, parents rt !! d = Some (Some p) -> p < d;
  sound_active : forall a, activeEffectScope rt = Some a -> a < length (stopped rt);
  sound_distinct : forall o1 o2 s,
    scopes rt !! o1 = Some s -> scopes rt !! o2 = Some s -> o1 = o2;
  sound_table : forall o t h inner,
    watchersMap rt !! o = Some inner -> inner !! t = Some h ->
    exists w, handles rt !! h = Some w /\ made_for w = o /\ made_from w = t;
  sound_handles : forall h w,
    handles rt !! h = Some w ->
    callback w = Bound (made_for w) (made_from w) /\
    made_in w < length (stopped rt) /\
    (scopes rt !! made_for w = Some (made_in w) \/ stopped rt !! made_in w = Some true);
  sound_known : forall o inner,
    watchersMap rt !! o = Some inner -> o < length (properties rt);
  sound_queue : forall j, j ∈ microtasks rt -> job_this j < length (properties rt);
}.
(** The earlier revision binds the closure variable itself. *)
Module LegacyWatch.

(** [if (typeof source === 'function') { source = source.bind(this); }
    const watchHandle = watch(source, target.bind(this), options);] *)
Definition dWatch_source (this : nat) (source : WatchSource) : WatchSource * WatchSource :=
  let source' := bind_source this source in
  (source', source').

End LegacyWatch.
(** ** [dComputed]

    [const computedMap = new WeakMap<object, Record<string | symbol,
    ComputedRef>>()].  Vue's [computed(getter)] is not part of the
    package: a computed ref is known here by the getter it was made
    from. *)

(** The initializer of [dComputed(target, context)]:
    [if (!computedMap.has(this)) computedMap.set(this, {});
     computedMap.get(this)![context.name] = computed(target.bind(this));] *)
Definition dComputed_initializer (this : nat) (name : PropertyKey) (target : nat)
    (computedMap : gmap nat (gmap PropertyKey func)) : gmap nat (gmap PropertyKey func) :=
  let record := default ∅ (computedMap !! this) in
  <[this := <[name := bind this (Function target)]> record]> computedMap.

(** What the getter that replaces the decorated one does. *)
Inductive computed_read : Type :=
| value_of (computed : func)   (* returns [.value] of this computed ref *)
| throws (e : value)
| no_entry.                    (* the record has nothing under the name *)

(** [if (!computedMap.has(this)) throw new Error('Computed decorator lost its value');
     return computedMap.get(this)![context.name].value;] *)
Definition dComputed_getter (this : nat) (name : PropertyKey)
    (computedMap : gmap nat (gmap PropertyKey func)) : computed_read :=
  match computedMap !! this with
  | None => throws (new_Error "Computed decorator lost its value")
  | Some record =>
      match record !! name with
      | Some computed => value_of computed
      | None => no_entry
      end
  end.

(** The initializers that have run, oldest first: instance, name of the
    getter, getter as written. *)
Definition dComputed_initializers (inits : list (nat * PropertyKey * nat))
    (computedMap : gmap nat (gmap PropertyKey func)) : gmap nat (gmap PropertyKey func) :=
  fold_left (fun cm '(this, name, target) => dComputed_initializer this name target cm)
            inits computedMap.
(** The earlier revision keeps the promise objects in
    [promiseMap = new WeakMap<object, WeakMap<PromiseMethod, PromiseObject>>()]
    and its exported functions take [(context, targetName)].  Here for
    one instance: [inner] is [promiseMap.get(context)], the functions
    are the two that a decorated method gives rise to. *)
Module LegacyTable.

(** [export function getPromiseData(context, targetName)]:
    [const target = context[targetName];
     return promiseMap.get(context)?.get(target);] *)
Definition getPromiseData (own proto : gmap PropertyKey method_value)
    (inner : option (gmap method_value PromiseObject)) (targetName : PropertyKey)
  : option PromiseObject :=
  match inner with
  | Some m =>
      match get_property own proto targetName with
      | Some target => m !! target
      | None => None
      end
  | None => None
  end.

(** [function setPromiseObject(context, target, promiseObject)] *)
Definition setPromiseObject (target : method_value) (po : PromiseObject)
    (inner : option (gmap method_value PromiseObject))
  : option (gmap method_value PromiseObject) :=
  Some (<[target := po]> (default ∅ inner)).

(** [function makePromiseObject(context, targetName, target)]; the object
    literal it builds has the field values of [assignPromiseObject]. *)
Definition makePromiseObject (own proto : gmap PropertyKey method_value)
    (inner : option (gmap method_value PromiseObject))
    (targetName : PropertyKey) (target : method_value)
  : PromiseObject * option (gmap method_value PromiseObject) :=
  match getPromiseData own proto inner targetName with
  | Some po => (po, inner)
  | None => (assignPromiseObject, setPromiseObject target assignPromiseObject inner)
  end.

(** The first call of [makePromise] on the instance:
    [promiseObject = makePromiseObject(this, context.name, target)]. *)
Definition first_call (name : PropertyKey) (own proto : gmap PropertyKey method_value)
    (inner : option (gmap method_value PromiseObject))
  : option (gmap method_value PromiseObject) :=
  snd (makePromiseObject own proto inner name the_target).

(** [this[name] = makePromise], under the name as this revision strips it. *)
Definition dPromise_initializer (name : PropertyKey) (own : gmap PropertyKey method_value)
  : gmap PropertyKey method_value :=
  <[LegacyNames.stored_name name := the_makePromise]> own.

(** [export function isPromisePending(context, targetName)] *)
Definition isPromisePending (own proto : gmap PropertyKey method_value)
    (inner : option (gmap method_value PromiseObject)) (targetName : PropertyKey)
  : completion bool :=
  match getPromiseData own proto inner targetName with
  | Some po => Normal (isPending po)
  | None => Throw (new_Error "Promise object not found")
  end.

(** [export function getPromiseResult(context, targetName)] *)
Definition getPromiseResult (own proto : gmap PropertyKey method_value)
    (inner : option (gmap method_value PromiseObject)) (targetName : PropertyKey)
  : completion value :=
  match getPromiseData own proto inner targetName with
  | Some po => Normal (_result po)
  | None => Throw (new_Error "Promise object not found")
  end.

End LegacyTable.

(** ** The operation and the listeners on the call stack

    In the transition system above the operation and the listeners are
    atomic.  In JavaScript they are code that runs inside [makePromise]
    and inside [abortPromise]: the operation runs in the executor, after
    [_isPending] has been set and before [promiseObject.promise] is
    assigned, and each listener runs inside [forEach], before the list
    is emptied and [reject] is called.  While it runs, such code can
    read the promise object and call the wrapped method, [abort] and
    [onAbort]; a listener can throw.  [Nested] keeps the world of the
    transition system and adds the call stack: a step is now a call of
    the wrapper made by whatever code is running, the return or throw
    of the running operation or listener, or, with nothing on the stack,
    a job of the event loop. *)
Module Nested.

(** The calls of user code that the wrapper is waiting for. *)
Inductive frame : Type :=
| InTarget (k : nat)
    (* [target.call(this, ...args)], in the executor of chain [k] *)
| InListener (i len : nat)
    (* [listener()] for index [i] of a [forEach] that read length [len] *).

(** How the running code hands control back. *)
Inductive exit : Type :=
| Returns            (* an operation: returns a promise *)
| Raises (e : value) (* throws [e] *).

Record running : Type := {
  now : world;
  stack : list frame;        (* innermost call first *)
  returned : list nat;       (* the chain of every promise handed out by [makePromise] *)
}.

Definition with_now (w : world) (m : running) : running :=
  {| now := w; stack := stack m; returned := returned m |}.

Definition dPromiseFunction (eagerInit : bool) : running :=
  {| now := dPromiseFunction eagerInit; stack := []; returned := [] |}.

(** [promiseObject.promise = ..] *)
Definition store (k : nat) (po : PromiseObject) : PromiseObject :=
  {| _isDPromise := _isDPromise po; _abortListeners := _abortListeners po;
     _isPending := _isPending po; _error := _error po; _result := _result po;
     promise := Some k; resolve := resolve po; reject := reject po |}.

(** [promiseObject._abortListeners.length = 0] *)
Definition clear_listeners (po : PromiseObject) : PromiseObject :=
  {| _isDPromise := _isDPromise po; _abortListeners := [];
     _isPending := _isPending po; _error := _error po; _result := _result po;
     promise := promise po; resolve := resolve po; reject := reject po |}.

(** [function makePromise(this, ...args)] up to [target.call(this,
    ...args)]: with a promise stored it returns it; otherwise the
    executor sets the fields and the operation starts to run. *)
Definition makePromise (args : list value) (m : running) : running :=
  let w := now m in
  (* if (!promiseObject) promiseObject = assignPromiseObject(makePromise); *)
  let po := match method w with Some po => po | None => assignPromiseObject end in
  match promise po with
  | Some p =>
      (* if (promiseObject.promise) return promiseObject.promise; *)
      {| now := with_method po w; stack := stack m; returned := returned m ++ [p] |}
  | None =>
      let k := length (chains w) in
      {| now := {| method := Some (executor k po); chains := chains w ++ [Started];
                   invoked := invoked w ++ [args]; fired := fired w |};
         stack := InTarget k :: stack m;
         returned := returned m |}
  end.

(** The rest of [makePromise], once the operation of chain [k] has
    handed control back: [.then(resolve, reject)] on what it returned,
    or, when it threw, the rejection of P0 by the [Promise] constructor;
    then [promiseObject.promise = ..] and [return promiseObject.promise]. *)
Definition makePromise_returns (k : nat) (x : exit) (m : running) : running :=
  let w := now m in
  let cs := match x with
            | Returns => chains w
            | Raises e => settle0 k (Rejected e) (chains w)
            end in
  {| now := {| method := store k <$> method w; chains := cs;
               invoked := invoked w; fired := fired w |};
     stack := stack m;
     returned := returned m ++ [k] |}.

(** [promiseObject._abortListeners.forEach((listener) => listener())]
    from index [i] on: [forEach] calls the element at [i] when [i] is
    below the length it read at the start and the array still has it;
    when it has run out, [abortPromise] goes on with
    [promiseObject._abortListeners.length = 0;
     promiseObject.reject?.(new AbortError());].  A listener that runs
    is logged with the chain that [reject] belongs to, the call this
    [abort()] is about. *)
Definition forEach_from (i len : nat) (m : running) : running :=
  let w := now m in
  match method w with
  | Some po =>
      match (if Nat.ltb i len then _abortListeners po !! i else None) with
      | Some l =>
          {| now := {| method := method w; chains := chains w; invoked := invoked w;
                       fired := fired w ++ [(reject po, l)] |};
             stack := InListener i len :: stack m;
             returned := returned m |}
      | None =>
          let chains' :=
            match reject po with
            | Some k => settle0 k (Rejected AbortError) (chains w)
            | None => chains w
            end in
          with_now {| method := Some (clear_listeners po); chains := chains';
                      invoked := invoked w; fired := fired w |} m
      end
  | None => m
  end.

(** [function abortPromise(promiseObject)] up to the first listener. *)
Definition abortPromise (po : PromiseObject) (m : running) : running :=
  if negb (isPending po) then m
  else forEach_from 0 (length (_abortListeners po)) m.

(** [export function abort(method)] *)
Definition abort (m : running) : completion running :=
  match promise_object_of (now m) with
  | Normal po => Normal (abortPromise po m)
  | Throw e => Throw e
  end.

(** [export function onAbort(method, listener)] *)
Definition onAbort (l : listener) (m : running) : completion running :=
  match onAbort l (now m) with
  | Normal w => Normal (with_now w m)
  | Throw e => Throw e
  end.

Inductive event : Type :=
| Call (args : list value)      (* the running code calls the wrapped method *)
| Abort                         (* the running code calls [abort(method)] *)
| OnAbort (l : listener)        (* the running code calls [onAbort(method, l)] *)
| Exit (x : exit)               (* the operation or listener on top of the stack is done *)
| OpSettles (k : nat) (o : outcome)
| Tick (k : nat).

(** An exported function that throws leaves everything as it was; the
    exception goes to the code that called it. *)
Definition state_after (m : running) (c : completion running) : running :=
  match c with
  | Normal m' => m'
  | Throw _ => m
  end.

Definition pop (m : running) : running :=
  {| now := now m; stack := tail (stack m); returned := returned m |}.

(** One step.  Jobs of the event loop ([OpSettles], [Tick]) run only on
    an empty stack, and only running code can return or throw. *)
Definition step (m : running) (e : event) : option running :=
  match e with
  | Call args => Some (makePromise args m)
  | Abort => Some (state_after m (abort m))
  | OnAbort l => Some (state_after m (onAbort l m))
  | Exit x =>
      match stack m with
      | InTarget k :: _ => Some (makePromise_returns k x (pop m))
      | InListener i len :: _ =>
          match x with
          | Returns => Some (forEach_from (S i) len (pop m))
          | Raises _ => Some (pop m)   (* out of [forEach], [abortPromise] and [abort] *)
          end
      | [] => None
      end
  | OpSettles k o =>
      match stack m with
      | [] => Some (with_now (op_settles k o (now m)) m)
      | _ => None
      end
  | Tick k =>
      match stack m with
      | [] => Some (with_now (tick k (now m)) m)
      | _ => None
      end
  end.

Fixpoint run (m : running) (es : list event) : option running :=
  match es with
  | [] => Some m
  | e :: es' =>
      match step m e with
      | Some m' => run m' es'
      | None => None
      end
  end.

Definition reachable (eagerInit : bool) (m : running) : Prop :=
  exists es : list event, run (dPromiseFunction eagerInit) es = Some m.

Definition is_InTarget (f : frame) : bool :=
  match f with
  | InTarget _ => true
  | InListener _ _ => false
  end.

(** An operation has been started and has not handed control back. *)
Definition executing (m : running) : bool := existsb is_InTarget (stack m).

Definition is_Call (e : event) : bool :=
  match e with
  | Call _ => true
  | _ => false
  end.

(** The operation calls the wrapped method again before it has returned. *)
Definition reenters (m : running) (e : event) : bool := is_Call e && executing m.

(** No step of the run is such a call. *)
Fixpoint apart (m : running) (es : list event) : bool :=
  match es with
  | [] => true
  | e :: es' =>
      negb (reenters m e) &&
      match step m e with
      | Some m' => apart m' es'
      | None => true
      end
  end.

(** Reachable without such a call. *)
Definition reachable_apart (eagerInit : bool) (m : running) : Prop :=
  exists es : list event,
    run (dPromiseFunction eagerInit) es = Some m /\
    apart (dPromiseFunction eagerInit) es = true.

(** The inspection functions read the promise object, whatever is on
    the stack. *)
Definition isPromisePending (m : running) : completion bool := isPromisePending (now m).
Definition getPromiseError (m : running) : completion value := getPromiseError (now m).
Definition getPromiseResult (m : running) : completion value := getPromiseResult (now m).

Definition is_InListener (f : frame) : bool := negb (is_InTarget f).

(** An [abort()] is under way: one of its listeners is running. *)
Definition aborting (m : running) : bool := existsb is_InListener (stack m).

Definition is_Abort (e : event) : bool :=
  match e with
  | Abort => true
  | _ => false
  end.

Definition is_OnAbort (l : listener) (e : event) : bool :=
  match e with
  | OnAbort l' => Nat.eqb l l'
  | _ => false
  end.

(** The listeners that a list of events registers, in order. *)
Definition registrations (es : list event) : list listener :=
  flat_map (fun e => match e with OnAbort l => [l] | _ => [] end) es.

(** The step at which [forEach] runs out of listeners, so that
    [abortPromise] goes on to empty the list and to call [reject]: an
    [abort()] that finds [isPending] true and no listener, or the normal
    return of the last listener that [forEach] calls. *)
Definition forEach_ends (m : running) (e : event) : bool :=
  match method (now m) with
  | Some po =>
      match e with
      | Abort => _isDPromise po && isPending po && Nat.eqb (length (_abortListeners po)) 0
      | Exit Returns =>
          match stack m with
          | InListener i len :: _ =>
              negb (Nat.ltb (S i) len && Nat.ltb (S i) (length (_abortListeners po)))
          | _ => false
          end
      | _ => false
      end
  | None => false
  end.

(** A listener throws, or code that a listener runs calls [abort()]. *)
Definition disturbs (m : running) (e : event) : bool :=
  match e with
  | Abort => aborting m
  | Exit (Raises _) =>
      match stack m with
      | InListener _ _ :: _ => true
      | _ => false
      end
  | _ => false
  end.

(** No step of the run is one of these. *)
Fixpoint calm (m : running) (es : list event) : bool :=
  match es with
  | [] => true
  | e :: es' =>
      negb (disturbs m e) &&
      match step m e with
      | Some m' => calm m' es'
      | None => true
      end
  end.

(** The innermost listener that is running: its index and the length
    that its [forEach] has read. *)
Fixpoint listener_frame (s : list frame) : option (nat * nat) :=
  match s with
  | [] => None
  | InListener i len :: _ => Some (i, len)
  | InTarget _ :: s' => listener_frame s'
  end.

(** The listeners that are still to be called: those in the list, or,
    while a [forEach] is at index [i], those after [i]. *)
Definition waiting (m : running) : list listener :=
  match listener_frame (stack m) with
  | Some (i, _) => drop (S i) (listeners_of (now m))
  | None => listeners_of (now m)
  end.

(** How often listener [l] has run, plus how often it is waiting. *)
Definition runs_and_waits (l : listener) (m : running) : nat :=
  count_occ Nat.eq_dec (map snd (fired (now m))) l + count_occ Nat.eq_dec (waiting m) l.

(** What holds of the stack as long as no step disturbs. *)
Record calm_inv (m : running) : Prop := {
  calm_one : length (filter is_InListener (stack m)) <= 1;
  calm_index : forall i len, listener_frame (stack m) = Some (i, len) ->
    i < length (listeners_of (now m));
}.

(** The call that an [abort()] made now would be about: the one whose
    [reject] is stored, or, with none, the next one to start. *)
Definition current_or_next (m : running) : nat :=
  match method (now m) with
  | Some po =>
      match reject po with
      | Some k => k
      | None => length (chains (now m))
      end
  | None => length (chains (now m))
  end.

(** *** What every reachable state satisfies *)

Record ginv (m : running) : Prop := {
  g_lazy : method (now m) = None -> chains (now m) = [] /\ stack m = [];
  g_wrapped : forall po, method (now m) = Some po -> _isDPromise po = true;
  g_resolve : forall po, method (now m) = Some po -> resolve po = reject po;
  g_pending : forall po, method (now m) = Some po ->
    _isPending po = pending_flag (reject po);
  g_reject : forall po k, method (now m) = Some po -> reject po = Some k ->
    S k = length (chains (now m));
  g_promise : forall po p, method (now m) = Some po -> promise po = Some p ->
    _isPending po = true;
  g_promise_lt : forall po p, method (now m) = Some po -> promise po = Some p ->
    p < length (chains (now m));
  g_stored : forall po, method (now m) = Some po ->
    executing m = false -> _isPending po = true -> promise po <> None;
  g_busy : forall po, method (now m) = Some po -> stack m <> [] -> _isPending po = true;
  g_frames : forall k, In (InTarget k) (stack m) -> k < length (chains (now m));
  g_invoked : length (invoked (now m)) = length (chains (now m));
}.

(** *** What holds as long as no operation calls the method again *)

(** The world as [makePromise] leaves it once the running operation has
    returned: with the promise of the latest chain stored. *)
Definition stored_world (m : running) : world :=
  if executing m then
    {| method := store (pred (length (chains (now m)))) <$> method (now m);
       chains := chains (now m); invoked := invoked (now m); fired := fired (now m) |}
  else now m.

Record tidy (m : running) : Prop := {
  tidy_inv : inv (stored_world m);
  tidy_one : length (filter is_InTarget (stack m)) <= 1;
  tidy_top : forall k, In (InTarget k) (stack m) -> S k = length (chains (now m));
  tidy_unstored : executing m = true -> in_flight (now m) = None;
}.

End Nested.

(** The steps that the atomic transition system has too. *)
Definition plain_event (e : Nested.event) : option event :=
  match e with
  | Nested.Abort => Some Abort
  | Nested.OnAbort l => Some (OnAbort l)
  | Nested.OpSettles k o => Some (OpSettles k o)
  | Nested.Tick k => Some (Tick k)
  | _ => None
  end.

(** Statements about the wrapper with the call stack that are put to
    the test below. *)

(** The pending flag is true exactly when a promise is stored, wherever
    the promise object is looked at. *)
Definition pending_iff_stored_at_every_point : Prop :=
  forall eager m, Nested.reachable eager m ->
    (Nested.isPromisePending m = Normal true <-> exists k, in_flight (Nested.now m) = Some k).

(** From a call made with nothing in flight and as long as its operation
    has not settled, the operation has been invoked once, and every
    promise handed out is the one of that call. *)
Definition every_call_before_settlement_is_memoized : Prop :=
  forall eager m args es m',
    Nested.reachable eager m -> Nested.stack m = [] -> in_flight (Nested.now m) = None ->
    Nested.run (Nested.makePromise args m) es = Some m' ->
    chains (Nested.now m') !! length (chains (Nested.now m)) = Some Started ->
    invoked (Nested.now m') = invoked (Nested.now m) ++ [args] /\
    forall p, p ∈ drop (length (Nested.returned m)) (Nested.returned m') ->
              p = length (chains (Nested.now m)).

(** [abort()] called while [isPending] is true, with listeners that just
    return: the call in flight is rejected with [AbortError]. *)
Definition abort_while_pending_rejects_the_call : Prop :=
  forall eager m k m1 m2 o,
    Nested.reachable eager m -> Nested.stack m = [] ->
    Nested.isPromisePending m = Normal true -> in_flight (Nested.now m) = Some k ->
    Nested.run m (Nested.Abort ::
                  replicate (length (listeners_of (Nested.now m))) (Nested.Exit Nested.Returns))
      = Some m1 ->
    Nested.run m1 (replicate 4 (Nested.Tick k)) = Some m2 ->
    returned_promise k (Nested.now m2) = Some o ->
    o = Rejected AbortError.

(** ... and once its reactions have run, [getPromiseError] returns the
    [AbortError]. *)
Definition abort_while_pending_is_recorded : Prop :=
  forall eager m k m1 m2,
    Nested.reachable eager m -> Nested.stack m = [] ->
    Nested.isPromisePending m = Normal true -> in_flight (Nested.now m) = Some k ->
    Nested.run m (Nested.Abort ::
                  replicate (length (listeners_of (Nested.now m))) (Nested.Exit Nested.Returns))
      = Some m1 ->
    Nested.run m1 (replicate 4 (Nested.Tick k)) = Some m2 ->
    Nested.getPromiseError m2 = Normal AbortError /\
    Nested.getPromiseResult m2 = Normal VUndefined.

(** [abort()] called while [isPending] is true runs every listener and
    empties the list, whether the listeners return or throw: [es] is
    how the listeners hand control back, up to the end of [abort()]. *)
Definition abort_while_pending_clears_the_list : Prop :=
  forall eager m es m',
    Nested.reachable eager m -> Nested.stack m = [] ->
    Nested.isPromisePending m = Normal true ->
    forallb (fun e => match e with Nested.Exit _ => true | _ => false end) es = true ->
    Nested.run m (Nested.Abort :: es) = Some m' -> Nested.stack m' = [] ->
    fired (Nested.now m') =
      fired (Nested.now m) ++ map (pair (in_flight (Nested.now m))) (listeners_of (Nested.now m)) /\
    listeners_of (Nested.now m') = [].

(** *** The transition system with atomic operations and listeners, as
    runs of the one with the call stack: every operation hands control
    back at once, and every listener just returns. *)

Definition exit_of (t : target_return) : Nested.exit :=
  match t with
  | ReturnsPromise => Nested.Returns
  | Throws e => Nested.Raises e
  end.

Definition unfold_event (w : world) (e : event) : list Nested.event :=
  match e with
  | Call args t =>
      match in_flight w with
      | Some _ => [Nested.Call args]
      | None => [Nested.Call args; Nested.Exit (exit_of t)]
      end
  | Abort =>
      Nested.Abort ::
      match promise_object_of w with
      | Normal po =>
          if isPending po
          then replicate (length (_abortListeners po)) (Nested.Exit Nested.Returns)
          else []
      | Throw _ => []
      end
  | OnAbort l => [Nested.OnAbort l]
  | OpSettles k o => [Nested.OpSettles k o]
  | Tick k => [Nested.Tick k]
  end.

Fixpoint unfold_events (w : world) (es : list event) : list Nested.event :=
  match es with
  | [] => []
  | e :: es' => unfold_event w e ++ unfold_events (step w e) es'
  end.

(** * Proofs *)

(** *** The invariant holds in every reachable world *)
Lemma inv_init eager : inv (dPromiseFunction eager).
Proof.
  split; simpl; try done; destruct eager; intros po [= <-]; done.
Qed.

Lemma lookup_latest_snoc (cs : list stage) (st : stage) :
  (cs ++ [st]) !! pred (length (cs ++ [st])) = Some st.
Proof.
  rewrite length_app. simpl. replace (pred (length cs + 1)) with (length cs + 0) by lia.
  rewrite lookup_app_r by lia. replace (length cs + 0 - length cs) with 0 by lia. done.
Qed.

Lemma inv_makePromise args t w : inv w -> inv (snd (makePromise args t w)).
Proof.
  intros [Hl Ho Hla Hold Hinv]. unfold makePromise.
  destruct (method w) as [po|] eqn:Hm.
  - destruct (promise po) as [p|] eqn:Hp; simpl.
    + split; simpl.
      * done.
      * intros po' [= <-]. by apply Ho.
      * intros po' [= <-]. by apply Hla.
      * done.
      * done.
    + destruct (Ho po eq_refl) as (Hd & Hres & Hrej & Hpe).
      specialize (Hla po eq_refl).
      split; simpl.
      * done.
      * intros po' [= <-]. simpl. done.
      * intros po' [= <-]. rewrite lookup_latest_snoc. simpl.
        rewrite length_app. simpl. replace (pred (length (chains w) + 1)) with (length (chains w)) by lia.
        destruct t; simpl; done.
      * intros j st Hj Hlt. rewrite length_app in Hlt. simpl in Hlt.
        rewrite lookup_app_l in Hj by lia.
        destruct (decide (S j < length (chains w))) as [Hlt'|Hge]; [by eapply Hold|].
        assert (j = pred (length (chains w))) as -> by lia.
        rewrite Hj, Hp in Hla. destruct Hla as [_ Hla]. by destruct (live st).
      * rewrite !length_app. simpl. lia.
  - rewrite (Hl eq_refl) in *. simpl. split; simpl.
    + done.
    + intros po' [= <-]. simpl. done.
    + intros po' [= <-]. simpl. destruct t; done.
    + intros j st Hj Hlt. destruct j; simpl in *; [lia|done].
    + rewrite !length_app. simpl in *. lia.
Qed.

Lemma lookup_settle0 k o cs j :
  settle0 k o cs !! j =
    match cs !! j with
    | Some Started => if decide (k = j) then Some (Settled0 o) else Some Started
    | x => x
    end.
Proof.
  unfold settle0. destruct (cs !! k) as [[]|] eqn:Hk; try (by destruct (cs !! j) as [[]|] eqn:Hj; try done; case_decide; simplify_eq).
  destruct (decide (k = j)) as [->|Hne].
  - rewrite Hk. rewrite list_lookup_insert_eq; [done|]. by eapply lookup_lt_Some.
  - rewrite list_lookup_insert_ne by done. by destruct (cs !! j) as [[]|].
Qed.

Lemma length_settle0 k o cs : length (settle0 k o cs) = length cs.
Proof. unfold settle0. destruct (cs !! k) as [[]|]; try done. apply length_insert. Qed.

Lemma inv_settle0 k o w : inv w -> inv (with_chains (settle0 k o (chains w)) w).
Proof.
  intros [Hl Ho Hla Hold Hinv]. split; simpl.
  - intros Hm. rewrite (Hl Hm). done.
  - done.
  - intros po Hm. specialize (Hla po Hm). rewrite length_settle0, lookup_settle0.
    destruct (chains w !! pred (length (chains w))) as [[]|]; try done.
    case_decide; done.
  - intros j st. rewrite length_settle0, lookup_settle0. intros Hj Hlt.
    destruct (chains w !! j) as [st'|] eqn:Hj'; [|done].
    specialize (Hold j st' Hj' Hlt). destruct st'; simplify_eq; done.
  - by rewrite length_settle0.
Qed.

Lemma inv_onAbort_push l po w :
  inv w -> method w = Some po ->
  inv (with_method
        {| _isDPromise := _isDPromise po; _abortListeners := l;
           _isPending := _isPending po; _error := _error po; _result := _result po;
           promise := promise po; resolve := resolve po; reject := reject po |} w).
Proof.
  intros [Hl Ho Hla Hold Hinv] Hm. split; simpl.
  - done.
  - intros po' [= <-]. simpl. by apply Ho.
  - intros po' [= <-]. specialize (Hla po Hm).
    destruct (chains w !! pred (length (chains w))) as [[| [] | [] | [] | [] | []]|]; done.
  - done.
  - done.
Qed.

Lemma inv_fired f w :
  inv w -> inv {| method := method w; chains := chains w; invoked := invoked w; fired := f |}.
Proof. intros [Hl Ho Hla Hold Hinv]. split; done. Qed.

Lemma inv_abortPromise po w : inv w -> method w = Some po -> inv (abortPromise po w).
Proof.
  intros Hi Hm. unfold abortPromise. destruct (negb (isPending po)); [done|].
  pose proof (inv_onAbort_push [] po w Hi Hm) as Hi1.
  destruct (reject po) as [k|].
  - exact (inv_fired _ _ (inv_settle0 k (Rejected AbortError) _ Hi1)).
  - exact (inv_fired _ _ Hi1).
Qed.

Lemma inv_live_latest w k st :
  inv w -> chains w !! k = Some st -> live st = true ->
  k = pred (length (chains w)) /\
  exists po, method w = Some po /\ fields_at st po /\ promise po = Some k.
Proof.
  intros [Hl Ho Hla Hold Hinv] Hk Hlive.
  assert (k < length (chains w)) by (by eapply lookup_lt_Some).
  assert (k = pred (length (chains w))) as Hk'.
  { destruct (decide (S k < length (chains w))) as [Hlt|]; [|lia].
    rewrite (Hold k st Hk Hlt) in Hlive. done. }
  split; [done|].
  destruct (method w) as [po|] eqn:Hm.
  - exists po. split; [done|]. specialize (Hla po eq_refl).
    rewrite <- Hk', Hk, Hlive in Hla. done.
  - rewrite (Hl eq_refl) in Hk. done.
Qed.

Lemma inv_tick k w : inv w -> inv (tick k w).
Proof.
  intros Hi. unfold tick.
  destruct (chains w !! k) as [st|] eqn:Hk; [|done].
  assert (k < length (chains w)) as Hlt by (by eapply lookup_lt_Some).
  destruct st as [| o | o | o | o | o]; try done.
  1-3: destruct (inv_live_latest w k _ Hi Hk eq_refl) as (Hk' & po & Hm & Hf & Hp);
       destruct Hi as [Hl Ho Hla Hold Hinv];
       destruct (Ho po Hm) as (Hd & Hres & Hrej & Hpe);
       split; simpl; rewrite ?Hm; simpl; rewrite ?length_insert;
       [ done
       | intros po' [= <-]; destruct o; simpl; rewrite ?Hres, ?Hrej, ?Hpe, ?Hp; done
       | intros po' [= <-]; rewrite <- Hk', list_lookup_insert_eq by done;
         destruct o; simpl in *; rewrite ?Hp; destruct Hf as [? ?]; repeat split; simpl; congruence
       | intros j st Hj Hlt'; rewrite list_lookup_insert_ne in Hj by lia; by eapply Hold
       | done ].
  destruct Hi as [Hl Ho Hla Hold Hinv].
  split; simpl; rewrite ?length_insert.
  - intros Hm. rewrite (Hl Hm) in Hk. done.
  - done.
  - intros po Hm. specialize (Hla po Hm).
    destruct (decide (k = pred (length (chains w)))) as [->|Hne].
    + rewrite list_lookup_insert_eq by done. rewrite Hk in Hla. done.
    + rewrite list_lookup_insert_ne by done. done.
  - intros j st Hj Hlt'.
    destruct (decide (k = j)) as [->|Hne].
    + rewrite list_lookup_insert_eq in Hj by done. by simplify_eq.
    + rewrite list_lookup_insert_ne in Hj by done. by eapply Hold.
  - done.
Qed.

Lemma inv_step w e : inv w -> inv (step w e).
Proof.
  intros Hi. destruct e as [args t| |l|k o|k]; simpl.
  - by apply inv_makePromise.
  - unfold abort, promise_object_of.
    destruct (method w) as [po|] eqn:Hm; [|done].
    destruct (_isDPromise po); [|done]. simpl. by apply inv_abortPromise.
  - unfold onAbort, promise_object_of.
    destruct (method w) as [po|] eqn:Hm; [|done].
    destruct (_isDPromise po); [|done]. simpl. by apply inv_onAbort_push.
  - by apply inv_settle0.
  - by apply inv_tick.
Qed.

Lemma run_snoc w es e : run w (es ++ [e]) = step (run w es) e.
Proof. unfold run. by rewrite fold_left_app. Qed.

Lemma run_app w es es' : run w (es ++ es') = run (run w es) es'.
Proof. unfold run. by rewrite fold_left_app. Qed.

Lemma inv_run w es : inv w -> inv (run w es).
Proof.
  revert w. induction es as [|e es IH]; intros w Hi; [done|].
  simpl. apply IH. by apply inv_step.
Qed.

Lemma reachable_inv eager w : reachable eager w -> inv w.
Proof. intros [es ->]. apply inv_run, inv_init. Qed.

(** *** Chains only move forward *)

Lemma advances_refl st : advances st st.
Proof. split; [lia|done]. Qed.

Ltac unchanged := eexists; split; [done | apply advances_refl].

Lemma advances_trans st1 st2 st3 : advances st1 st2 -> advances st2 st3 -> advances st1 st3.
Proof. intros [H1 H1'] [H2 H2']. split; [lia|]. intros o Ho. by apply H2', H1'. Qed.

Lemma advances_settle0 k o cs j st :
  cs !! j = Some st -> exists st', settle0 k o cs !! j = Some st' /\ advances st st'.
Proof.
  intros Hj. rewrite lookup_settle0, Hj.
  destruct st; try (unchanged).
  case_decide; eexists; (split; [done|]); [|apply advances_refl].
  split; simpl; [lia|done].
Qed.

Lemma advances_abortPromise po w j st :
  chains w !! j = Some st ->
  exists st', chains (abortPromise po w) !! j = Some st' /\ advances st st'.
Proof.
  intros Hj. unfold abortPromise.
  destruct (negb (isPending po)); [unchanged|].
  simpl. destruct (reject po) as [k|]; [by apply advances_settle0|].
  unchanged.
Qed.

Lemma advances_insert (cs : list stage) k st0 st1 j st :
  cs !! k = Some st0 -> advances st0 st1 -> cs !! j = Some st ->
  exists st', <[k := st1]> cs !! j = Some st' /\ advances st st'.
Proof.
  intros Hk Hadv Hj. destruct (decide (k = j)) as [->|Hne].
  - rewrite list_lookup_insert_eq by (by eapply lookup_lt_Some).
    exists st1. split; [done|]. by simplify_eq.
  - rewrite list_lookup_insert_ne by done. exists st. split; [done|apply advances_refl].
Qed.

Lemma advances_step w e j st :
  chains w !! j = Some st ->
  exists st', chains (step w e) !! j = Some st' /\ advances st st'.
Proof.
  intros Hj. destruct e as [args t| |l|k o|k]; simpl.
  - unfold makePromise.
    destruct (promise _); simpl; [unchanged|].
    rewrite lookup_app_l by (by eapply lookup_lt_Some).
    unchanged.
  - unfold abort. destruct (promise_object_of w); simpl;
      [by apply advances_abortPromise | unchanged].
  - unfold onAbort. destruct (promise_object_of w); simpl;
      unchanged.
  - by apply advances_settle0.
  - unfold tick. destruct (chains w !! k) as [[| o | o | o | o | o]|] eqn:Hk; simpl;
      try (unchanged);
      (eapply advances_insert; [done| |done]); split; simpl; (lia || done).
Qed.

Lemma advances_run w es j st :
  chains w !! j = Some st ->
  exists st', chains (run w es) !! j = Some st' /\ advances st st'.
Proof.
  revert w st. induction es as [|e es IH]; intros w st Hj; simpl.
  - exists st. split; [done|apply advances_refl].
  - destruct (advances_step w e j st Hj) as (st1 & Hj1 & Hadv1).
    destruct (IH _ _ Hj1) as (st2 & Hj2 & Hadv2).
    exists st2. split; [done|]. by eapply advances_trans.
Qed.

Lemma advances_live st st' : advances st st' -> live st' = true -> live st = true.
Proof. intros [Hr _]. destruct st, st'; simpl in *; (done || lia). Qed.

Lemma advances_Settled3 st o : advances (Settled3 o) st -> st = Settled3 o.
Proof.
  intros [Hr Ho]. specialize (Ho o eq_refl).
  destruct st; simpl in *; try lia. by simplify_eq.
Qed.

(** The returned promise settles once and for all. *)
Lemma returned_promise_run w es k o :
  returned_promise k w = Some o -> returned_promise k (run w es) = Some o.
Proof.
  unfold returned_promise. intros Hk.
  destruct (chains w !! k) as [st|] eqn:Hst; [|done].
  destruct st; try done. simplify_eq.
  destruct (advances_run w es k _ Hst) as (st' & -> & Hadv).
  by rewrite (advances_Settled3 _ _ Hadv).
Qed.

(** *** Calls *)

Lemma in_flight_Some w k :
  in_flight w = Some k -> exists po, method w = Some po /\ promise po = Some k.
Proof. unfold in_flight. destruct (method w) as [po|]; [eauto|done]. Qed.

Lemma with_method_id w po : method w = Some po -> with_method po w = w.
Proof. destruct w. simpl. by intros ->. Qed.

Lemma makePromise_idle args t w :
  in_flight w = None ->
  fst (makePromise args t w) = length (chains w) /\
  invoked (snd (makePromise args t w)) = invoked w ++ [args] /\
  in_flight (snd (makePromise args t w)) = Some (length (chains w)) /\
  chains (snd (makePromise args t w)) =
    chains w ++ [match t with ReturnsPromise => Started | Throws e => Settled0 (Rejected e) end].
Proof.
  unfold in_flight, makePromise. destruct (method w) as [po|]; simpl.
  - intros ->. done.
  - done.
Qed.

Lemma invoked_abortPromise po w : invoked (abortPromise po w) = invoked w.
Proof. unfold abortPromise. by destruct (negb (isPending po)). Qed.

Lemma live_in_flight w k st :
  inv w -> chains w !! k = Some st -> live st = true -> in_flight w = Some k.
Proof.
  intros Hi Hk Hl. destruct (inv_live_latest w k st Hi Hk Hl) as (_ & po & Hm & _ & Hp).
  unfold in_flight. by rewrite Hm.
Qed.

(** *** Abort *)

Lemma promise_object_of_inv w po :
  inv w -> method w = Some po -> promise_object_of w = Normal po.
Proof.
  intros Hi Hm. unfold promise_object_of. rewrite Hm.
  destruct (inv_obj w Hi po Hm) as (-> & _). done.
Qed.

Lemma abort_not_pending w :
  isPromisePending w = Normal false -> abort w = Normal w.
Proof.
  unfold isPromisePending, abort. destruct (promise_object_of w) as [po|]; [|done].
  intros [= Hp]. unfold abortPromise. by rewrite Hp.
Qed.

Lemma tick_reaction w k st st' f :
  chains w !! k = Some st -> reaction st = Some (st', f) ->
  chains (tick k w) !! k = Some st' /\
  method (tick k w) = f <$> method w /\
  fired (tick k w) = fired w /\ invoked (tick k w) = invoked w /\
  length (chains (tick k w)) = length (chains w).
Proof.
  intros Hk Hr. assert (k < length (chains w)) as Hlt by (by eapply lookup_lt_Some).
  unfold tick. rewrite Hk.
  destruct st; simpl in Hr; simplify_eq; simpl;
    rewrite list_lookup_insert_eq, ?length_insert by done;
    repeat split; try done.
  by destruct (method w).
Qed.

(** One reaction after the other, from the settlement of P0 to that of
    the returned promise. *)
Lemma run_reactions w k o po :
  chains w !! k = Some (Settled0 o) -> method w = Some po ->
  let w' := run w [Tick k; Tick k; Tick k; Tick k] in
  returned_promise k w' = Some o /\
  method w' = Some (finally_callback (catch_callback o (then_callback o po))) /\
  fired w' = fired w /\ invoked w' = invoked w /\
  length (chains w') = length (chains w).
Proof.
  intros Hk Hm. simpl.
  destruct (tick_reaction w k _ _ _ Hk eq_refl) as (Hk1 & Hm1 & Hf1 & Hi1 & Hl1).
  destruct (tick_reaction _ k _ _ _ Hk1 eq_refl) as (Hk2 & Hm2 & Hf2 & Hi2 & Hl2).
  destruct (tick_reaction _ k _ _ _ Hk2 eq_refl) as (Hk3 & Hm3 & Hf3 & Hi3 & Hl3).
  destruct (tick_reaction _ k _ _ _ Hk3 eq_refl) as (Hk4 & Hm4 & Hf4 & Hi4 & Hl4).
  unfold returned_promise. rewrite Hk4, Hm4, Hm3, Hm2, Hm1, Hm. simpl.
  repeat split; congruence.
Qed.

Lemma settled_latest_recorded w k o :
  inv w -> returned_promise k w = Some o -> S k = length (chains w) ->
  exists po, method w = Some po /\ recorded o po /\ promise po = None /\
             promise_object_of w = Normal po.
Proof.
  intros Hi Hk Hlen. unfold returned_promise in Hk.
  destruct (chains w !! k) as [st|] eqn:Hst; [|done].
  destruct st; try done. simplify_eq.
  destruct (method w) as [po|] eqn:Hm.
  - exists po. pose proof (inv_latest w Hi po Hm) as Hla.
    replace (pred (length (chains w))) with k in Hla by lia.
    rewrite Hst in Hla. simpl in Hla. destruct Hla as [Hrec Hp].
    split; [done|]. split; [done|]. split; [done|]. by apply promise_object_of_inv.
  - rewrite (inv_lazy w Hi Hm) in Hst. done.
Qed.

Lemma recorded_reads w po o :
  promise_object_of w = Normal po -> recorded o po ->
  match o with
  | Fulfilled v => getPromiseResult w = Normal v /\ getPromiseError w = Normal VUndefined
  | Rejected e => getPromiseResult w = Normal VUndefined /\ getPromiseError w = Normal e
  end.
Proof.
  intros Hpo Hrec. unfold getPromiseResult, getPromiseError, result, error. rewrite Hpo.
  destruct o; destruct Hrec as [-> ->]; done.
Qed.

Lemma outcome_run w es k st o :
  chains w !! k = Some st -> outcome_of st = Some o ->
  forall o', returned_promise k (run w es) = Some o' -> o' = o.
Proof.
  intros Hk Ho o'. unfold returned_promise.
  destruct (advances_run w es k st Hk) as (st' & -> & [_ Hadv]).
  specialize (Hadv o Ho). destruct st'; try done. simpl in Hadv. congruence.
Qed.

Lemma finally_reads w k o po :
  inv w -> chains w !! k = Some (Settled0 o) -> method w = Some po ->
  let w' := run w [Tick k; Tick k; Tick k; Tick k] in
  isPromisePending w' = Normal false /\
  match o with
  | Fulfilled v => getPromiseResult w' = Normal v /\ getPromiseError w' = Normal VUndefined
  | Rejected e => getPromiseResult w' = Normal VUndefined /\ getPromiseError w' = Normal e
  end.
Proof.
  intros Hi Hk Hm w'.
  destruct (run_reactions w k o po Hk Hm) as (Hret & Hm' & _ & _ & Hlen). fold w' in Hret, Hm', Hlen.
  destruct (inv_live_latest w k _ Hi Hk eq_refl) as (Hk' & po' & Hm2 & [Hres Herr] & Hp).
  rewrite Hm in Hm2. simplify_eq.
  destruct (inv_obj w Hi po' Hm) as (Hd & _).
  unfold isPromisePending, getPromiseResult, getPromiseError, promise_object_of.
  rewrite Hm'. destruct o; simpl; rewrite Hd; simpl; unfold result, error; simpl; by rewrite ?Hres, ?Herr.
Qed.

(** *** Result and error *)

Lemma fields_at_exclusive st po :
  fields_at st po -> present (_result po) && present (_error po) = false.
Proof.
  destruct st as [| o | [v|e] | [v|e] | [v|e] | [v|e]]; simpl;
    try destruct o; intros [-> ->]; simpl; by rewrite ?andb_false_r.
Qed.

Lemma inv_exclusive w po :
  inv w -> method w = Some po -> present (_result po) && present (_error po) = false.
Proof.
  intros Hi Hm. pose proof (inv_latest w Hi po Hm) as Hla.
  destruct (chains w !! pred (length (chains w))) as [st|].
  - destruct Hla as [Hf _]. by eapply fields_at_exclusive.
  - by destruct Hla as (_ & -> & ->).
Qed.

Lemma inv_uncalled w po :
  inv w -> method w = Some po -> invoked w = [] ->
  _isPending po = false /\ _result po = VUndefined /\ _error po = VUndefined /\
  promise po = None.
Proof.
  intros Hi Hm Hiv. pose proof (inv_invoked w Hi) as Hlen. rewrite Hiv in Hlen.
  destruct (chains w) as [|c cs] eqn:Hc; [|done].
  pose proof (inv_latest w Hi po Hm) as Hla. rewrite Hc in Hla. simpl in Hla.
  destruct Hla as (Hp & Hres & Herr).
  destruct (inv_obj w Hi po Hm) as (_ & _ & _ & Hpe). rewrite Hp in Hpe. done.
Qed.




(** *** The listener list *)

Lemma promise_object_of_method w po :
  promise_object_of w = Normal po -> method w = Some po.
Proof.
  unfold promise_object_of. destruct (method w) as [po'|]; [|done].
  destruct (_isDPromise po'); [|done]. by intros [= ->].
Qed.

Lemma idle_not_pending w :
  inv w -> in_flight w = None -> method w <> None -> isPromisePending w = Normal false.
Proof.
  intros Hi Hfl Hm. destruct (method w) as [po|] eqn:Hpo; [|done].
  unfold isPromisePending. rewrite (promise_object_of_inv w po Hi Hpo).
  unfold isPending. destruct (inv_obj w Hi po Hpo) as (_ & _ & _ & ->).
  unfold in_flight in Hfl. rewrite Hpo in Hfl. by rewrite Hfl.
Qed.

Lemma idle_step w e :
  inv w -> in_flight w = None -> method w <> None -> is_Call e = false ->
  in_flight (step w e) = None /\ method (step w e) <> None /\
  listeners_of (step w e) = listeners_of w ++ registrations [e].
Proof.
  intros Hi Hfl Hm He.
  destruct e as [args t| |l|j o|j]; simpl in *; try done; rewrite ?app_nil_r.
  - by rewrite (abort_not_pending w (idle_not_pending w Hi Hfl Hm)).
  - destruct (method w) as [po|] eqn:Hpo; [|done].
    unfold onAbort. rewrite (promise_object_of_inv w po Hi Hpo). simpl.
    unfold in_flight, listeners_of in *. simpl. by rewrite Hpo in *.
  - done.
  - unfold tick. destruct (chains w !! j) as [st|] eqn:Hj; [|done].
    destruct (live st) eqn:Hl.
    + rewrite (live_in_flight w j st Hi Hj Hl) in Hfl. done.
    + by destruct st.
Qed.

Lemma finally_clears w k o :
  chains w !! k = Some (Settled2 o) ->
  listeners_of (tick k w) = [] /\ in_flight (tick k w) = None.
Proof.
  intros Hk. destruct (tick_reaction w k _ _ _ Hk eq_refl) as (_ & Hm & _).
  unfold listeners_of, in_flight. rewrite Hm. by destruct (method w).
Qed.

(** C5 as stated fails: [onAbort] pushes the listener whether or not a
    call is in flight (the test "should support abort listeners"
    registers before it calls). *)
Lemma listener_registered_while_idle :
  let w := run (dPromiseFunction true) [OnAbort 7] in
  (in_flight w = None /\ listeners_of w = [7]) /\
  ~ listeners_only_in_flight.
Proof.
  split; [done|]. intros H.
  specialize (H true (run (dPromiseFunction true) [OnAbort 7])
                (ex_intro _ [OnAbort 7] eq_refl) eq_refl). done.
Qed.

(** *** Whether the promise object is there *)

Lemma method_step w e : method w <> None -> method (step w e) <> None.
Proof.
  intros Hm. destruct (method w) as [po|] eqn:Hpo; [|done].
  destruct e as [args t| |l|j o|j]; simpl.
  - unfold makePromise. rewrite Hpo. by destruct (promise po).
  - unfold abort. destruct (promise_object_of w) as [po'|]; simpl; [|by rewrite Hpo].
    unfold abortPromise. destruct (negb (isPending po')); [by rewrite Hpo|done].
  - unfold onAbort. destruct (promise_object_of w); simpl; [done|by rewrite Hpo].
  - by rewrite Hpo.
  - unfold tick. destruct (chains w !! j) as [[]|]; simpl; by rewrite Hpo.
Qed.

Lemma method_run w es : method w <> None -> method (run w es) <> None.
Proof.
  revert w. induction es as [|e es IH]; intros w Hm; [done|].
  simpl. by apply IH, method_step.
Qed.

Lemma invoked_step w e : exists more, invoked (step w e) = invoked w ++ more.
Proof.
  destruct e as [args t| |l|j o|j]; simpl.
  - unfold makePromise. destruct (promise _); simpl; [exists []|exists [args]];
      by rewrite ?app_nil_r.
  - exists []. rewrite app_nil_r. unfold abort.
    destruct (promise_object_of w); simpl; [apply invoked_abortPromise|done].
  - exists []. rewrite app_nil_r. unfold onAbort. by destruct (promise_object_of w).
  - exists []. by rewrite app_nil_r.
  - exists []. rewrite app_nil_r. unfold tick. by destruct (chains w !! j) as [[]|].
Qed.

Lemma lazy_step w e :
  method w = None -> invoked (step w e) = [] -> method (step w e) = None.
Proof.
  intros Hm. destruct e as [args t| |l|j o|j]; simpl.
  - unfold makePromise. rewrite Hm. simpl. by destruct (invoked w).
  - unfold abort, promise_object_of. by rewrite Hm.
  - unfold onAbort, promise_object_of. by rewrite Hm.
  - done.
  - unfold tick. destruct (chains w !! j) as [[]|]; simpl; by rewrite Hm.
Qed.

Lemma lazy_uncalled w :
  reachable false w -> invoked w = [] -> method w = None.
Proof.
  intros [es ->]. induction es as [|e es IH] using rev_ind; [done|].
  rewrite run_snoc. intros Hiv. apply lazy_step; [|done]. apply IH.
  destruct (invoked_step (run (dPromiseFunction false) es) e) as [more Hmore].
  rewrite Hmore in Hiv. by apply app_eq_nil in Hiv as [? _].
Qed.

Lemma present_object w :
  reachable true w \/ (exists eager, reachable eager w /\ invoked w <> []) ->
  method w <> None.
Proof.
  intros [[es ->]|(eager & Hr & Hiv)].
  - by apply method_run.
  - pose proof (reachable_inv eager w Hr) as Hi. intros Hm.
    pose proof (inv_invoked w Hi) as Hlen. rewrite (inv_lazy w Hi Hm) in Hlen.
    by destruct (invoked w).
Qed.

(** C6 as stated fails: without [eagerInit] the promise object is made
    by the first call, and before it the three inspection functions
    throw. *)
Lemma lazy_inspection_throws :
  (isPromisePending (dPromiseFunction false) = Throw (new_Error "Promise object not found") /\
   getPromiseResult (dPromiseFunction false) = Throw (new_Error "Promise object not found") /\
   getPromiseError (dPromiseFunction false) = Throw (new_Error "Promise object not found")) /\
  ~ inspection_never_throws.
Proof.
  split; [done|]. intros H.
  destruct (H false (dPromiseFunction false) (ex_intro _ [] eq_refl))
    as (b & r & e & Hb & _). done.
Qed.

(** C6, as amended (inspection).  On a method wrapped with [eagerInit],
    and on any wrapped method that has been called at least once,
    [isPromisePending], [getPromiseResult] and [getPromiseError] return
    the fields of the promise object and do not throw; before the first
    call these are [false], [undefined] and [undefined]. *)
Theorem inspection_returns_once_initialised eager w :
  reachable eager w -> eager = true \/ invoked w <> [] ->
  exists po, method w = Some po /\
    isPromisePending w = Normal (isPending po) /\
    getPromiseResult w = Normal (result po) /\
    getPromiseError w = Normal (error po) /\
    (invoked w = [] ->
       isPending po = false /\ result po = VUndefined /\ error po = VUndefined).
Proof.
  intros Hr Hinit. pose proof (reachable_inv eager w Hr) as Hi.
  assert (method w <> None) as Hm.
  { apply present_object. destruct Hinit as [->|Hiv]; [by left|right; eauto]. }
  destruct (method w) as [po|] eqn:Hpo; [|done].
  exists po. unfold isPromisePending, getPromiseResult, getPromiseError.
  rewrite (promise_object_of_inv w po Hi Hpo). repeat (split; [done|]).
  intros Hiv. destruct (inv_uncalled w po Hi Hpo Hiv) as (? & ? & ? & _). done.
Qed.

(** C6 on a method wrapped with [eagerInit], before its first call. *)
Lemma inspection_returns_once_initialised_witness :
  reachable true (dPromiseFunction true) /\
  exists po, method (dPromiseFunction true) = Some po /\
    isPromisePending (dPromiseFunction true) = Normal (isPending po) /\
    getPromiseResult (dPromiseFunction true) = Normal (result po) /\
    getPromiseError (dPromiseFunction true) = Normal (error po) /\
    (invoked (dPromiseFunction true) = [] ->
       isPending po = false /\ result po = VUndefined /\ error po = VUndefined).
Proof.
  assert (reachable true (dPromiseFunction true)) as Hr by (exists []; reflexivity).
  split; [exact Hr|].
  exact (inspection_returns_once_initialised true (dPromiseFunction true) Hr
           (or_introl eq_refl)).
Defined.




(** *** Which call a listener can fire for *)


(** *** Accessors *)

Section AccessorFacts.
Context {Value : Type} `{Reactivity Value}.

Lemma define_accessor_has (d : ClassAccessorDecoratorResult) name value this h :
  has_accessor name (define_accessor d name value this h).1
                    (define_accessor d name value this h).2.
Proof.
  unfold has_accessor, define_accessor. simpl.
  exists (fresh (dom h)), (init d value). by rewrite !lookup_insert_eq.
Qed.

(** Writing and reading go through the one cell in the accessor's
    storage, under either decorator. *)
Lemma accessor_set_get (d : ClassAccessorDecoratorTarget -> ClassAccessorDecoratorResult)
    name this h a r v :
  d = dRef \/ d = dShallowRef -> this !! name = Some a -> h !! a = Some r ->
  set (d (accessor name)) this v h = Some (<[a := set_value r v]> h) /\
  get (d (accessor name)) this (<[a := set_value r v]> h) = Some (get_value (set_value r v)) /\
  get (d (accessor name)) this h = Some (get_value r).
Proof.
  intros Hd Ha Hr.
  destruct Hd as [-> | ->]; cbn [set get dRef dShallowRef accessor target_get];
    rewrite Ha, Hr, lookup_insert_eq; done.
Qed.

End AccessorFacts.



(** *** The earlier revision *)

Lemma legacy_makePromise_same args t w :
  Legacy.makePromise args t w = makePromise args t w.
Proof. unfold Legacy.makePromise, makePromise. by destruct (promise _). Qed.

Lemma legacy_abort_error_is_plain po w k :
  isPending po = true -> reject po = Some k -> chains w !! k = Some Started ->
  chains (Legacy.abortPromise po w) !! k = Some (Settled0 (Rejected (new_Error "Aborted"))) /\
  fired (Legacy.abortPromise po w) = fired (abortPromise po w) /\
  instanceof_AbortError (new_Error "Aborted") = false /\
  message_of (new_Error "Aborted") = message_of AbortError.
Proof.
  intros Hp Hr Hk. unfold Legacy.abortPromise, abortPromise. rewrite Hp, Hr. simpl.
  rewrite lookup_settle0, Hk. by rewrite decide_True.
Qed.

(** *** The package's tests, replayed *)

(** "should return same promise for multiple calls with parameters" *)
Example test_same_promise_with_parameters :
  let w0 := dPromiseFunction true in
  let '(promise1, w1) := makePromise [VStr "test1"] ReturnsPromise w0 in
  let '(promise2, w2) := makePromise [VStr "test2"] ReturnsPromise w1 in
  let w3 := run w2 [OpSettles 0 (Fulfilled (VStr "test1")); Tick 0; Tick 0; Tick 0; Tick 0] in
  promise1 = promise2 /\ invoked w3 = [[VStr "test1"]] /\
  returned_promise promise1 w3 = Some (Fulfilled (VStr "test1")) /\
  returned_promise promise2 w3 = Some (Fulfilled (VStr "test1")).
Proof. done. Qed.

(** "should wrap async method with reactive state" *)
Example test_reactive_state :
  let w0 := dPromiseFunction true in
  let w1 := step w0 (Call [] ReturnsPromise) in
  let w2 := run w1 [OpSettles 0 (Fulfilled (VObject 1)); Tick 0; Tick 0; Tick 0; Tick 0] in
  (isPromisePending w0 = Normal false /\ getPromiseResult w0 = Normal VUndefined /\
   getPromiseError w0 = Normal VUndefined) /\
  (isPromisePending w1 = Normal true /\ getPromiseResult w1 = Normal VUndefined /\
   getPromiseError w1 = Normal VUndefined) /\
  (isPromisePending w2 = Normal false /\ getPromiseResult w2 = Normal (VObject 1) /\
   getPromiseError w2 = Normal VUndefined /\
   returned_promise 0 w2 = Some (Fulfilled (VObject 1))).
Proof. done. Qed.

(** "should handle promise errors" *)
Example test_promise_errors :
  let w := run (dPromiseFunction true)
               [Call [] ReturnsPromise; OpSettles 0 (Rejected (new_Error "Network error"));
                Tick 0; Tick 0; Tick 0; Tick 0] in
  returned_promise 0 w = Some (Rejected (new_Error "Network error")) /\
  isPromisePending w = Normal false /\
  getPromiseError w = Normal (new_Error "Network error") /\
  message_of (new_Error "Network error") = Some "Network error".
Proof. done. Qed.

(** "should support abort functionality" *)
Example test_abort :
  let w1 := run (dPromiseFunction true) [Call [] ReturnsPromise] in
  let w2 := run w1 [Abort; Tick 0; Tick 0; Tick 0; Tick 0] in
  isPromisePending w1 = Normal true /\
  returned_promise 0 w2 = Some (Rejected AbortError) /\
  instanceof_AbortError AbortError = true /\ message_of AbortError = Some "Aborted" /\
  isPromisePending w2 = Normal false.
Proof. done. Qed.

(** "should support abort listeners": the listener is registered before
    the call and runs when the call is aborted. *)
Example test_abort_listeners :
  let w := run (dPromiseFunction true) [OnAbort 0; Call [] ReturnsPromise; Abort] in
  fired w = [(Some 0, 0)] /\
  returned_promise 0 (run w [Tick 0; Tick 0; Tick 0; Tick 0]) = Some (Rejected AbortError).
Proof. done. Qed.

(** The operation's late outcome does not undo an abort. *)
Example late_outcome_after_abort :
  let w := run (dPromiseFunction false)
               [Call [] ReturnsPromise; Abort; OpSettles 0 (Fulfilled (VObject 1));
                Tick 0; Tick 0; Tick 0; Tick 0] in
  returned_promise 0 w = Some (Rejected AbortError) /\
  getPromiseError w = Normal AbortError /\ getPromiseResult w = Normal VUndefined.
Proof. done. Qed.

(** A call made after a failure starts afresh: the error is cleared. *)
Example fresh_call_clears_error :
  let w := run (dPromiseFunction false)
               [Call [] ReturnsPromise; OpSettles 0 (Rejected (new_Error "network"));
                Tick 0; Tick 0; Tick 0; Tick 0; Call [] ReturnsPromise] in
  in_flight w = Some 1 /\ isPromisePending w = Normal true /\
  getPromiseError w = Normal VUndefined /\ getPromiseResult w = Normal VUndefined.
Proof. done. Qed.

(** * More about the call wrapper *)

(** *** Settlements are final *)

(** X1 (first settlement wins).  Once the inner promise of a call has
    settled, by the operation's outcome, by an abort or by a throw of
    the operation, nothing that happens later changes how the call
    settles: a later outcome of the operation and a later [abort()]
    leave the chain as it is, and the returned promise can only settle
    with that first outcome. *)
Theorem settlement_is_final w k st o :
  chains w !! k = Some st -> outcome_of st = Some o ->
  chains (op_settles k (Fulfilled VNull) w) !! k = Some st /\
  (forall o', chains (op_settles k o' w) !! k = Some st) /\
  chains (state_after w (abort w)) !! k = Some st /\
  (forall es o', returned_promise k (run w es) = Some o' -> o' = o).
Proof.
  intros Hk Ho.
  assert (forall o' cs, cs !! k = Some st -> settle0 k o' cs !! k = Some st) as Hs.
  { intros o' cs Hcs. rewrite lookup_settle0, Hcs. by destruct st. }
  split; [by apply Hs|]. split; [intros o'; by apply Hs|]. split.
  - unfold abort. destruct (promise_object_of w) as [po|]; [|done]. simpl.
    unfold abortPromise. destruct (negb (isPending po)); [done|]. simpl.
    destruct (reject po) as [j|]; [|done].
    rewrite lookup_settle0, Hk. by destruct st.
  - intros es o'. by apply (outcome_run w es k st o).
Qed.

Lemma settlement_is_final_witness :
  let w := run (dPromiseFunction true)
               [Call [] ReturnsPromise; OpSettles 0 (Fulfilled (VNum 1))] in
  chains w !! 0 = Some (Settled0 (Fulfilled (VNum 1))) /\
  chains (state_after w (abort w)) !! 0 = Some (Settled0 (Fulfilled (VNum 1))) /\
  forall es o', returned_promise 0 (run w es) = Some o' -> o' = Fulfilled (VNum 1).
Proof.
  intros w.
  assert (chains w !! 0 = Some (Settled0 (Fulfilled (VNum 1)))) as Hk by reflexivity.
  split; [exact Hk|].
  destruct (settlement_is_final w 0 _ (Fulfilled (VNum 1)) Hk eq_refl) as (_ & _ & Hab & Hfin).
  split; [exact Hab|exact Hfin].
Defined.



(** *** Between two calls *)

(** X3 (awaiters see the final state).  By the time the returned
    promise of the latest call has settled, the [finally] callback has
    already run: [isPromisePending] is false and no promise is stored. *)
Theorem settled_promise_is_not_pending eager w k o :
  reachable eager w -> returned_promise k w = Some o -> S k = length (chains w) ->
  isPromisePending w = Normal false /\ in_flight w = None.
Proof.
  intros Hr Hret Hlen. pose proof (reachable_inv eager w Hr) as Hi.
  destruct (settled_latest_recorded w k o Hi Hret Hlen) as (po & Hm & _ & Hp & Hpo).
  unfold isPromisePending, in_flight. rewrite Hpo, Hm. split; [|done].
  unfold isPending. destruct (inv_obj w Hi po Hm) as (_ & _ & _ & ->). by rewrite Hp.
Qed.

Lemma settled_promise_is_not_pending_witness :
  let w := run (dPromiseFunction true)
               [Call [] ReturnsPromise; Abort; Tick 0; Tick 0; Tick 0; Tick 0] in
  reachable true w /\ returned_promise 0 w = Some (Rejected AbortError) /\
  isPromisePending w = Normal false /\ in_flight w = None.
Proof.
  intros w.
  assert (reachable true w) as Hr by (eexists; reflexivity).
  assert (returned_promise 0 w = Some (Rejected AbortError)) as Hret by reflexivity.
  split; [exact Hr|]. split; [exact Hret|].
  exact (settled_promise_is_not_pending true w 0 _ Hr Hret eq_refl).
Defined.

(** X4 (a new call starts afresh).  A call made while none is in flight
    invokes the operation again with its own arguments and clears result
    and error, whatever the previous call left there; the listeners
    registered since the last settlement stay registered for it, and the
    promises of earlier calls keep their settlement. *)
Theorem new_call_starts_afresh eager w args t :
  reachable eager w -> in_flight w = None ->
  let w' := snd (makePromise args t w) in
  getPromiseResult w' = Normal VUndefined /\ getPromiseError w' = Normal VUndefined /\
  isPromisePending w' = Normal true /\
  invoked w' = invoked w ++ [args] /\
  listeners_of w' = listeners_of w /\ fired w' = fired w /\
  (forall j o, returned_promise j w = Some o -> returned_promise j w' = Some o).
Proof.
  intros Hr Hidle w'. pose proof (reachable_inv eager w Hr) as Hi.
  assert (inv w') as Hi' by (by apply inv_makePromise).
  destruct (makePromise_idle args t w Hidle) as (_ & Hiv & Hfl & Hch). fold w' in Hiv, Hfl, Hch.
  destruct (in_flight_Some w' _ Hfl) as (po' & Hm' & Hp').
  assert (_result po' = VUndefined /\ _error po' = VUndefined /\
          listeners_of w' = listeners_of w /\ fired w' = fired w) as (Hres & Herr & Hls & Hf).
  { unfold w', makePromise, listeners_of, in_flight in *.
    destruct (method w) as [po|]; simpl in *.
    - rewrite Hidle in *. simpl in *. by simplify_eq.
    - by simplify_eq. }
  unfold getPromiseResult, getPromiseError, isPromisePending.
  rewrite (promise_object_of_inv w' po' Hi' Hm'). unfold result, error, isPending.
  rewrite Hres, Herr. destruct (inv_obj w' Hi' po' Hm') as (_ & _ & _ & ->). rewrite Hp'.
  repeat (split; [done|]).
  intros j o Hret. exact (returned_promise_run w [Call args t] j o Hret).
Qed.

Lemma new_call_starts_afresh_witness :
  let w := run (dPromiseFunction false)
               [Call [VNum 1] ReturnsPromise; OpSettles 0 (Rejected (new_Error "network"));
                Tick 0; Tick 0; Tick 0; Tick 0; OnAbort 5] in
  reachable false w /\ in_flight w = None /\
  getPromiseError w = Normal (new_Error "network") /\
  let w' := snd (makePromise [VNum 2] ReturnsPromise w) in
  getPromiseError w' = Normal VUndefined /\ invoked w' = [[VNum 1]; [VNum 2]] /\
  listeners_of w' = [5].
Proof.
  intros w.
  assert (reachable false w) as Hr by (eexists; reflexivity).
  assert (in_flight w = None) as Hidle by reflexivity.
  split; [exact Hr|]. split; [exact Hidle|]. split; [reflexivity|].
  destruct (new_call_starts_afresh false w [VNum 2] ReturnsPromise Hr Hidle)
    as (_ & Herr & _ & Hiv & Hls & _).
  split; [exact Herr|]. split; [exact Hiv|exact Hls].
Defined.

Lemma settle0_twice k o o' cs : settle0 k o' (settle0 k o cs) = settle0 k o cs.
Proof.
  unfold settle0 at 1. rewrite lookup_settle0.
  destruct (cs !! k) as [[]|]; try done. by rewrite decide_True.
Qed.

(** * The wrapper with the call stack *)

Lemma nested_run_app m es es' :
  Nested.run m (es ++ es') =
  match Nested.run m es with Some m' => Nested.run m' es' | None => None end.
Proof.
  revert m. induction es as [|e es IH]; intros m; [done|].
  simpl. destruct (Nested.step m e); [apply IH|done].
Qed.

Lemma nested_run_snoc m es e m' :
  Nested.run m (es ++ [e]) = Some m' <->
  exists m0, Nested.run m es = Some m0 /\ Nested.step m0 e = Some m'.
Proof.
  rewrite nested_run_app. destruct (Nested.run m es) as [m0|]; simpl.
  - destruct (Nested.step m0 e) as [m1|] eqn:Hs; split.
    + intros [= <-]. exists m0. by split.
    + intros (? & [= <-] & Hs'). congruence.
    + done.
    + intros (? & [= <-] & Hs'). congruence.
  - split; [done|]. by intros (? & ? & ?).
Qed.

Lemma nested_reachable_ind (P : Nested.running -> Prop) eager :
  P (Nested.dPromiseFunction eager) ->
  (forall m e m', Nested.reachable eager m -> P m -> Nested.step m e = Some m' -> P m') ->
  forall m, Nested.reachable eager m -> P m.
Proof.
  intros Hinit Hstep m [es Hes]. revert m Hes.
  induction es as [|e es IH] using rev_ind; intros m Hes.
  - simpl in Hes. by injection Hes as <-.
  - apply nested_run_snoc in Hes as (m0 & Hm0 & Hs).
    apply (Hstep m0 e m); [by exists es|by apply IH|done].
Qed.

Lemma apart_app m es es' :
  Nested.apart m (es ++ es') =
  Nested.apart m es && match Nested.run m es with Some m' => Nested.apart m' es' | None => true end.
Proof.
  revert m. induction es as [|e es IH]; intros m; [done|].
  simpl. destruct (Nested.step m e) as [m1|]; simpl.
  - rewrite IH. by rewrite andb_assoc.
  - by rewrite !andb_true_r.
Qed.

Lemma reachable_apart_reachable eager m :
  Nested.reachable_apart eager m -> Nested.reachable eager m.
Proof. intros (es & Hes & _). by exists es. Qed.

Lemma reachable_apart_run eager m es m' :
  Nested.reachable_apart eager m -> Nested.run m es = Some m' -> Nested.apart m es = true ->
  Nested.reachable_apart eager m'.
Proof.
  intros (es0 & Hes0 & Ha0) Hr Ha. exists (es0 ++ es). split.
  - by rewrite nested_run_app, Hes0.
  - by rewrite apart_app, Ha0, Hes0.
Qed.

Lemma reachable_apart_ind (P : Nested.running -> Prop) eager :
  P (Nested.dPromiseFunction eager) ->
  (forall m e m', Nested.reachable_apart eager m -> P m -> Nested.reenters m e = false ->
                  Nested.step m e = Some m' -> P m') ->
  forall m, Nested.reachable_apart eager m -> P m.
Proof.
  intros Hinit Hstep m (es & Hes & Ha). revert m Hes Ha.
  induction es as [|e es IH] using rev_ind; intros m Hes Ha.
  - simpl in Hes. by injection Hes as <-.
  - apply nested_run_snoc in Hes as (m0 & Hm0 & Hs).
    rewrite apart_app, Hm0 in Ha. apply andb_true_iff in Ha as [Ha0 Ha1].
    simpl in Ha1. apply andb_true_iff in Ha1 as [Hre _].
    apply negb_true_iff in Hre.
    apply (Hstep m0 e m); [|by apply IH|done|done]; exists es; by split.
Qed.

(** *** The general invariant *)

Ltac crush :=
  repeat split; intros; simplify_eq/=;
  rewrite ?length_app, ?length_settle0, ?length_insert; simpl;
  try done; try congruence; try lia; eauto.

Lemma ginv_init eager : Nested.ginv (Nested.dPromiseFunction eager).
Proof. split; destruct eager; crush. Qed.

Lemma ginv_makePromise args m : Nested.ginv m -> Nested.ginv (Nested.makePromise args m).
Proof.
  intros []. unfold Nested.makePromise.
  destruct (method (Nested.now m)) as [po|] eqn:Hm.
  - destruct (promise po) as [p|] eqn:Hpo.
    + split; crush.
    + split; crush.
      * destruct H as [[= <-]|Hin]; [lia|]. 
        specialize (g_frames _ Hin). lia.
  - destruct (g_lazy eq_refl) as [Hcs Hs]. simpl. rewrite Hcs in g_invoked.
    split; simpl; rewrite ?Hcs, ?Hs; crush.
    destruct H as [[= <-]|[]]. lia.
Qed.

Lemma ginv_forEach_from i len m :
  Nested.ginv m ->
  (exists po, method (Nested.now m) = Some po /\ _isPending po = true) ->
  Nested.ginv (Nested.forEach_from i len m).
Proof.
  intros [] (po & Hm & Hpend). unfold Nested.forEach_from. rewrite Hm.
  destruct (if Nat.ltb i len then _abortListeners po !! i else None) as [l|].
  - split; crush. destruct H as [[=]|Hin]. eauto.
  - assert (length (match reject po with
                    | Some k => settle0 k (Rejected AbortError) (chains (Nested.now m))
                    | None => chains (Nested.now m)
                    end) = length (chains (Nested.now m))) as Hlen.
    { destruct (reject po); [apply length_settle0|done]. }
    split; simpl; rewrite ?Hlen; crush.
Qed.

Lemma with_now_now m : Nested.with_now (Nested.now m) m = m.
Proof. by destruct m. Qed.

Lemma ginv_pop m f s :
  Nested.ginv m -> Nested.stack m = f :: s -> Nested.is_InTarget f = false ->
  Nested.ginv (Nested.pop m).
Proof.
  intros [] Hstack Hf.
  assert (Nested.executing (Nested.pop m) = Nested.executing m) as He.
  { unfold Nested.executing, Nested.pop. simpl. rewrite Hstack. simpl. by rewrite Hf. }
  assert (Nested.stack m <> []) as Hne by (by rewrite Hstack).
  split; unfold Nested.pop; simpl; rewrite ?Hstack; simpl; crush.
  all: try (match goal with
             | H : method _ = None |- _ =>
                 destruct (g_lazy H) as [? ?]; congruence
             end).
  - eapply g_stored; eauto.
    unfold Nested.executing. rewrite Hstack. simpl. by rewrite Hf.
  - apply g_frames. rewrite Hstack. by right.
Qed.

Lemma ginv_step m e m' : Nested.ginv m -> Nested.step m e = Some m' -> Nested.ginv m'.
Proof.
  intros Hg Hs. destruct e as [args| |l|x|k o|k]; simpl in Hs.
  - injection Hs as <-. by apply ginv_makePromise.
  - injection Hs as <-. unfold Nested.abort, promise_object_of.
    destruct (method (Nested.now m)) as [po|] eqn:Hm; [|done].
    destruct (_isDPromise po); [|done]. simpl. unfold Nested.abortPromise.
    destruct (isPending po) eqn:Hp; [|done]. simpl.
    apply ginv_forEach_from; [done|]. by exists po.
  - injection Hs as <-. unfold Nested.onAbort, onAbort, promise_object_of.
    destruct (method (Nested.now m)) as [po|] eqn:Hm; [|done].
    destruct (_isDPromise po) eqn:Hd; [|done]. simpl.
    destruct Hg. split; crush.
  - destruct (Nested.stack m) as [|[k|i len] s] eqn:Hstack; [done| |].
    + injection Hs as <-. destruct Hg.
      destruct (method (Nested.now m)) as [po|] eqn:Hm;
        [|destruct (g_lazy eq_refl); congruence].
      assert (k < length (chains (Nested.now m))) as Hk by (apply g_frames; rewrite Hstack; by left).
      assert (length (match x with
                      | Nested.Returns => chains (Nested.now m)
                      | Nested.Raises e =>
                          settle0 k (Rejected e) (chains (Nested.now m))
                      end) = length (chains (Nested.now m))) as Hlen.
      { destruct x; [done|apply length_settle0]. }
      assert (_isPending po = true) as Hp by (apply g_busy; [done|congruence]).
      unfold Nested.makePromise_returns, Nested.pop. simpl. rewrite Hm, Hstack. simpl.
      split; simpl; rewrite ?Hlen; crush.
      apply g_frames. rewrite Hstack. by right.
    + assert (exists po, method (Nested.now m) = Some po /\ _isPending po = true) as Hpend.
      { destruct Hg. destruct (method (Nested.now m)) as [po|] eqn:Hm;
          [|destruct (g_lazy eq_refl); congruence].
        exists po. split; [done|]. apply g_busy; [done|congruence]. }
      assert (Nested.ginv (Nested.pop m)) as Hpop by (by eapply ginv_pop).
      destruct x as [|e]; injection Hs as <-; [|done].
      by apply ginv_forEach_from.
  - destruct (Nested.stack m) eqn:Hstack; [|done]. injection Hs as <-.
    destruct Hg. split; simpl; rewrite ?length_settle0, ?Hstack; crush.
    by destruct (g_lazy H) as [-> _].
  - destruct (Nested.stack m) eqn:Hstack; [|done]. injection Hs as <-.
    assert (Nested.executing m = false) as Hne by (unfold Nested.executing; by rewrite Hstack).
    unfold tick.
    destruct (chains (Nested.now m) !! k) as [st|] eqn:Hk;
      [|by rewrite with_now_now].
    destruct Hg.
    destruct (method (Nested.now m)) as [po|] eqn:Hm.
    2:{ destruct (g_lazy eq_refl) as [Hcs _]. rewrite Hcs in Hk. done. }
    destruct st as [|o|o|o|o|o]; try (by rewrite with_now_now).
    all: split; simpl; rewrite ?Hstack, ?Hm, ?length_insert; simpl.
    all: intros; simplify_eq/=; try destruct o; simpl in *; eauto; try done.
Qed.

Lemma nested_reachable_ginv eager m : Nested.reachable eager m -> Nested.ginv m.
Proof.
  apply nested_reachable_ind; [apply ginv_init|].
  intros m0 e m' _ Hg Hs. by apply (ginv_step m0 e).
Qed.

(** *** The invariant of runs without a second call from the operation *)

Lemma existsb_filter (s : list Nested.frame) :
  existsb Nested.is_InTarget s = negb (Nat.eqb (length (filter Nested.is_InTarget s)) 0).
Proof.
  induction s as [|f s IH]; [done|].
  simpl. rewrite filter_cons. destruct f; simpl; [done|]. exact IH.
Qed.

Lemma stored_world_idle m : Nested.executing m = false -> Nested.stored_world m = Nested.now m.
Proof. unfold Nested.stored_world. by intros ->. Qed.

Lemma tidy_init eager : Nested.tidy (Nested.dPromiseFunction eager).
Proof.
  split; simpl; try done; try lia.
  unfold Nested.stored_world. simpl. apply inv_init.
Qed.

Lemma pending_of_inv w po :
  inv w -> method w = Some po -> _isPending po = pending_flag (promise po).
Proof. intros Hi Hm. by destruct (inv_obj w Hi po Hm) as (_ & _ & _ & ?). Qed.

Lemma tidy_makePromise args m :
  Nested.tidy m -> Nested.ginv m -> Nested.executing m = false ->
  Nested.tidy (Nested.makePromise args m).
Proof.
  intros [Hinv Hone Htop Hun] Hg Hne.
  rewrite stored_world_idle in Hinv by done.
  unfold Nested.makePromise.
  destruct (match method (Nested.now m) with
            | Some po => promise po
            | None => promise assignPromiseObject
            end) as [p|] eqn:Hp.
  - destruct (method (Nested.now m)) as [po|] eqn:Hm; [|done]. rewrite Hp.
    rewrite (with_method_id _ _ Hm).
    split; simpl; try done.
    + unfold Nested.stored_world, Nested.executing. simpl.
      unfold Nested.executing in Hne. by rewrite Hne.
  - assert (Nested.stack m = []) as Hstack.
    { destruct (Nested.stack m) as [|f s] eqn:Hs; [done|]. exfalso.
      destruct (method (Nested.now m)) as [po|] eqn:Hm.
      - assert (_isPending po = true) as Hpend by (apply (Nested.g_busy m Hg); [done|congruence]).
        rewrite (pending_of_inv _ _ Hinv Hm), Hp in Hpend. done.
      - destruct (Nested.g_lazy m Hg Hm). congruence. }
    pose proof (inv_makePromise args ReturnsPromise _ Hinv) as Hinv'.
    unfold makePromise in Hinv'.
    destruct (method (Nested.now m)) as [po|] eqn:Hm; rewrite Hp in *; simpl in Hinv'.
    all: split; simpl; rewrite ?Hstack; simpl; try done; try lia.
    all: try (intros k [[= <-]|[]]; rewrite length_app; simpl; lia).
    all: unfold Nested.stored_world; simpl; rewrite length_app; simpl.
    all: replace (pred (length (chains (Nested.now m)) + 1))
           with (length (chains (Nested.now m))) by lia.
    all: exact Hinv'.
Qed.

Lemma executing_with_now w m : Nested.executing (Nested.with_now w m) = Nested.executing m.
Proof. done. Qed.

Lemma tidy_forEach_from i len m :
  Nested.tidy m ->
  (exists po, method (Nested.now m) = Some po /\ _isPending po = true) ->
  Nested.tidy (Nested.forEach_from i len m).
Proof.
  intros [Hinv Hone Htop Hun] (po & Hm & Hpend). unfold Nested.forEach_from. rewrite Hm.
  destruct (if Nat.ltb i len then _abortListeners po !! i else None) as [l|].
  - split; simpl; try done.
    + apply (inv_fired (fired (Nested.now m) ++ [(reject po, l)])) in Hinv.
      unfold Nested.stored_world, Nested.executing in *. simpl.
      destruct (existsb Nested.is_InTarget (Nested.stack m)); simpl in *;
        rewrite Hm in Hinv; exact Hinv.
    + intros k [[=]|Hin]. by apply Htop.
    + intros He. specialize (Hun He). unfold in_flight in *. simpl in *.
      by rewrite ?Hm in *.
  - split; simpl; try done.
    + unfold Nested.stored_world in *. rewrite executing_with_now. simpl.
      destruct (Nested.executing m) eqn:He.
      * rewrite Hm in Hinv. simpl in Hinv.
        pose proof (inv_abortPromise _ _ Hinv eq_refl) as Ha.
        unfold abortPromise in Ha.
        match type of Ha with
        | context [negb (isPending ?p)] =>
            assert (negb (isPending p) = false) as Hnb
              by (unfold isPending; simpl; by rewrite Hpend)
        end.
        rewrite Hnb in Ha.
        apply (inv_fired (fired (Nested.now m))) in Ha. simpl in Ha.
        assert (length (match reject po with
                    | Some k => settle0 k (Rejected AbortError) (chains (Nested.now m))
                    | None => chains (Nested.now m)
                    end) = length (chains (Nested.now m))) as Hlen.
        { destruct (reject po); [apply length_settle0|done]. }
        rewrite Hlen. exact Ha.
      * pose proof (inv_abortPromise _ _ Hinv Hm) as Ha.
        unfold abortPromise in Ha.
        assert (negb (isPending po) = false) as Hnb
          by (unfold isPending; by rewrite Hpend).
        rewrite Hnb in Ha.
        apply (inv_fired (fired (Nested.now m))) in Ha. simpl in Ha. exact Ha.
    + intros k Hin. specialize (Htop k Hin).
      destruct (reject po); [by rewrite length_settle0|done].
    + intros He. specialize (Hun He). unfold in_flight in *. simpl in *.
      by rewrite ?Hm in *.
Qed.

Lemma tidy_pop m f s :
  Nested.tidy m -> Nested.stack m = f :: s -> Nested.is_InTarget f = false ->
  Nested.tidy (Nested.pop m).
Proof.
  intros [Hinv Hone Htop Hun] Hstack Hf.
  assert (Nested.executing (Nested.pop m) = Nested.executing m) as He.
  { unfold Nested.executing, Nested.pop. simpl. rewrite Hstack. simpl. by rewrite Hf. }
  split.
  - unfold Nested.stored_world in *. rewrite He. exact Hinv.
  - unfold Nested.pop. simpl. rewrite Hstack in *. simpl.
    rewrite filter_cons in Hone. destruct (decide (Nested.is_InTarget f)); simpl in Hone; lia.
  - unfold Nested.pop. simpl. intros k Hin. apply Htop. rewrite Hstack in *. by right.
  - rewrite He. exact Hun.
Qed.

Lemma tidy_step m e m' :
  Nested.tidy m -> Nested.ginv m -> Nested.reenters m e = false ->
  Nested.step m e = Some m' -> Nested.tidy m'.
Proof.
  intros Ht Hg Hre Hs. destruct e as [args| |l|x|k o|k]; simpl in Hs.
  - injection Hs as <-. apply tidy_makePromise; try done.
  - injection Hs as <-. unfold Nested.abort, promise_object_of.
    destruct (method (Nested.now m)) as [po|] eqn:Hm; [|done].
    destruct (_isDPromise po); [|done]. simpl. unfold Nested.abortPromise.
    destruct (isPending po) eqn:Hp; [|done]. simpl.
    apply tidy_forEach_from; [done|]. by exists po.
  - injection Hs as <-. unfold Nested.onAbort, onAbort, promise_object_of.
    destruct (method (Nested.now m)) as [po|] eqn:Hm; [|done].
    destruct (_isDPromise po) eqn:Hd; [|done]. simpl.
    destruct Ht as [Hinv Hone Htop Hun].
    split; simpl; try done.
    + unfold Nested.stored_world in *. rewrite executing_with_now. simpl.
      destruct (Nested.executing m) eqn:He.
      * rewrite Hm in Hinv. simpl in Hinv.
        apply (inv_onAbort_push (_abortListeners po ++ [l]) _ _ Hinv eq_refl).
      * apply (inv_onAbort_push (_abortListeners po ++ [l]) _ _ Hinv Hm).
    + intros He. specialize (Hun He). unfold in_flight in *. simpl in *.
      by rewrite ?Hm in *.
  - destruct (Nested.stack m) as [|[k|i len] s] eqn:Hstack; [done| |].
    + injection Hs as <-. destruct Ht as [Hinv Hone Htop Hun].
      assert (S k = length (chains (Nested.now m))) as Hk by (apply Htop; rewrite Hstack; by left).
      assert (existsb Nested.is_InTarget s = false) as Hs.
      { rewrite Hstack in Hone. rewrite filter_cons in Hone. simpl in Hone.
        rewrite existsb_filter.
        destruct (length (filter Nested.is_InTarget s)); [done|lia]. }
      assert (Nested.executing m = true) as He by (unfold Nested.executing; by rewrite Hstack).
      unfold Nested.stored_world in Hinv. rewrite He in Hinv.
      replace (pred (length (chains (Nested.now m)))) with k in Hinv by lia.
      assert (inv {| method := Nested.store k <$> method (Nested.now m);
                     chains := match x with
                               | Nested.Returns => chains (Nested.now m)
                               | Nested.Raises e => settle0 k (Rejected e) (chains (Nested.now m))
                               end;
                     invoked := invoked (Nested.now m); fired := fired (Nested.now m) |}) as Hinv'.
      { destruct x as [|e]; [done|]. apply (inv_settle0 k (Rejected e)) in Hinv. exact Hinv. }
      split; unfold Nested.makePromise_returns, Nested.pop; simpl; rewrite ?Hstack; simpl.
      * unfold Nested.stored_world, Nested.executing. simpl. rewrite ?Hstack. simpl.
        rewrite Hs. exact Hinv'.
      * rewrite Hstack, filter_cons in Hone. simpl in Hone. lia.
      * intros k' Hin. exfalso.
        assert (existsb Nested.is_InTarget s = true); [|congruence].
        apply existsb_exists. by exists (Nested.InTarget k').
      * unfold Nested.executing. simpl. rewrite ?Hstack. simpl. congruence.
    + assert (exists po, method (Nested.now m) = Some po /\ _isPending po = true) as Hpend.
      { destruct (method (Nested.now m)) as [po|] eqn:Hm;
          [|destruct (Nested.g_lazy m Hg Hm); congruence].
        exists po. split; [done|]. apply (Nested.g_busy m Hg); [done|congruence]. }
      assert (Nested.tidy (Nested.pop m)) as Hpop by (by eapply tidy_pop).
      destruct x as [|e]; injection Hs as <-; [|done].
      by apply tidy_forEach_from.
  - destruct (Nested.stack m) eqn:Hstack; [|done]. injection Hs as <-.
    destruct Ht as [Hinv Hone Htop Hun].
    assert (Nested.executing m = false) as Hne by (unfold Nested.executing; by rewrite Hstack).
    split; simpl; rewrite ?Hstack; try done; try (simpl; lia);
      try (rewrite executing_with_now, Hne; done).
    unfold Nested.stored_world in *. rewrite executing_with_now, Hne in *.
    apply (inv_step _ (OpSettles k o) Hinv).
  - destruct (Nested.stack m) eqn:Hstack; [|done]. injection Hs as <-.
    destruct Ht as [Hinv Hone Htop Hun].
    assert (Nested.executing m = false) as Hne by (unfold Nested.executing; by rewrite Hstack).
    split; simpl; rewrite ?Hstack; try done; try (simpl; lia);
      try (rewrite executing_with_now, Hne; done).
    unfold Nested.stored_world in *. rewrite executing_with_now, Hne in *.
    apply (inv_tick k _ Hinv).
Qed.

Lemma reachable_apart_tidy eager m : Nested.reachable_apart eager m -> Nested.tidy m.
Proof.
  apply reachable_apart_ind; [apply tidy_init|].
  intros m0 e m' Hr Ht Hre Hs. apply (tidy_step m0 e); try done.
  apply (nested_reachable_ginv eager). by apply reachable_apart_reachable.
Qed.

(** *** Jobs of the event loop, and how chains move *)

Lemma nested_ticks m k n :
  Nested.stack m = [] ->
  Nested.run m (replicate n (Nested.Tick k)) =
  Some (Nested.with_now (run (Nested.now m) (replicate n (Tick k))) m).
Proof.
  revert m. induction n as [|n IH]; intros m Hs; simpl.
  - by rewrite with_now_now.
  - rewrite Hs. rewrite IH by done. done.
Qed.

Lemma nested_advances_forEach_from i len m j st :
  chains (Nested.now m) !! j = Some st ->
  exists st', chains (Nested.now (Nested.forEach_from i len m)) !! j = Some st' /\
              advances st st'.
Proof.
  intros Hj. unfold Nested.forEach_from.
  destruct (method (Nested.now m)) as [po|]; [|unchanged].
  destruct (if Nat.ltb i len then _abortListeners po !! i else None); [unchanged|].
  simpl. destruct (reject po); [by apply advances_settle0|unchanged].
Qed.

Lemma nested_advances_step m e m' j st :
  Nested.step m e = Some m' -> chains (Nested.now m) !! j = Some st ->
  exists st', chains (Nested.now m') !! j = Some st' /\ advances st st'.
Proof.
  intros Hs Hj. destruct e as [args| |l|x|k o|k]; simpl in Hs.
  - injection Hs as <-. unfold Nested.makePromise.
    destruct (promise _); simpl; [unchanged|].
    rewrite lookup_app_l by (by eapply lookup_lt_Some). unchanged.
  - injection Hs as <-. unfold Nested.abort.
    destruct (promise_object_of (Nested.now m)) as [po|]; [|unchanged]. simpl.
    unfold Nested.abortPromise. destruct (negb (isPending po)); [unchanged|].
    by apply nested_advances_forEach_from.
  - injection Hs as <-. unfold Nested.onAbort, onAbort.
    destruct (promise_object_of (Nested.now m)) as [po|]; unchanged.
  - destruct (Nested.stack m) as [|[k|i len] s]; [done| |].
    + injection Hs as <-. unfold Nested.makePromise_returns. simpl.
      destruct x; [unchanged|by apply advances_settle0].
    + destruct x; injection Hs as <-; [|unchanged].
      by apply nested_advances_forEach_from.
  - destruct (Nested.stack m); [|done]. injection Hs as <-. simpl.
    by apply advances_settle0.
  - destruct (Nested.stack m); [|done]. injection Hs as <-. simpl.
    apply (advances_step _ (Tick k) _ _ Hj).
Qed.

Lemma nested_advances_run m es m' j st :
  Nested.run m es = Some m' -> chains (Nested.now m) !! j = Some st ->
  exists st', chains (Nested.now m') !! j = Some st' /\ advances st st'.
Proof.
  revert m st. induction es as [|e es IH]; intros m st Hr Hj; simpl in Hr.
  - injection Hr as <-. unchanged.
  - destruct (Nested.step m e) as [m1|] eqn:Hs; [|done].
    destruct (nested_advances_step _ _ _ _ _ Hs Hj) as (st1 & Hj1 & Ha1).
    destruct (IH _ _ Hr Hj1) as (st' & Hj' & Ha').
    exists st'. split; [done|]. by eapply advances_trans.
Qed.

Lemma nested_returned_promise_run m es m' k o :
  Nested.run m es = Some m' ->
  returned_promise k (Nested.now m) = Some o -> returned_promise k (Nested.now m') = Some o.
Proof.
  intros Hr. unfold returned_promise.
  destruct (chains (Nested.now m) !! k) as [st|] eqn:Hk; [|done].
  destruct (nested_advances_run _ _ _ _ _ Hr Hk) as (st' & -> & Ha).
  destruct st; try done. intros [= <-]. by rewrite (advances_Settled3 _ _ Ha).
Qed.

Lemma nested_outcome_run m es m' k st o :
  Nested.run m es = Some m' ->
  chains (Nested.now m) !! k = Some st -> outcome_of st = Some o ->
  forall o', returned_promise k (Nested.now m') = Some o' -> o' = o.
Proof.
  intros Hr Hk Ho o'. unfold returned_promise.
  destruct (nested_advances_run _ _ _ _ _ Hr Hk) as (st' & -> & _ & Ha).
  specialize (Ha o Ho). destruct st'; try done. simpl in Ha. congruence.
Qed.

(** *** One [forEach] with listeners that just return, or with one that throws *)

Lemma forEach_quiet po m i :
  method (Nested.now m) = Some po -> i <= length (_abortListeners po) ->
  Nested.run (Nested.forEach_from i (length (_abortListeners po)) m)
             (replicate (length (_abortListeners po) - i) (Nested.Exit Nested.Returns)) =
  Some (Nested.with_now
          {| method := Some (Nested.clear_listeners po);
             chains := match reject po with
                       | Some k => settle0 k (Rejected AbortError) (chains (Nested.now m))
                       | None => chains (Nested.now m)
                       end;
             invoked := invoked (Nested.now m);
             fired := fired (Nested.now m) ++
                      map (pair (reject po)) (drop i (_abortListeners po)) |} m).
Proof.
  remember (length (_abortListeners po) - i) as n eqn:Hn.
  revert m i Hn. induction n as [|n IH]; intros m i Hn Hm Hi.
  - assert (i = length (_abortListeners po)) as -> by lia.
    unfold Nested.forEach_from. rewrite Hm, Nat.ltb_irrefl. simpl.
    by rewrite drop_all, app_nil_r.
  - assert (i < length (_abortListeners po)) as Hlt by lia.
    destruct (lookup_lt_is_Some_2 _ _ Hlt) as [l Hl].
    unfold Nested.forEach_from at 1. rewrite Hm.
    apply Nat.ltb_lt in Hlt as Hltb. rewrite Hltb, Hl. simpl.
    match goal with
    | |- Nested.run (Nested.forEach_from _ _ ?m1) _ = _ =>
        rewrite (IH m1 (S i)); [|lia|done|lia]
    end.
    unfold Nested.with_now, Nested.pop. simpl. do 3 f_equal.
    rewrite <- app_assoc. simpl. by rewrite (drop_S _ _ _ Hl).
Qed.

Lemma forEach_throws po m i j e :
  method (Nested.now m) = Some po -> i + j < length (_abortListeners po) ->
  Nested.run (Nested.forEach_from i (length (_abortListeners po)) m)
             (replicate j (Nested.Exit Nested.Returns) ++ [Nested.Exit (Nested.Raises e)]) =
  Some (Nested.with_now
          {| method := Some po; chains := chains (Nested.now m);
             invoked := invoked (Nested.now m);
             fired := fired (Nested.now m) ++
                      map (pair (reject po)) (take (S j) (drop i (_abortListeners po))) |} m).
Proof.
  revert m i. induction j as [|j IH]; intros m i Hm Hi.
  - assert (i < length (_abortListeners po)) as Hlt by lia.
    destruct (lookup_lt_is_Some_2 _ _ Hlt) as [l Hl].
    unfold Nested.forEach_from. rewrite Hm.
    apply Nat.ltb_lt in Hlt as Hltb. rewrite Hltb, Hl. simpl.
    unfold Nested.with_now, Nested.pop. simpl. do 3 f_equal.
    by rewrite (drop_S _ _ _ Hl).
  - assert (i < length (_abortListeners po)) as Hlt by lia.
    destruct (lookup_lt_is_Some_2 _ _ Hlt) as [l Hl].
    unfold Nested.forEach_from at 1. rewrite Hm.
    apply Nat.ltb_lt in Hlt as Hltb. rewrite Hltb, Hl. simpl.
    match goal with
    | |- Nested.run (Nested.forEach_from _ _ ?m1) _ = _ =>
        rewrite (IH m1 (S i)); [|done|lia]
    end.
    unfold Nested.with_now, Nested.pop. simpl. do 3 f_equal.
    rewrite <- app_assoc. simpl. by rewrite (drop_S _ _ _ Hl).
Qed.

(** * The claims about the call wrapper, with the call stack *)

Lemma nested_promise_object_of m po :
  Nested.ginv m -> method (Nested.now m) = Some po ->
  promise_object_of (Nested.now m) = Normal po.
Proof.
  intros Hg Hm. unfold promise_object_of. rewrite Hm.
  by rewrite (Nested.g_wrapped m Hg po Hm).
Qed.

Lemma nested_isPromisePending m po :
  Nested.ginv m -> method (Nested.now m) = Some po ->
  Nested.isPromisePending m = Normal (_isPending po).
Proof.
  intros Hg Hm. unfold Nested.isPromisePending, isPromisePending.
  by rewrite (nested_promise_object_of m po Hg Hm).
Qed.

Lemma nested_pending_method m b :
  Nested.isPromisePending m = Normal b ->
  exists po, method (Nested.now m) = Some po /\ _isPending po = b /\
             promise_object_of (Nested.now m) = Normal po.
Proof.
  unfold Nested.isPromisePending, isPromisePending, promise_object_of.
  destruct (method (Nested.now m)) as [po|]; [|done].
  destruct (_isDPromise po); [|done]. intros [= <-]. by exists po.
Qed.




(** *** Memoization *)

Lemma nested_forEach_from_log i len m :
  length (chains (Nested.now (Nested.forEach_from i len m))) = length (chains (Nested.now m)) /\
  invoked (Nested.now (Nested.forEach_from i len m)) = invoked (Nested.now m) /\
  Nested.returned (Nested.forEach_from i len m) = Nested.returned m.
Proof.
  unfold Nested.forEach_from. destruct (method (Nested.now m)) as [po|]; [|done].
  destruct (if Nat.ltb i len then _abortListeners po !! i else None); [done|].
  simpl. destruct (reject po); by rewrite ?length_settle0.
Qed.

(** What a step does to the logs: it starts a new chain, or it hands
    out the stored promise or the promise of the operation that has just
    returned, or it leaves the logs alone. *)
Lemma nested_step_log m e m' :
  Nested.step m e = Some m' ->
  (length (chains (Nested.now m')) = length (chains (Nested.now m)) /\
   invoked (Nested.now m') = invoked (Nested.now m) /\
   (Nested.returned m' = Nested.returned m \/
    exists p, Nested.returned m' = Nested.returned m ++ [p] /\
      (in_flight (Nested.now m) = Some p \/ exists s, Nested.stack m = Nested.InTarget p :: s)))
  \/
  (exists args, e = Nested.Call args /\ in_flight (Nested.now m) = None /\
     invoked (Nested.now m') = invoked (Nested.now m) ++ [args] /\
     length (chains (Nested.now m')) = S (length (chains (Nested.now m))) /\
     Nested.returned m' = Nested.returned m).
Proof.
  intros Hs. destruct e as [args| |l|x|k o|k]; simpl in Hs.
  - injection Hs as <-. unfold Nested.makePromise, in_flight.
    destruct (method (Nested.now m)) as [po|] eqn:Hm.
    + destruct (promise po) as [p|] eqn:Hp.
      * left. simpl. repeat split; try done. right. exists p. split; [done|]. by left.
      * right. exists args. simpl. rewrite length_app. simpl. repeat split; try done. lia.
    + right. exists args. simpl. rewrite length_app. simpl. repeat split; try done. lia.
  - injection Hs as <-. left. unfold Nested.abort.
    destruct (promise_object_of (Nested.now m)) as [po|]; [|by repeat split; try left].
    simpl. unfold Nested.abortPromise. destruct (negb (isPending po)); [by repeat split; try left|].
    destruct (nested_forEach_from_log 0 (length (_abortListeners po)) m) as (? & ? & ?).
    repeat split; try done. by left.
  - injection Hs as <-. left. unfold Nested.onAbort, onAbort.
    destruct (promise_object_of (Nested.now m)) as [po|]; by repeat split; try left.
  - destruct (Nested.stack m) as [|[k|i len] s] eqn:Hstack; [done| |].
    + injection Hs as <-. left. unfold Nested.makePromise_returns. simpl.
      split; [destruct x; by rewrite ?length_settle0|]. split; [done|].
      right. exists k. split; [done|]. right. by exists s.
    + left. destruct x; injection Hs as <-; [|by repeat split; try left].
      destruct (nested_forEach_from_log (S i) len (Nested.pop m)) as (? & ? & ?).
      repeat split; try done. by left.
  - destruct (Nested.stack m); [|done]. injection Hs as <-. left. simpl.
    rewrite length_settle0. by repeat split; try left.
  - destruct (Nested.stack m); [|done]. injection Hs as <-. left. simpl.
    unfold tick. destruct (chains (Nested.now m) !! k) as [[]|]; simpl;
      rewrite ?length_insert; by repeat split; try left.
Qed.

Lemma tidy_chains m : chains (Nested.stored_world m) = chains (Nested.now m).
Proof. unfold Nested.stored_world. by destruct (Nested.executing m). Qed.

(** In a run without a second call from the operation only the latest
    chain can be before its [finally] callback. *)
Lemma tidy_live_latest m j st :
  Nested.tidy m -> chains (Nested.now m) !! j = Some st -> live st = true ->
  S j = length (chains (Nested.now m)).
Proof.
  intros Ht Hj Hl. pose proof (Nested.tidy_inv m Ht) as Hi.
  destruct (decide (S j < length (chains (Nested.now m)))) as [Hlt|Hge].
  - rewrite <- tidy_chains in Hj, Hlt. pose proof (inv_old _ Hi j st Hj Hlt). congruence.
  - apply lookup_lt_Some in Hj. lia.
Qed.

(** ... and, with no operation running, it is the one stored. *)
Lemma tidy_live_stored m j st :
  Nested.tidy m -> Nested.executing m = false ->
  chains (Nested.now m) !! j = Some st -> live st = true ->
  in_flight (Nested.now m) = Some j.
Proof.
  intros Ht He Hj Hl. pose proof (Nested.tidy_inv m Ht) as Hi.
  rewrite stored_world_idle in Hi by done.
  destruct (inv_live_latest _ j st Hi Hj Hl) as (_ & po & Hm & _ & Hp).
  unfold in_flight. by rewrite Hm.
Qed.

Lemma memo_run eager m1 es m2 k st :
  Nested.reachable_apart eager m1 -> S k = length (chains (Nested.now m1)) ->
  Nested.run m1 es = Some m2 -> Nested.apart m1 es = true ->
  chains (Nested.now m2) !! k = Some st -> live st = true ->
  length (chains (Nested.now m2)) = S k /\
  invoked (Nested.now m2) = invoked (Nested.now m1) /\
  exists n, Nested.returned m2 = Nested.returned m1 ++ replicate n k.
Proof.
  intros Hr1 Hk. revert m2 st.
  induction es as [|e es IH] using rev_ind; intros m2 st Hrun Hap Hst Hl.
  - simpl in Hrun. injection Hrun as <-. repeat split; try done.
    exists 0. by rewrite app_nil_r.
  - apply nested_run_snoc in Hrun as (m0 & Hrun0 & Hs).
    rewrite apart_app, Hrun0 in Hap. apply andb_true_iff in Hap as [Hap0 Hap1].
    simpl in Hap1. rewrite Hs in Hap1. apply andb_true_iff in Hap1 as [Hre _].
    apply negb_true_iff in Hre.
    assert (exists st0, chains (Nested.now m0) !! k = Some st0) as [st0 Hst0].
    { apply lookup_lt_is_Some_2.
      assert (k < length (chains (Nested.now m1))) as Hlt by lia.
      destruct (lookup_lt_is_Some_2 _ _ Hlt) as [st1 Hst1].
      destruct (nested_advances_run _ _ _ _ _ Hrun0 Hst1) as (? & Hx & _).
      by apply lookup_lt_Some in Hx. }
    assert (live st0 = true) as Hl0.
    { destruct (nested_advances_step _ _ _ _ _ Hs Hst0) as (st' & Hst' & Ha).
      assert (st' = st) as -> by congruence. by eapply advances_live. }
    destruct (IH m0 st0 Hrun0 Hap0 Hst0 Hl0) as (Hlen0 & Hinv0 & n & Hret0).
    pose proof (reachable_apart_run _ _ _ _ Hr1 Hrun0 Hap0) as Hr0.
    pose proof (reachable_apart_tidy _ _ Hr0) as Ht0.
    assert (Nested.reachable_apart eager m2) as Hr2.
    { apply (reachable_apart_run _ m0 [e]); [done|by simpl; rewrite Hs|].
      simpl. by rewrite Hre, Hs. }
    pose proof (reachable_apart_tidy _ _ Hr2) as Ht2.
    destruct (nested_step_log _ _ _ Hs) as [(Hlen & Hinv & Hret)|(args & -> & _ & _ & Hlen & _)].
    + split; [congruence|]. split; [congruence|].
      destruct Hret as [Hret|(p & Hret & Hp)].
      * exists n. congruence.
      * exists (S n). rewrite Hret, Hret0, replicate_S_end, app_assoc.
        do 2 f_equal.
        destruct Hp as [Hp|[s Hs']].
        -- assert (Nested.executing m0 = false) as He.
           { destruct (Nested.executing m0) eqn:He; [|done].
             rewrite (Nested.tidy_unstored m0 Ht0 He) in Hp. done. }
           rewrite (tidy_live_stored m0 k st0 Ht0 He Hst0 Hl0) in Hp. congruence.
        -- assert (S p = length (chains (Nested.now m0))) as Hp'.
           { apply (Nested.tidy_top m0 Ht0). rewrite Hs'. by left. }
           lia.
    + pose proof (tidy_live_latest m2 k st Ht2 Hst Hl). lia.
Qed.

Lemma tidy_idle_stack m :
  Nested.tidy m -> Nested.ginv m -> Nested.executing m = false ->
  in_flight (Nested.now m) = None -> Nested.stack m = [].
Proof.
  intros Ht Hg He Hfl. pose proof (Nested.tidy_inv m Ht) as Hi.
  rewrite stored_world_idle in Hi by done.
  destruct (Nested.stack m) as [|f s] eqn:Hs; [done|]. exfalso.
  destruct (method (Nested.now m)) as [po|] eqn:Hm.
  - assert (_isPending po = true) as Hpend by (apply (Nested.g_busy m Hg); [done|congruence]).
    unfold in_flight in Hfl. rewrite Hm in Hfl.
    rewrite (pending_of_inv _ _ Hi Hm), Hfl in Hpend. done.
  - destruct (Nested.g_lazy m Hg Hm). congruence.
Qed.




(** *** Abort *)

(** Four reaction jobs take a chain whose P0 has settled past its
    [finally] callback, wherever it stands. *)
Lemma four_ticks w k st o po :
  chains w !! k = Some st -> live st = true -> outcome_of st = Some o ->
  method w = Some po ->
  let w' := run w (replicate 4 (Tick k)) in
  returned_promise k w' = Some o /\
  length (chains w') = length (chains w) /\
  exists po', method w' = Some po' /\ _isPending po' = false /\ promise po' = None /\
              _isDPromise po' = _isDPromise po.
Proof.
  intros Hk Hl Ho Hm. simpl.
  destruct st as [|o'|o'|o'|o'|o']; try done; simpl in Ho; injection Ho as ->.
  - destruct (tick_reaction w k _ _ _ Hk eq_refl) as (Hk1 & Hm1 & _ & _ & Hl1).
    destruct (tick_reaction _ k _ _ _ Hk1 eq_refl) as (Hk2 & Hm2 & _ & _ & Hl2).
    destruct (tick_reaction _ k _ _ _ Hk2 eq_refl) as (Hk3 & Hm3 & _ & _ & Hl3).
    destruct (tick_reaction _ k _ _ _ Hk3 eq_refl) as (Hk4 & Hm4 & _ & _ & Hl4).
    unfold returned_promise. rewrite Hk4. split; [done|]. split; [congruence|].
    rewrite Hm4, Hm3, Hm2, Hm1, Hm. simpl. eexists. split; [done|].
    by destruct o.
  - destruct (tick_reaction w k _ _ _ Hk eq_refl) as (Hk1 & Hm1 & _ & _ & Hl1).
    destruct (tick_reaction _ k _ _ _ Hk1 eq_refl) as (Hk2 & Hm2 & _ & _ & Hl2).
    destruct (tick_reaction _ k _ _ _ Hk2 eq_refl) as (Hk3 & Hm3 & _ & _ & Hl3).
    assert (tick k (tick k (tick k (tick k w))) = tick k (tick k (tick k w))) as ->.
    { unfold tick at 1. by rewrite Hk3. }
    unfold returned_promise. rewrite Hk3. split; [done|]. split; [congruence|].
    rewrite Hm3, Hm2, Hm1, Hm. simpl. eexists. split; [done|].
    by destruct o.
  - destruct (tick_reaction w k _ _ _ Hk eq_refl) as (Hk1 & Hm1 & _ & _ & Hl1).
    destruct (tick_reaction _ k _ _ _ Hk1 eq_refl) as (Hk2 & Hm2 & _ & _ & Hl2).
    assert (tick k (tick k (tick k w)) = tick k (tick k w)) as Hid.
    { unfold tick at 1. by rewrite Hk2. }
    rewrite !Hid.
    unfold returned_promise. rewrite Hk2. split; [done|]. split; [congruence|].
    rewrite Hm2, Hm1, Hm. simpl. eexists. by split.
Qed.

Lemma settle0_settled k o (cs : list stage) :
  cs !! k <> Some Started -> settle0 k o cs = cs.
Proof. unfold settle0. destruct (cs !! k) as [[]|]; done. Qed.

Lemma nested_abort_pending m po :
  method (Nested.now m) = Some po -> _isDPromise po = true -> _isPending po = true ->
  Nested.step m Nested.Abort =
  Some (Nested.forEach_from 0 (length (_abortListeners po)) m).
Proof.
  intros Hm Hd Hp. simpl. unfold Nested.abort, promise_object_of. rewrite Hm, Hd. simpl.
  unfold Nested.abortPromise, isPending. by rewrite Hp.
Qed.

(** What holds of the promise object while [isPending] is true, in a run
    without a second call from the operation. *)
Lemma tidy_pending m :
  Nested.tidy m -> Nested.ginv m -> Nested.isPromisePending m = Normal true ->
  exists po k st,
    method (Nested.now m) = Some po /\ _isDPromise po = true /\ _isPending po = true /\
    reject po = Some k /\ S k = length (chains (Nested.now m)) /\
    chains (Nested.now m) !! k = Some st /\ live st = true /\
    (Nested.executing m = false -> in_flight (Nested.now m) = Some k).
Proof.
  intros Ht Hg Hp. destruct (nested_pending_method m true Hp) as (po & Hm & Hpe & _).
  pose proof (Nested.g_pending m Hg po Hm) as Hpf. rewrite Hpe in Hpf.
  destruct (reject po) as [k|] eqn:Hrej; [|done].
  pose proof (Nested.g_reject m Hg po k Hm Hrej) as Hk.
  assert (k < length (chains (Nested.now m))) as Hlt by lia.
  destruct (lookup_lt_is_Some_2 _ _ Hlt) as [st Hst].
  assert (live st = true) as Hl.
  { pose proof (Nested.tidy_inv m Ht) as Hi.
    unfold Nested.stored_world in Hi. destruct (Nested.executing m) eqn:He.
    - pose proof (inv_latest _ Hi) as Hla. simpl in Hla. rewrite Hm in Hla. simpl in Hla.
      specialize (Hla _ eq_refl). replace (pred (length (chains (Nested.now m)))) with k in Hla by lia.
      rewrite Hst in Hla. destruct Hla as [_ Hla]. simpl in Hla.
      by destruct (live st).
    - pose proof (inv_latest _ Hi po Hm) as Hla.
      replace (pred (length (chains (Nested.now m)))) with k in Hla by lia.
      rewrite Hst in Hla. destruct Hla as [_ Hla].
      rewrite (pending_of_inv _ _ Hi Hm) in Hpe.
      destruct (live st); [done|]. by rewrite Hla in Hpe. }
  exists po, k, st. repeat (split; [done || by apply (Nested.g_wrapped m Hg)|]).
  intros He. by apply (tidy_live_stored m k st).
Qed.

(** The run of [abort()] with listeners that just return. *)
Lemma quiet_abort m po k :
  method (Nested.now m) = Some po -> _isDPromise po = true -> _isPending po = true ->
  reject po = Some k ->
  Nested.run m (Nested.Abort ::
                replicate (length (_abortListeners po)) (Nested.Exit Nested.Returns)) =
  Some (Nested.with_now
          {| method := Some (Nested.clear_listeners po);
             chains := settle0 k (Rejected AbortError) (chains (Nested.now m));
             invoked := invoked (Nested.now m);
             fired := fired (Nested.now m) ++ map (pair (Some k)) (_abortListeners po) |} m).
Proof.
  intros Hm Hd Hp Hrej.
  change (Nested.run m (?e :: ?es)) with
    (match Nested.step m e with Some m' => Nested.run m' es | None => None end).
  rewrite (nested_abort_pending m po Hm Hd Hp).
  pose proof (forEach_quiet po m 0 Hm ltac:(lia)) as Hq.
  rewrite Nat.sub_0_r, drop_0, Hrej in Hq. exact Hq.
Qed.

(** The run of [abort()] whose listener at index [j] throws. *)
Lemma throwing_abort m po k j e :
  method (Nested.now m) = Some po -> _isDPromise po = true -> _isPending po = true ->
  reject po = Some k -> j < length (_abortListeners po) ->
  Nested.run m (Nested.Abort :: replicate j (Nested.Exit Nested.Returns) ++
                [Nested.Exit (Nested.Raises e)]) =
  Some (Nested.with_now
          {| method := Some po; chains := chains (Nested.now m);
             invoked := invoked (Nested.now m);
             fired := fired (Nested.now m) ++
                      map (pair (Some k)) (take (S j) (_abortListeners po)) |} m).
Proof.
  intros Hm Hd Hp Hrej Hj.
  change (Nested.run m (?e :: ?es)) with
    (match Nested.step m e with Some m' => Nested.run m' es | None => None end).
  rewrite (nested_abort_pending m po Hm Hd Hp).
  pose proof (forEach_throws po m 0 j e Hm ltac:(lia)) as Hq.
  rewrite drop_0, Hrej in Hq. exact Hq.
Qed.




(** *** An abort in the error field *)

Lemma apart_no_calls m es :
  forallb (fun e => negb (Nested.is_Call e)) es = true -> Nested.apart m es = true.
Proof.
  revert m. induction es as [|e es IH]; intros m Hes; [done|].
  simpl in *. apply andb_true_iff in Hes as [He Hes].
  unfold Nested.reenters. apply negb_true_iff in He. rewrite He. simpl.
  destruct (Nested.step m e); [by apply IH|done].
Qed.

Lemma quiet_abort_no_calls n :
  forallb (fun e => negb (Nested.is_Call e))
          (Nested.Abort :: replicate n (Nested.Exit Nested.Returns)) = true.
Proof. simpl. induction n as [|n IH]; [done|exact IH]. Qed.

(** In a run without a second call from the operation, the latest call,
    once its returned promise has settled, is recorded in the fields. *)
Lemma tidy_settled_recorded m k o :
  Nested.tidy m -> returned_promise k (Nested.now m) = Some o ->
  S k = length (chains (Nested.now m)) ->
  match o with
  | Fulfilled v =>
      Nested.getPromiseResult m = Normal v /\ Nested.getPromiseError m = Normal VUndefined
  | Rejected e =>
      Nested.getPromiseResult m = Normal VUndefined /\ Nested.getPromiseError m = Normal e
  end.
Proof.
  intros Ht Hret Hk. pose proof (Nested.tidy_inv m Ht) as Hi.
  destruct (Nested.executing m) eqn:He.
  - exfalso. unfold Nested.stored_world in Hi. rewrite He in Hi.
    unfold returned_promise in Hret.
    destruct (chains (Nested.now m) !! k) as [st|] eqn:Hst; [|done].
    destruct st; try done.
    destruct (method (Nested.now m)) as [po|] eqn:Hm.
    + pose proof (inv_latest _ Hi) as Hla. simpl in Hla. specialize (Hla _ eq_refl).
      replace (pred (length (chains (Nested.now m)))) with k in Hla by lia.
      rewrite Hst in Hla. by destruct Hla as [_ Hla].
    + pose proof (inv_lazy _ Hi) as Hlz. simpl in Hlz. rewrite Hlz in Hst; done.
  - rewrite stored_world_idle in Hi by done.
    destruct (settled_latest_recorded _ k o Hi Hret Hk) as (po & Hm & Hrec & _ & Hpo).
    apply (recorded_reads _ po o Hpo Hrec).
Qed.




(** *** The listener list *)

Lemma forEach_ends_step m e m' :
  Nested.forEach_ends m e = true -> Nested.step m e = Some m' ->
  exists po, method (Nested.now m) = Some po /\
    (Nested.stack m <> [] \/ _isPending po = true) /\
    Nested.now m' =
      {| method := Some (Nested.clear_listeners po);
         chains := match reject po with
                   | Some k => settle0 k (Rejected AbortError) (chains (Nested.now m))
                   | None => chains (Nested.now m)
                   end;
         invoked := invoked (Nested.now m); fired := fired (Nested.now m) |} /\
    Nested.returned m' = Nested.returned m /\
    Nested.stack m' = match e with Nested.Abort => Nested.stack m | _ => tail (Nested.stack m) end.
Proof.
  unfold Nested.forEach_ends. destruct (method (Nested.now m)) as [po|] eqn:Hm; [|done].
  destruct e as [args| |l|[|x]|k o|k]; try done.
  - intros He Hs. apply andb_true_iff in He as [He Hlen].
    apply andb_true_iff in He as [Hd Hp]. apply Nat.eqb_eq in Hlen.
    rewrite (nested_abort_pending m po Hm Hd Hp) in Hs. injection Hs as <-.
    exists po. split; [done|]. split; [by right|].
    unfold Nested.forEach_from. rewrite Hm, Hlen. simpl. done.
  - destruct (Nested.stack m) as [|[k|i len] s] eqn:Hstack; try done.
    intros He Hs. simpl in Hs. rewrite Hstack in Hs. injection Hs as <-.
    exists po. split; [done|]. split; [by left|].
    unfold Nested.forEach_from, Nested.pop. simpl. rewrite Hm, Hstack.
    apply negb_true_iff in He.
    destruct (Nat.ltb (S i) len) eqn:Hlt; simpl in *; [|done].
    apply Nat.ltb_ge in He. by rewrite lookup_ge_None_2.
Qed.

Lemma nested_finally_clears m k o :
  Nested.stack m = [] -> chains (Nested.now m) !! k = Some (Settled2 o) ->
  exists m', Nested.step m (Nested.Tick k) = Some m' /\
    listeners_of (Nested.now m') = [] /\ in_flight (Nested.now m') = None.
Proof.
  intros Hs Hk. simpl. rewrite Hs. eexists. split; [done|]. simpl.
  by apply (finally_clears _ k o).
Qed.

(** With nothing on the stack and [isPending] false, a step that is not
    a call is a step of the atomic transition system. *)
Lemma idle_nested_step m e m' :
  Nested.ginv m -> Nested.stack m = [] -> in_flight (Nested.now m) = None ->
  Nested.is_Call e = false -> Nested.step m e = Some m' ->
  exists e0, plain_event e = Some e0 /\ is_Call e0 = false /\
    Nested.now m' = step (Nested.now m) e0 /\ Nested.stack m' = [] /\
    registrations [e0] = Nested.registrations [e].
Proof.
  intros Hg Hs Hfl Hc Hstep. destruct e as [args| |l|x|k o|k]; simpl in Hstep; try done.
  - injection Hstep as <-. exists Abort. repeat split; try done; simpl.
    unfold Nested.abort, abort. destruct (promise_object_of (Nested.now m)) as [po|] eqn:Hpo.
    + simpl. apply promise_object_of_method in Hpo as Hm.
      assert (_isPending po = false) as Hp.
      { destruct (_isPending po) eqn:Hp; [|done].
        assert (Nested.executing m = false) as He by (unfold Nested.executing; by rewrite Hs).
        pose proof (Nested.g_stored m Hg po Hm He Hp) as Hst.
        unfold in_flight in Hfl. by rewrite Hm in Hfl. }
      unfold Nested.abortPromise, abortPromise, isPending. rewrite Hp. done.
    + done.
    + unfold Nested.abort. destruct (promise_object_of (Nested.now m)) as [po|] eqn:Hpo; [|done].
      simpl. apply promise_object_of_method in Hpo as Hm.
      assert (_isPending po = false) as Hp.
      { destruct (_isPending po) eqn:Hp; [|done].
        assert (Nested.executing m = false) as He by (unfold Nested.executing; by rewrite Hs).
        pose proof (Nested.g_stored m Hg po Hm He Hp) as Hst.
        unfold in_flight in Hfl. by rewrite Hm in Hfl. }
      unfold Nested.abortPromise, isPending. by rewrite Hp.
  - injection Hstep as <-. exists (OnAbort l). repeat split; try done; simpl;
      unfold Nested.onAbort; by destruct (onAbort l (Nested.now m)).
  - by rewrite Hs in Hstep.
  - rewrite Hs in Hstep. injection Hstep as <-. by exists (OpSettles k o).
  - rewrite Hs in Hstep. injection Hstep as <-. by exists (Tick k).
Qed.

Lemma idle_nested_run m es m' :
  Nested.tidy m -> Nested.ginv m -> Nested.executing m = false ->
  in_flight (Nested.now m) = None -> method (Nested.now m) <> None ->
  forallb (fun e => negb (Nested.is_Call e)) es = true ->
  Nested.run m es = Some m' ->
  in_flight (Nested.now m') = None /\
  listeners_of (Nested.now m') = listeners_of (Nested.now m) ++ Nested.registrations es.
Proof.
  revert m. induction es as [|e es IH]; intros m Ht Hg He Hfl Hm Hes Hrun.
  - simpl in Hrun. injection Hrun as <-. by rewrite app_nil_r.
  - simpl in Hes, Hrun. apply andb_true_iff in Hes as [Hc Hes]. apply negb_true_iff in Hc.
    destruct (Nested.step m e) as [m1|] eqn:Hs; [|done].
    pose proof (tidy_idle_stack m Ht Hg He Hfl) as Hstack.
    destruct (idle_nested_step m e m1 Hg Hstack Hfl Hc Hs)
      as (e0 & _ & Hc0 & Hnow & Hstack1 & Hreg).
    pose proof (Nested.tidy_inv m Ht) as Hi. rewrite stored_world_idle in Hi by done.
    destruct (idle_step (Nested.now m) e0 Hi Hfl Hm Hc0) as (Hfl1 & Hm1 & Hls1).
    rewrite <- Hnow in Hfl1, Hm1, Hls1.
    assert (Nested.executing m1 = false) as He1 by (unfold Nested.executing; by rewrite Hstack1).
    assert (Nested.tidy m1) as Ht1.
    { apply (tidy_step m e); try done. unfold Nested.reenters. by rewrite Hc. }
    destruct (IH m1 Ht1 (ginv_step _ _ _ Hg Hs) He1 Hfl1 Hm1 Hes Hrun) as (Hfl' & Hls').
    split; [done|]. rewrite Hls', Hls1, Hreg. unfold Nested.registrations. simpl.
    by rewrite app_nil_r, <- app_assoc.
Qed.

(** C5, as amended (listener list).  The [finally] callback of every
    settlement empties the list and clears the stored promise at once.
    An [abort()] made while [isPending] is true empties the list when
    its [forEach] has run out of listeners; when a listener throws, the
    list stays as it is.  And, unless an operation calls the wrapped
    method again before it has returned: while no call is in flight
    nothing but [onAbort] changes the list, so that after any steps
    other than calls it is what it was, followed by the listeners
    registered since. *)
Theorem listeners_cleared_at_settlement eager m :
  Nested.reachable eager m ->
  (forall k o, Nested.stack m = [] -> chains (Nested.now m) !! k = Some (Settled2 o) ->
     exists m', Nested.step m (Nested.Tick k) = Some m' /\
       listeners_of (Nested.now m') = [] /\ in_flight (Nested.now m') = None) /\
  (forall e m', Nested.step m e = Some m' -> Nested.forEach_ends m e = true ->
     listeners_of (Nested.now m') = []) /\
  (forall x i len s m',
     Nested.stack m = Nested.InListener i len :: s ->
     Nested.step m (Nested.Exit (Nested.Raises x)) = Some m' ->
     listeners_of (Nested.now m') = listeners_of (Nested.now m) /\ Nested.stack m' = s) /\
  (Nested.reachable_apart eager m ->
   in_flight (Nested.now m) = None -> Nested.executing m = false ->
   method (Nested.now m) <> None ->
   forall es m',
     Nested.run m es = Some m' ->
     forallb (fun e => negb (Nested.is_Call e)) es = true ->
     in_flight (Nested.now m') = None /\
     listeners_of (Nested.now m') = listeners_of (Nested.now m) ++ Nested.registrations es).
Proof.
  intros Hr. pose proof (nested_reachable_ginv _ _ Hr) as Hg.
  split; [|split; [|split]].
  - intros k o. apply nested_finally_clears.
  - intros e m' Hs He.
    destruct (forEach_ends_step m e m' He Hs) as (po & _ & _ & Hnow & _).
    unfold listeners_of. by rewrite Hnow.
  - intros x i len s m' Hstack Hs. simpl in Hs. rewrite Hstack in Hs.
    injection Hs as <-. unfold Nested.pop. simpl. by rewrite Hstack.
  - intros Hra Hfl He Hm es m' Hrun Hes.
    by apply (idle_nested_run m es m' (reachable_apart_tidy _ _ Hra) Hg).
Qed.

Lemma listeners_cleared_at_settlement_witness :
  let m := {| Nested.now := run (dPromiseFunction true)
                              [OnAbort 7; Call [] ReturnsPromise;
                               OpSettles 0 (Fulfilled (VNum 1)); Tick 0; Tick 0];
              Nested.stack := []; Nested.returned := [0] |} in
  Nested.reachable true m /\ listeners_of (Nested.now m) = [7] /\
  exists m', Nested.step m (Nested.Tick 0) = Some m' /\
    listeners_of (Nested.now m') = [] /\ in_flight (Nested.now m') = None.
Proof.
  intros m.
  assert (Nested.reachable true m) as Hr.
  { by exists [Nested.OnAbort 7; Nested.Call []; Nested.Exit Nested.Returns;
               Nested.OpSettles 0 (Fulfilled (VNum 1)); Nested.Tick 0; Nested.Tick 0]. }
  split; [exact Hr|]. split; [reflexivity|].
  destruct (listeners_cleared_at_settlement true m Hr) as (Hfin & _).
  exact (Hfin 0 (Fulfilled (VNum 1)) eq_refl eq_refl).
Defined.

(** *** Which call a listener runs for *)

Lemma forEach_from_cases i len m po :
  method (Nested.now m) = Some po ->
  (exists l, _abortListeners po !! i = Some l /\
     Nested.forEach_from i len m =
       {| Nested.now := {| method := Some po; chains := chains (Nested.now m);
                           invoked := invoked (Nested.now m);
                           fired := fired (Nested.now m) ++ [(reject po, l)] |};
          Nested.stack := Nested.InListener i len :: Nested.stack m;
          Nested.returned := Nested.returned m |}) \/
  Nested.forEach_from i len m =
    Nested.with_now
      {| method := Some (Nested.clear_listeners po);
         chains := match reject po with
                   | Some k => settle0 k (Rejected AbortError) (chains (Nested.now m))
                   | None => chains (Nested.now m)
                   end;
         invoked := invoked (Nested.now m); fired := fired (Nested.now m) |} m.
Proof.
  intros Hm. unfold Nested.forEach_from. rewrite Hm.
  destruct (Nat.ltb i len); [|by right].
  destruct (_abortListeners po !! i) as [l|] eqn:Hl; [|by right].
  left. by exists l.
Qed.

Lemma fired_tick k w : fired (tick k w) = fired w.
Proof. unfold tick. by destruct (chains w !! k) as [[]|]. Qed.

(** A listener runs only in a step of an [abort()] made while
    [isPending] is true; it is then in the list, and it is logged for
    the latest call. *)
Lemma fired_step m e m' :
  Nested.ginv m -> Nested.step m e = Some m' ->
  fired (Nested.now m') = fired (Nested.now m) \/
  (Nested.isPromisePending m = Normal true /\
   (e = Nested.Abort \/ e = Nested.Exit Nested.Returns) /\
   exists l k, fired (Nested.now m') = fired (Nested.now m) ++ [(Some k, l)] /\
     S k = length (chains (Nested.now m)) /\ l ∈ listeners_of (Nested.now m)).
Proof.
  intros Hg Hs.
  assert (forall i len m0 po, Nested.now m0 = Nested.now m -> method (Nested.now m) = Some po ->
            _isPending po = true ->
            fired (Nested.now (Nested.forEach_from i len m0)) = fired (Nested.now m) \/
            exists l k, fired (Nested.now (Nested.forEach_from i len m0))
                        = fired (Nested.now m) ++ [(Some k, l)] /\
              S k = length (chains (Nested.now m)) /\ l ∈ listeners_of (Nested.now m)) as Hfe.
  { intros i len m0 po Hnow Hm Hp.
    assert (method (Nested.now m0) = Some po) as Hm0 by (by rewrite Hnow).
    destruct (forEach_from_cases i len m0 po Hm0) as [(l & Hl & ->)| ->]; simpl;
      rewrite ?Hnow; [|by left].
    right. pose proof (Nested.g_pending m Hg po Hm) as Hpf. rewrite Hp in Hpf.
    destruct (reject po) as [k|] eqn:Hrej; [|done].
    exists l, k. split; [done|]. split; [by apply (Nested.g_reject m Hg po)|].
    unfold listeners_of. rewrite Hm. by eapply list_elem_of_lookup_2. }
  destruct e as [args| |l|x|k o|k]; simpl in Hs.
  - injection Hs as <-. left. unfold Nested.makePromise.
    by destruct (promise _).
  - injection Hs as <-. unfold Nested.abort.
    destruct (promise_object_of (Nested.now m)) as [po|] eqn:Hpo; [|by left]. simpl.
    apply promise_object_of_method in Hpo as Hm.
    unfold Nested.abortPromise, isPending. destruct (_isPending po) eqn:Hp; [|by left]. simpl.
    destruct (Hfe 0 (length (_abortListeners po)) m po eq_refl Hm Hp) as [?|?]; [by left|].
    right. split; [by rewrite (nested_isPromisePending m po Hg Hm), Hp|]. split; [by left|done].
  - injection Hs as <-. left. unfold Nested.onAbort, onAbort.
    by destruct (promise_object_of (Nested.now m)).
  - destruct (Nested.stack m) as [|[k|i len] s] eqn:Hstack; [done| |].
    + injection Hs as <-. by left.
    + destruct x; injection Hs as <-; [|by left].
      destruct (method (Nested.now m)) as [po|] eqn:Hm.
      2:{ destruct (Nested.g_lazy m Hg Hm). congruence. }
      assert (_isPending po = true) as Hp by (apply (Nested.g_busy m Hg); [done|congruence]).
      destruct (Hfe (S i) len (Nested.pop m) po eq_refl eq_refl Hp) as [?|?]; [by left|].
      right. split; [by rewrite (nested_isPromisePending m po Hg Hm), Hp|]. split; [by right|done].
  - destruct (Nested.stack m); [|done]. injection Hs as <-. by left.
  - destruct (Nested.stack m); [|done]. injection Hs as <-. left. simpl. apply fired_tick.
Qed.

Lemma fired_run_no_abort m es m' :
  Nested.aborting m = false -> Nested.run m es = Some m' ->
  forallb (fun e => negb (Nested.is_Abort e)) es = true ->
  fired (Nested.now m') = fired (Nested.now m).
Proof.
  revert m. induction es as [|e es IH]; intros m Ha Hrun Hes; simpl in Hrun.
  - by injection Hrun as <-.
  - destruct (Nested.step m e) as [m1|] eqn:Hs; [|done].
    simpl in Hes. apply andb_true_iff in Hes as [He Hes].
    assert (Nested.aborting m1 = false /\ fired (Nested.now m1) = fired (Nested.now m))
      as [Ha1 Hf1].
    { unfold Nested.aborting in *.
      destruct e as [args| |l|x|k o|k]; simpl in Hs; try done.
      - injection Hs as <-. unfold Nested.makePromise. by destruct (promise _).
      - injection Hs as <-. unfold Nested.onAbort, onAbort.
        by destruct (promise_object_of (Nested.now m)).
      - destruct (Nested.stack m) as [|[k|i len] s] eqn:Hstack; [done| |done].
        injection Hs as <-. simpl. rewrite Hstack. done.
      - destruct (Nested.stack m) eqn:Hstack; [|done]. injection Hs as <-. simpl.
        by rewrite Hstack.
      - destruct (Nested.stack m) eqn:Hstack; [|done]. injection Hs as <-. simpl.
        rewrite Hstack. split; [done|]. apply fired_tick. }
    rewrite <- Hf1. by apply IH.
Qed.

Lemma current_or_next_forEach_from i len m l k :
  Nested.ginv m ->
  (exists po, method (Nested.now m) = Some po /\ _isPending po = true) ->
  (l ∈ listeners_of (Nested.now m) -> Nested.current_or_next m = k) ->
  exists new,
    fired (Nested.now (Nested.forEach_from i len m)) = fired (Nested.now m) ++ new /\
    (forall j, (j, l) ∈ new -> j = Some k) /\
    (l ∈ listeners_of (Nested.now (Nested.forEach_from i len m)) ->
     Nested.current_or_next (Nested.forEach_from i len m) = k).
Proof.
  intros Hg (po & Hm & Hp) Hown.
  destruct (forEach_from_cases i len m po Hm) as [(l' & Hl' & ->)| ->]; simpl.
  - exists [(reject po, l')]. split; [done|]. split.
    + intros j Hj. apply list_elem_of_singleton in Hj. injection Hj as -> ->.
      assert (l' ∈ listeners_of (Nested.now m)) as Hin.
      { unfold listeners_of. rewrite Hm. by eapply list_elem_of_lookup_2. }
      specialize (Hown Hin). unfold Nested.current_or_next in Hown. rewrite Hm in Hown.
      pose proof (Nested.g_pending m Hg po Hm) as Hpf. rewrite Hp in Hpf.
      destruct (reject po); [congruence|done].
    + unfold listeners_of, Nested.current_or_next in *. simpl. by rewrite Hm in Hown.
  - exists []. rewrite app_nil_r. split; [done|]. split.
    + intros j Hj. by apply elem_of_nil in Hj.
    + unfold listeners_of. simpl. intros Hin. by apply elem_of_nil in Hin.
Qed.

(** A listener that is in the list runs, if ever, for the call it is
    waiting for, as long as no operation calls the method again. *)
Lemma owner_nested_step m e m' l k :
  Nested.ginv m -> Nested.reenters m e = false -> Nested.is_OnAbort l e = false ->
  Nested.step m e = Some m' ->
  (l ∈ listeners_of (Nested.now m) -> Nested.current_or_next m = k) ->
  exists new,
    fired (Nested.now m') = fired (Nested.now m) ++ new /\
    (forall j, (j, l) ∈ new -> j = Some k) /\
    (l ∈ listeners_of (Nested.now m') -> Nested.current_or_next m' = k).
Proof.
  intros Hg Hre Hno Hs Hown.
  assert (forall m1, Nested.now m1 = Nested.now m ->
            exists new, fired (Nested.now m1) = fired (Nested.now m) ++ new /\
              (forall j, (j, l) ∈ new -> j = Some k) /\
              (l ∈ listeners_of (Nested.now m1) -> Nested.current_or_next m1 = k)) as Hsame.
  { intros m1 Hnow. exists []. rewrite app_nil_r, Hnow. split; [done|]. split.
    - intros j Hj. by apply elem_of_nil in Hj.
    - unfold Nested.current_or_next in *. by rewrite Hnow. }
  destruct e as [args| |l'|x|k' o|k']; simpl in Hs.
  - injection Hs as <-. unfold Nested.reenters in Hre. simpl in Hre.
    unfold Nested.makePromise.
    destruct (method (Nested.now m)) as [po|] eqn:Hm.
    + destruct (promise po) as [p|] eqn:Hpr.
      * apply Hsame. simpl. by apply with_method_id.
      * exists []. rewrite app_nil_r. split; [done|]. split.
        { intros j Hj. by apply elem_of_nil in Hj. }
        unfold listeners_of, Nested.current_or_next in *. simpl. rewrite Hm in Hown.
        intros Hin. rewrite <- (Hown Hin).
        assert (_isPending po = false) as Hp.
        { destruct (_isPending po) eqn:Hp; [|done].
          by destruct (Nested.g_stored m Hg po Hm Hre Hp). }
        pose proof (Nested.g_pending m Hg po Hm) as Hpf. rewrite Hp in Hpf.
        by destruct (reject po).
    + exists []. rewrite app_nil_r. split; [done|]. split.
      { intros j Hj. by apply elem_of_nil in Hj. }
      unfold listeners_of. simpl. intros Hin. by apply elem_of_nil in Hin.
  - injection Hs as <-. unfold Nested.abort.
    destruct (promise_object_of (Nested.now m)) as [po|] eqn:Hpo; [|by apply Hsame]. simpl.
    apply promise_object_of_method in Hpo as Hm.
    unfold Nested.abortPromise, isPending. destruct (_isPending po) eqn:Hp; [|by apply Hsame].
    simpl. apply current_or_next_forEach_from; [done| |done]. by exists po.
  - injection Hs as <-. unfold Nested.onAbort, onAbort.
    destruct (promise_object_of (Nested.now m)) as [po|] eqn:Hpo; [|by apply Hsame]. simpl.
    apply promise_object_of_method in Hpo as Hm.
    exists []. rewrite app_nil_r. split; [done|]. split.
    { intros j Hj. by apply elem_of_nil in Hj. }
    unfold listeners_of, Nested.current_or_next in *. simpl. rewrite Hm in Hown.
    intros Hin. apply elem_of_app in Hin as [Hin|Hin]; [by apply Hown|].
    apply list_elem_of_singleton in Hin. subst l'. simpl in Hno.
    by rewrite Nat.eqb_refl in Hno.
  - destruct (Nested.stack m) as [|[k0|i len] s] eqn:Hstack; [done| |].
    + injection Hs as <-. exists []. rewrite app_nil_r. split; [done|]. split.
      { intros j Hj. by apply elem_of_nil in Hj. }
      unfold listeners_of, Nested.current_or_next, Nested.makePromise_returns in *. simpl.
      destruct (method (Nested.now m)) as [po|]; simpl;
        [|intros Hin; by apply elem_of_nil in Hin].
      intros Hin. rewrite <- (Hown Hin).
      destruct (reject po); [done|]. destruct x; by rewrite ?length_settle0.
    + destruct x; injection Hs as <-; [|by apply Hsame].
      destruct (method (Nested.now m)) as [po|] eqn:Hm.
      2:{ destruct (Nested.g_lazy m Hg Hm). congruence. }
      assert (_isPending po = true) as Hp by (apply (Nested.g_busy m Hg); [done|congruence]).
      apply (current_or_next_forEach_from (S i) len (Nested.pop m) l k).
      * by eapply ginv_pop.
      * by exists po.
      * done.
  - destruct (Nested.stack m); [|done]. injection Hs as <-.
    exists []. rewrite app_nil_r. split; [done|]. split.
    { intros j Hj. by apply elem_of_nil in Hj. }
    unfold listeners_of, Nested.current_or_next in *. simpl.
    by rewrite length_settle0.
  - destruct (Nested.stack m); [|done]. injection Hs as <-.
    exists []. rewrite app_nil_r. split; [simpl; apply fired_tick|]. split.
    { intros j Hj. by apply elem_of_nil in Hj. }
    unfold listeners_of, Nested.current_or_next in *. simpl. unfold tick.
    destruct (chains (Nested.now m) !! k') as [[|o|o|o|o|o]|] eqn:Hk; try done; simpl;
      rewrite ?length_insert; destruct (method (Nested.now m)) as [po|]; simpl; try done;
      try (by destruct o).
    intros Hin. by apply elem_of_nil in Hin.
Qed.

Lemma owner_nested_run m es m' l k :
  Nested.ginv m -> Nested.run m es = Some m' -> Nested.apart m es = true ->
  forallb (fun e => negb (Nested.is_OnAbort l e)) es = true ->
  (l ∈ listeners_of (Nested.now m) -> Nested.current_or_next m = k) ->
  exists new,
    fired (Nested.now m') = fired (Nested.now m) ++ new /\
    forall j, (j, l) ∈ new -> j = Some k.
Proof.
  revert m. induction es as [|e es IH]; intros m Hg Hrun Hap Hes Hown; simpl in Hrun.
  - injection Hrun as <-. exists []. rewrite app_nil_r. split; [done|].
    intros j Hj. by apply elem_of_nil in Hj.
  - destruct (Nested.step m e) as [m1|] eqn:Hs; [|done].
    simpl in Hap, Hes. rewrite Hs in Hap.
    apply andb_true_iff in Hap as [Hre Hap]. apply negb_true_iff in Hre.
    apply andb_true_iff in Hes as [Hno Hes]. apply negb_true_iff in Hno.
    destruct (owner_nested_step m e m1 l k Hg Hre Hno Hs Hown) as (new1 & Hf1 & Hn1 & Hown1).
    destruct (IH m1 (ginv_step _ _ _ Hg Hs) Hrun Hap Hes Hown1) as (new2 & Hf2 & Hn2).
    exists (new1 ++ new2). split; [by rewrite Hf2, Hf1, app_assoc|].
    intros j Hj. apply elem_of_app in Hj as [Hj|Hj]; eauto.
Qed.



(** * The two transition systems agree *)

Lemma settle0_latest (cs : list stage) o :
  settle0 (length cs) o (cs ++ [Started]) = cs ++ [Settled0 o].
Proof.
  unfold settle0. rewrite lookup_app_r by lia. rewrite Nat.sub_diag. simpl.
  rewrite insert_app_r_alt by lia. by rewrite Nat.sub_diag.
Qed.

(** One step of the atomic transition system is a run of the one with
    the call stack, from an empty stack to an empty stack, in which no
    operation calls the wrapped method. *)
Lemma atomic_step_is_nested w e r :
  inv w ->
  exists r',
    Nested.run {| Nested.now := w; Nested.stack := []; Nested.returned := r |}
               (unfold_event w e)
    = Some {| Nested.now := step w e; Nested.stack := []; Nested.returned := r' |} /\
    Nested.apart {| Nested.now := w; Nested.stack := []; Nested.returned := r |}
                 (unfold_event w e) = true.
Proof.
  intros Hi. destruct e as [args t| |l|k o|k]; simpl.
  - unfold in_flight, makePromise.
    destruct (method w) as [po|] eqn:Hm.
    + destruct (promise po) as [p|] eqn:Hp; simpl; unfold Nested.makePromise; simpl;
        rewrite Hm; simpl; rewrite Hp; simpl.
      * eexists. split; [done|]. unfold Nested.reenters. done.
      * eexists. split; [|done]. unfold Nested.makePromise_returns. simpl.
        destruct t as [|e]; simpl; [done|]. by rewrite settle0_latest.
    + simpl. unfold Nested.makePromise. simpl. rewrite Hm. simpl. eexists. split; [|done].
      unfold Nested.makePromise_returns. simpl.
      destruct t as [|e]; simpl; [done|]. by rewrite settle0_latest.
  - unfold Nested.abort, abort. simpl.
    destruct (promise_object_of w) as [po|] eqn:Hpo; simpl.
    2:{ eexists. by split. }
    apply promise_object_of_method in Hpo as Hm.
    unfold Nested.abortPromise, abortPromise.
    destruct (isPending po) eqn:Hp; simpl.
    2:{ eexists. by split. }
    destruct (inv_obj w Hi po Hm) as (_ & _ & Hrej & _).
    pose proof (forEach_quiet po {| Nested.now := w; Nested.stack := [];
                                    Nested.returned := r |} 0 Hm ltac:(lia)) as Hq.
    rewrite Nat.sub_0_r, drop_0 in Hq. simpl in Hq.
    exists r. split.
    + rewrite Hq. unfold Nested.with_now, Nested.clear_listeners. simpl.
      repeat f_equal. exact Hrej.
    + apply apart_no_calls. exact (quiet_abort_no_calls (length (_abortListeners po))).
  - exists r. unfold Nested.onAbort. simpl. by destruct (onAbort l w).
  - by exists r.
  - by exists r.
Qed.

Theorem atomic_run_is_nested w es r :
  inv w ->
  exists r',
    Nested.run {| Nested.now := w; Nested.stack := []; Nested.returned := r |}
               (unfold_events w es)
    = Some {| Nested.now := run w es; Nested.stack := []; Nested.returned := r' |} /\
    Nested.apart {| Nested.now := w; Nested.stack := []; Nested.returned := r |}
                 (unfold_events w es) = true.
Proof.
  revert w r. induction es as [|e es IH]; intros w r Hi; simpl.
  - by exists r.
  - destruct (atomic_step_is_nested w e r Hi) as (r1 & Hrun1 & Hap1).
    destruct (IH (step w e) r1 (inv_step w e Hi)) as (r2 & Hrun2 & Hap2).
    exists r2. rewrite nested_run_app, Hrun1, apart_app, Hap1, Hrun1. by split.
Qed.

(** Every world that the atomic transition system reaches is the world
    of a state that the one with the call stack reaches, with nothing
    on the stack and without an operation calling the method again. *)
Corollary reachable_is_nested eager w :
  reachable eager w ->
  exists r, Nested.reachable_apart eager
              {| Nested.now := w; Nested.stack := []; Nested.returned := r |}.
Proof.
  intros [es ->].
  destruct (atomic_run_is_nested (dPromiseFunction eager) es [] (inv_init eager))
    as (r & Hrun & Hap).
  exists r, (unfold_events (dPromiseFunction eager) es). by split.
Qed.

(** * More about the call wrapper, with the call stack *)



(** X6 (abort twice).  When the [forEach] of an [abort()] has run out
    of listeners, so that the list has been emptied and [reject] called,
    an [abort()] that follows at once changes nothing: no listener runs
    and the settlement stays as it is. *)
Theorem abort_twice m e m' :
  Nested.step m e = Some m' -> Nested.forEach_ends m e = true ->
  Nested.step m' Nested.Abort = Some m'.
Proof.
  intros Hs He.
  destruct (forEach_ends_step m e m' He Hs) as (po & Hm & _ & Hnow & _).
  simpl. f_equal. unfold Nested.abort, promise_object_of. rewrite Hnow. simpl.
  destruct (_isDPromise po); [|done]. simpl.
  unfold Nested.abortPromise, isPending. simpl.
  destruct (_isPending po); [|done]. simpl.
  unfold Nested.forEach_from. rewrite Hnow. simpl.
  destruct m' as [w' s' r']. simpl in *. subst w'. unfold Nested.with_now. simpl.
  do 2 f_equal. destruct (reject po) as [k|]; [|done]. apply settle0_twice.
Qed.

Lemma abort_twice_witness :
  let m := {| Nested.now := run (dPromiseFunction true) [Call [] ReturnsPromise];
              Nested.stack := []; Nested.returned := [0] |} in
  exists m', Nested.step m Nested.Abort = Some m' /\
    chains (Nested.now m') = [Settled0 (Rejected AbortError)] /\
    Nested.step m' Nested.Abort = Some m'.
Proof.
  intros m. eexists. split; [reflexivity|]. split; [reflexivity|].
  exact (abort_twice m Nested.Abort _ eq_refl eq_refl).
Defined.

(** *** Listeners run at most once per registration *)

Lemma listener_frame_None s :
  existsb Nested.is_InListener s = false -> Nested.listener_frame s = None.
Proof. induction s as [|[k|i len] s IH]; simpl; [done|exact IH|done]. Qed.

Lemma listener_frame_filter s :
  length (filter Nested.is_InListener s) = 0 -> existsb Nested.is_InListener s = false.
Proof.
  induction s as [|[k|i len] s IH]; [done| |]; rewrite filter_cons; simpl; [exact IH|lia].
Qed.

Lemma filter_existsb_false s :
  existsb Nested.is_InListener s = false -> length (filter Nested.is_InListener s) = 0.
Proof.
  induction s as [|[k|i len] s IH]; [done| |]; rewrite filter_cons; simpl; [exact IH|done].
Qed.

Lemma count_occ_drop_S (ls : list nat) (i l' l : nat) :
  ls !! i = Some l' ->
  count_occ Nat.eq_dec (drop i ls) l =
  (if Nat.eq_dec l' l then 1 else 0) + count_occ Nat.eq_dec (drop (S i) ls) l.
Proof.
  intros Hl. rewrite (drop_S _ _ _ Hl). simpl. by destruct (Nat.eq_dec l' l).
Qed.

Lemma count_occ_snoc (ls : list nat) (l' l : nat) :
  count_occ Nat.eq_dec (ls ++ [l']) l =
  count_occ Nat.eq_dec ls l + (if Nat.eq_dec l' l then 1 else 0).
Proof. rewrite count_occ_app. simpl. by destruct (Nat.eq_dec l' l). Qed.

Lemma calm_forEach_from i len m l :
  existsb Nested.is_InListener (Nested.stack m) = false ->
  Nested.calm_inv (Nested.forEach_from i len m) /\
  count_occ Nat.eq_dec (map snd (fired (Nested.now (Nested.forEach_from i len m)))) l +
  count_occ Nat.eq_dec (Nested.waiting (Nested.forEach_from i len m)) l
  <= count_occ Nat.eq_dec (map snd (fired (Nested.now m))) l +
     count_occ Nat.eq_dec (drop i (listeners_of (Nested.now m))) l.
Proof.
  intros Hno. pose proof (filter_existsb_false _ Hno) as Hfil.
  pose proof (listener_frame_None _ Hno) as Hlf.
  destruct (method (Nested.now m)) as [po|] eqn:Hm.
  - destruct (forEach_from_cases i len m po Hm) as [(l' & Hl' & ->)| ->].
    + split.
      * split; [cbn [Nested.stack]; rewrite filter_cons; simpl; lia|]. simpl.
        intros i0 len0 [= <- <-]. unfold listeners_of. simpl. by eapply lookup_lt_Some.
      * unfold Nested.waiting, listeners_of. simpl. rewrite Hm. unfold listener in *.
        rewrite (count_occ_drop_S _ i l' l Hl'), map_app, count_occ_app. simpl.
        destruct (Nat.eq_dec l' l); lia.
    + split.
      * split; [cbn [Nested.stack Nested.with_now]; lia|]. simpl. rewrite Hlf. done.
      * unfold Nested.waiting, listeners_of. simpl. rewrite Hlf. simpl. lia.
  - unfold Nested.forEach_from. rewrite Hm. split.
    + split; [lia|]. by rewrite Hlf.
    + unfold Nested.waiting, listeners_of. rewrite Hlf, Hm. rewrite drop_nil. lia.
Qed.

Lemma calm_step m e m' l :
  Nested.calm_inv m -> Nested.disturbs m e = false -> Nested.step m e = Some m' ->
  Nested.calm_inv m' /\
  Nested.runs_and_waits l m' <=
    Nested.runs_and_waits l m + count_occ Nat.eq_dec (Nested.registrations [e]) l.
Proof.
  intros [Hone Hidx] Hd Hs. unfold Nested.runs_and_waits.
  assert (forall m1 n, fired (Nested.now m1) = fired (Nested.now m) ->
            listeners_of (Nested.now m1) = listeners_of (Nested.now m) ->
            Nested.listener_frame (Nested.stack m1) = Nested.listener_frame (Nested.stack m) ->
            length (filter Nested.is_InListener (Nested.stack m1)) =
              length (filter Nested.is_InListener (Nested.stack m)) ->
            Nested.calm_inv m1 /\
            count_occ Nat.eq_dec (map snd (fired (Nested.now m1))) l +
            count_occ Nat.eq_dec (Nested.waiting m1) l
            <= count_occ Nat.eq_dec (map snd (fired (Nested.now m))) l +
               count_occ Nat.eq_dec (Nested.waiting m) l + n) as Hsame.
  { intros m1 n Hf Hls Hlf Hfil. split.
    - split; [lia|]. intros i len. rewrite Hlf, Hls. apply Hidx.
    - unfold Nested.waiting. rewrite Hf, Hls, Hlf. lia. }
  destruct e as [args| |l'|x|k o|k]; simpl in Hs.
  - injection Hs as <-. simpl. unfold Nested.makePromise.
    destruct (method (Nested.now m)) as [po|] eqn:Hm.
    + destruct (promise po) as [p|]; apply Hsame; simpl; try done;
        unfold listeners_of; simpl; by rewrite Hm.
    + apply Hsame; simpl; try done. unfold listeners_of. simpl. by rewrite Hm.
  - injection Hs as <-. simpl in Hd. unfold Nested.aborting in Hd.
    unfold Nested.abort. destruct (promise_object_of (Nested.now m)) as [po|] eqn:Hpo;
      [|by apply Hsame].
    cbn [Nested.state_after]. unfold Nested.abortPromise.
    destruct (negb (isPending po)); [by apply Hsame|].
    pose proof (calm_forEach_from 0 (length (_abortListeners po)) m l Hd) as [Hc Hle].
    split; [done|]. rewrite drop_0 in Hle.
    unfold Nested.waiting at 2. rewrite (listener_frame_None _ Hd). simpl. lia.
  - injection Hs as <-. unfold Nested.onAbort, onAbort.
    destruct (promise_object_of (Nested.now m)) as [po|] eqn:Hpo; simpl.
    2:{ by apply Hsame. }
    apply promise_object_of_method in Hpo as Hm.
    assert (listeners_of (Nested.now m) = _abortListeners po) as Hls
      by (unfold listeners_of; by rewrite Hm).
    split.
    + split; simpl; [done|]. intros i len Hlf. unfold listeners_of. simpl.
      rewrite length_app. specialize (Hidx i len Hlf). rewrite Hls in Hidx. lia.
    + unfold Nested.waiting, listeners_of. simpl. rewrite Hm.
      destruct (Nested.listener_frame (Nested.stack m)) as [[i len]|] eqn:Hlf.
      * specialize (Hidx i len eq_refl). rewrite Hls in Hidx. unfold listener in *.
        rewrite drop_app_le by lia. rewrite count_occ_snoc.
        destruct (Nat.eq_dec l' l); lia.
      * unfold listener in *. rewrite count_occ_snoc. destruct (Nat.eq_dec l' l); lia.
  - destruct (Nested.stack m) as [|[k|i len] s] eqn:Hstack; [done| |].
    + injection Hs as <-. apply Hsame; unfold Nested.makePromise_returns; simpl;
        rewrite ?Hstack; simpl; try done.
      all: try (unfold listeners_of; simpl; by destruct (method (Nested.now m))).
      all: try (by rewrite filter_cons).
    + destruct x as [|x]; [|simpl in Hd; by rewrite Hstack in Hd].
      injection Hs as <-.
      rewrite filter_cons in Hone. simpl in Hone.
      assert (existsb Nested.is_InListener s = false) as Hno.
      { apply listener_frame_filter. lia. }
      pose proof (calm_forEach_from (S i) len (Nested.pop m) l) as Hfe.
      unfold Nested.pop in Hfe at 1. simpl in Hfe. rewrite Hstack in Hfe. simpl in Hfe.
      destruct (Hfe Hno) as [Hc Hle]. split; [done|].
      unfold Nested.waiting at 2. rewrite Hstack. simpl. lia.
  - destruct (Nested.stack m) eqn:Hstack; [|done]. injection Hs as <-.
    apply Hsame; simpl; by rewrite ?Hstack.
  - destruct (Nested.stack m) eqn:Hstack; [|done]. injection Hs as <-. split.
    + split; simpl; rewrite Hstack; simpl; [lia|done].
    + unfold Nested.waiting. simpl. rewrite Hstack. simpl. rewrite fired_tick.
      unfold listeners_of, tick.
      destruct (chains (Nested.now m) !! k) as [[|o|o|o|o|o]|]; simpl; try lia;
        destruct (method (Nested.now m)) as [po|]; simpl; try lia;
        destruct o; simpl; lia.
Qed.

Lemma calm_app m es es' :
  Nested.calm m (es ++ es') =
  Nested.calm m es && match Nested.run m es with Some m' => Nested.calm m' es' | None => true end.
Proof.
  revert m. induction es as [|e es IH]; intros m; [done|].
  simpl. destruct (Nested.step m e) as [m1|]; simpl.
  - rewrite IH. by rewrite andb_assoc.
  - by rewrite !andb_true_r.
Qed.

Lemma nested_registrations_snoc es e l :
  count_occ Nat.eq_dec (Nested.registrations (es ++ [e])) l =
  count_occ Nat.eq_dec (Nested.registrations es) l +
  count_occ Nat.eq_dec (Nested.registrations [e]) l.
Proof.
  unfold Nested.registrations. rewrite flat_map_app. apply count_occ_app.
Qed.

(** X7 (at most once per registration).  Along any run in which no
    listener throws and no [abort()] is called while a listener is
    running, a listener has run, or is still to be called, no more
    often than [onAbort] was called with it: nothing runs a listener
    twice for one registration. *)
Theorem listener_runs_at_most_once_per_registration eager es m l :
  Nested.run (Nested.dPromiseFunction eager) es = Some m ->
  Nested.calm (Nested.dPromiseFunction eager) es = true ->
  count_occ Nat.eq_dec (map snd (fired (Nested.now m))) l +
  count_occ Nat.eq_dec (Nested.waiting m) l
  <= count_occ Nat.eq_dec (Nested.registrations es) l.
Proof.
  intros Hrun Hcalm.
  enough (Nested.calm_inv m /\
          Nested.runs_and_waits l m <= count_occ Nat.eq_dec (Nested.registrations es) l)
    as [_ H] by exact H.
  revert m Hrun Hcalm. induction es as [|e es IH] using rev_ind; intros m Hrun Hcalm.
  - simpl in Hrun. injection Hrun as <-. split.
    + split; simpl; [lia|done].
    + unfold Nested.runs_and_waits, Nested.waiting, listeners_of. simpl.
      by destruct eager.
  - apply nested_run_snoc in Hrun as (m0 & Hrun0 & Hs).
    rewrite calm_app, Hrun0 in Hcalm. apply andb_true_iff in Hcalm as [Hc0 Hc1].
    simpl in Hc1. apply andb_true_iff in Hc1 as [Hd _]. apply negb_true_iff in Hd.
    destruct (IH m0 Hrun0 Hc0) as [Hinv0 Hle0].
    destruct (calm_step m0 e m l Hinv0 Hd Hs) as [Hinv Hle].
    split; [done|]. rewrite nested_registrations_snoc. lia.
Qed.

Lemma listener_runs_at_most_once_per_registration_witness :
  exists m,
    Nested.run (Nested.dPromiseFunction true)
      [Nested.OnAbort 7; Nested.Call []; Nested.Exit Nested.Returns;
       Nested.Abort; Nested.Exit Nested.Returns; Nested.Abort] = Some m /\
    count_occ Nat.eq_dec (map snd (fired (Nested.now m))) 7 <= 1.
Proof.
  eexists. split; [reflexivity|].
  match goal with
  | |- count_occ _ (map snd (fired (Nested.now ?m))) _ <= _ =>
      pose proof (listener_runs_at_most_once_per_registration true
        [Nested.OnAbort 7; Nested.Call []; Nested.Exit Nested.Returns;
         Nested.Abort; Nested.Exit Nested.Returns; Nested.Abort] m 7 eq_refl eq_refl) as H
  end.
  simpl in H. simpl. lia.
Defined.

(** Without that: a listener that throws is called again by the next
    [abort()], for the one registration. *)
Example throwing_listener_runs_twice :
  exists m,
    Nested.run (Nested.dPromiseFunction true)
      [Nested.OnAbort 7; Nested.Call []; Nested.Exit Nested.Returns;
       Nested.Abort; Nested.Exit (Nested.Raises (new_Error "boom")); Nested.Abort] = Some m /\
    map snd (fired (Nested.now m)) = [7; 7].
Proof. eexists. by split. Qed.

(** * The reserved prefixes *)

Lemma slice_length_append (p rest : string) : slice (String.length p) (p ++ rest)%string = rest.
Proof. induction p as [|c p IH]; [done|]. simpl. apply IH. Qed.

Lemma startsWith_append (p rest : string) : startsWith (p ++ rest)%string p = true.
Proof.
  unfold startsWith. induction p as [|c p IH]; simpl; [by destruct rest|].
  destruct (Ascii.ascii_dec c c); [apply IH|done].
Qed.

Lemma length_string_append (p rest : string) :
  String.length (p ++ rest)%string = String.length p + String.length rest.
Proof. induction p as [|c p IH]; [done|]. simpl. by rewrite IH. Qed.

Lemma stored_name_prefix (prefix rest : string) :
  prefix ∈ METHOD_PREFIXES -> stored_name (StringKey (prefix ++ rest)) = StringKey rest.
Proof.
  intros Hin. unfold METHOD_PREFIXES in Hin.
  apply elem_of_cons in Hin as [->|Hin].
  { unfold stored_name, METHOD_PREFIXES. cbn [strip_first_prefix].
    by rewrite startsWith_append, slice_length_append. }
  apply elem_of_cons in Hin as [->|Hin].
  { unfold stored_name, METHOD_PREFIXES. cbn [strip_first_prefix].
    assert (startsWith ("_$D" ++ rest) "$D" = false) as -> by (by vm_compute).
    by rewrite startsWith_append, slice_length_append. }
  by apply elem_of_nil in Hin.
Qed.

Lemma second_prefix_listed : "_$D"%string ∈ METHOD_PREFIXES.
Proof. unfold METHOD_PREFIXES. apply elem_of_cons. right. apply elem_of_cons. by left. Qed.

(** X8 (prefix stripping).  The wrapper of a method named with a
    reserved prefix, [$D] or [_$D], is stored under the rest of the
    name, the whole prefix removed and nothing more; a name that starts
    with neither prefix, and a symbol, is used as it is.  Only one
    prefix is removed. *)
Theorem stored_name_strips_prefix :
  (forall prefix rest, prefix ∈ METHOD_PREFIXES ->
     stored_name (StringKey (prefix ++ rest)) = StringKey rest) /\
  (forall s, startsWith s "$D" = false -> startsWith s "_$D" = false ->
     stored_name (StringKey s) = StringKey s) /\
  (forall id, stored_name (SymbolKey id) = SymbolKey id) /\
  (forall rest, stored_name (StringKey ("$D" ++ "_$D" ++ rest)) = StringKey ("_$D" ++ rest)).
Proof.
  split; [|split; [|split]].
  - intros prefix rest Hin. by apply stored_name_prefix.
  - intros s H1 H2. simpl. by rewrite H1, H2.
  - done.
  - intros rest. unfold stored_name, METHOD_PREFIXES. cbn [strip_first_prefix].
    by rewrite startsWith_append, slice_length_append.
Qed.

Lemma stored_name_strips_prefix_witness :
  stored_name (StringKey "_$DfetchData") = StringKey "fetchData" /\
  stored_name (StringKey "fetchData") = StringKey "fetchData".
Proof.
  destruct stored_name_strips_prefix as (Hstrip & Hkeep & _).
  split.
  - exact (Hstrip "_$D"%string "fetchData"%string second_prefix_listed).
  - exact (Hkeep "fetchData"%string eq_refl eq_refl).
Defined.

(** X9 (the method under both names).  After the initializer has run
    for a method declared as [prefix ++ rest], the instance answers to
    [rest] with the wrapper, while the declared name still reaches the
    method as written, on the prototype; a method declared without a
    prefix is shadowed by its wrapper. *)
Theorem prefixed_method_has_two_faces (name : PropertyKey)
    (own proto : gmap PropertyKey method_value) :
  own !! name = None -> proto !! name = Some the_target ->
  let own' := dPromise_initializer name own in
  get_property own' proto (stored_name name) = Some the_makePromise /\
  (stored_name name <> name -> get_property own' proto name = Some the_target) /\
  (forall prefix rest, prefix ∈ METHOD_PREFIXES -> name = StringKey (prefix ++ rest) ->
     stored_name name <> name).
Proof.
  intros Hown Hproto own'. unfold own', dPromise_initializer, get_property.
  split; [by rewrite lookup_insert_eq|]. split.
  - intros Hne. rewrite lookup_insert_ne by done. by rewrite Hown.
  - intros prefix rest Hin ->.
    rewrite (stored_name_prefix prefix rest Hin).
    intros [= Heq]. apply (f_equal String.length) in Heq.
    rewrite length_string_append in Heq.
    unfold METHOD_PREFIXES in Hin.
    apply elem_of_cons in Hin as [->|Hin]; [simpl in Heq; lia|].
    apply elem_of_cons in Hin as [->|Hin]; [simpl in Heq; lia|].
    by apply elem_of_nil in Hin.
Qed.

Lemma prefixed_method_has_two_faces_witness :
  let name := StringKey "_$DfetchData" in
  let proto : gmap PropertyKey method_value := {[ name := the_target ]} in
  (∅ : gmap PropertyKey method_value) !! name = None /\
  proto !! name = Some the_target /\
  get_property (dPromise_initializer name ∅) proto (StringKey "fetchData")
    = Some the_makePromise /\
  get_property (dPromise_initializer name ∅) proto name = Some the_target.
Proof.
  intros name proto.
  assert ((∅ : gmap PropertyKey method_value) !! name = None) as Hown by reflexivity.
  assert (proto !! name = Some the_target) as Hproto by reflexivity.
  split; [exact Hown|]. split; [exact Hproto|].
  destruct (prefixed_method_has_two_faces name ∅ proto Hown Hproto) as (Hw & Ht & Hne).
  split; [exact Hw|].
  apply Ht. exact (Hne "_$D"%string "fetchData"%string ltac:(unfold METHOD_PREFIXES; set_solver) eq_refl).
Defined.

(** X10 (the earlier revision cuts two characters).  In the earlier
    revision a name prefixed with [_$D] loses its first two characters
    only, so the wrapper lands under ["D" ++ rest], not under [rest];
    on every name that does not start with [_$D] both revisions store
    the wrapper under the same name. *)
Theorem legacy_stored_name :
  (forall rest, LegacyNames.stored_name (StringKey ("_$D" ++ rest)) = StringKey ("D" ++ rest)) /\
  (forall rest, LegacyNames.stored_name (StringKey ("_$D" ++ rest))
                <> stored_name (StringKey ("_$D" ++ rest))) /\
  (forall name, (forall s, name = StringKey s -> startsWith s "_$D" = false) ->
     LegacyNames.stored_name name = stored_name name).
Proof.
  assert (forall rest,
            LegacyNames.stored_name (StringKey ("_$D" ++ rest)) = StringKey ("D" ++ rest)) as Hcut.
  { intros rest. unfold LegacyNames.stored_name, METHOD_PREFIXES. cbn [existsb nth].
    assert (startsWith ("_$D" ++ rest) "$D" = false) as -> by (by vm_compute).
    by rewrite startsWith_append. }
  split; [done|]. split.
  - intros rest. rewrite Hcut.
    rewrite (stored_name_prefix "_$D" rest second_prefix_listed).
    intros [= Heq]. apply (f_equal String.length) in Heq.
    rewrite length_string_append in Heq. simpl in Heq. lia.
  - intros [s|id] Hs; [|done]. specialize (Hs s eq_refl).
    unfold LegacyNames.stored_name, stored_name. simpl. rewrite Hs.
    destruct (startsWith s "$D"); done.
Qed.

Lemma legacy_stored_name_witness :
  LegacyNames.stored_name (StringKey "_$DfetchData") = StringKey "DfetchData" /\
  LegacyNames.stored_name (StringKey "$DfetchData") = stored_name (StringKey "$DfetchData").
Proof.
  destruct legacy_stored_name as (Hcut & _ & Hsame).
  split.
  - exact (Hcut "fetchData"%string).
  - apply Hsame. intros s [= <-]. reflexivity.
Defined.

(** * Scopes and watchers *)

(** *** Stopping a scope *)

Lemma length_stop_upto s old held_by n : length (stop_upto s old held_by n) = n.
Proof. induction n as [|n IH]; [done|]. simpl. rewrite length_app, IH. simpl. lia. Qed.

Lemma stop_upto_at s old held_by n d :
  d < n ->
  stop_upto s old held_by n !! d =
    Some (default true (old !! d) || Nat.eqb d s ||
          match held_by !! d with
          | Some (Some p) => default false (stop_upto s old held_by d !! p)
                             && negb (default true (old !! p))
          | _ => false
          end).
Proof.
  induction n as [|n IH]; [lia|]. intros Hd.
  change (stop_upto s old held_by (S n)) with
    (stop_upto s old held_by n ++
       [default true (old !! n) || Nat.eqb n s ||
        match held_by !! n with
        | Some (Some p) => default false (stop_upto s old held_by n !! p)
                           && negb (default true (old !! p))
        | _ => false
        end]).
  destruct (decide (d = n)) as [->|Hne].
  - rewrite lookup_app_r by (rewrite length_stop_upto; lia).
    by rewrite length_stop_upto, Nat.sub_diag.
  - rewrite lookup_app_l by (rewrite length_stop_upto; lia). apply IH. lia.
Qed.

Lemma stop_upto_prefix s old held_by n d p :
  p < d -> d <= n -> stop_upto s old held_by d !! p = stop_upto s old held_by n !! p.
Proof. intros Hp Hd. by rewrite !stop_upto_at by lia. Qed.

Lemma stop_upto_self s old held_by n :
  s < n -> stop_upto s old held_by n !! s = Some true.
Proof.
  intros Hs. rewrite stop_upto_at by done. by rewrite Nat.eqb_refl, orb_true_r.
Qed.

Lemma stop_upto_mono s old held_by n d :
  d < n -> old !! d = Some true -> stop_upto s old held_by n !! d = Some true.
Proof. intros Hd Hold. rewrite stop_upto_at by done. by rewrite Hold. Qed.

(** A scope that stops in [s.stop()] is [s] or is held by [s]. *)
Lemma stop_upto_below s old held_by n d :
  n <= length old -> stop_upto s old held_by n !! d = Some true ->
  old !! d = Some true \/ below held_by s d.
Proof.
  revert d. induction n as [n IH] using lt_wf_ind. intros d Hn Hd.
  assert (d < n) as Hlt by (apply lookup_lt_Some in Hd; by rewrite length_stop_upto in Hd).
  rewrite stop_upto_at in Hd by done. injection Hd as Hd.
  assert (d < length old) as Hdo by lia.
  destruct (lookup_lt_is_Some_2 old d Hdo) as [b Hb]. rewrite Hb in Hd. simpl in Hd.
  destruct b; [by left|]. simpl in Hd.
  destruct (Nat.eqb_spec d s) as [->|Hne]; [right; apply below_self|]. simpl in Hd.
  destruct (held_by !! d) as [[p|]|] eqn:Hp; [|done..].
  apply andb_true_iff in Hd as [Hnew Hold].
  destruct (stop_upto s old held_by d !! p) as [[|]|] eqn:Hnp; [|done..].
  destruct (IH d Hlt p ltac:(lia) Hnp) as [Hop|Hbelow].
  - by rewrite Hop in Hold.
  - right. by eapply below_held.
Qed.

(** A scope that is running when it is held stops with its holder. *)
Lemma stop_upto_held s old held_by n d p :
  d < n -> held_by !! d = Some (Some p) -> p < d ->
  old !! p = Some false -> stop_upto s old held_by n !! p = Some true ->
  stop_upto s old held_by n !! d = Some true.
Proof.
  intros Hd Hp Hlt Hold Hnew. rewrite stop_upto_at by done.
  rewrite Hp, (stop_upto_prefix s old held_by n d p), Hnew, Hold by lia.
  simpl. by rewrite orb_true_r.
Qed.

Lemma stop_self s rt : s < length (stopped rt) -> stopped (stop s rt) !! s = Some true.
Proof. intros Hs. by apply stop_upto_self. Qed.

Lemma stop_mono s rt d :
  stopped rt !! d = Some true -> stopped (stop s rt) !! d = Some true.
Proof. intros Hd. apply stop_upto_mono; [by eapply lookup_lt_Some|done]. Qed.

Lemma stop_frame s rt d :
  d < length (stopped rt) -> ~ below (parents rt) s d ->
  stopped (stop s rt) !! d = stopped rt !! d.
Proof.
  intros Hd Hnot. simpl.
  destruct (lookup_lt_is_Some_2 (stopped rt) d Hd) as [b Hb].
  destruct (lookup_lt_is_Some_2 (stop_upto s (stopped rt) (parents rt) (length (stopped rt))) d)
    as [b' Hb']; [by rewrite length_stop_upto|].
  rewrite Hb, Hb'. destruct b'.
  - destruct (stop_upto_below _ _ _ _ _ (Nat.le_refl _) Hb') as [?|?]; [congruence|done].
  - destruct b; [|done]. rewrite (stop_upto_mono s _ (parents rt) _ d Hd Hb) in Hb'. done.
Qed.

(** *** Every possible runtime is sound *)

Lemma sound_no_runtime : sound no_runtime.
Proof.
  split; simpl; intros *; try (by rewrite lookup_empty); try (by rewrite lookup_nil); try done.
  by intros ?%elem_of_nil.
Qed.

Lemma sound_construct methods members rt :
  sound rt -> sound (snd (construct methods members rt)).
Proof.
  intros [Hs Ho Hp Hh Ha Hd Ht Hw Hk Hq]. split; simpl; try done.
  - intros o s Hos. rewrite length_app. specialize (Ho o s Hos). lia.
  - intros o inner Hoi. rewrite length_app. specialize (Hk o inner Hoi). lia.
  - intros j [Hj|Hj]%elem_of_app; rewrite length_app; simpl.
    + specialize (Hq j Hj). lia.
    + apply list_elem_of_fmap in Hj as (m & -> & _). destruct m; simpl; lia.
Qed.

Lemma sound_effectScope detached rt : sound rt -> sound (snd (effectScope detached rt)).
Proof.
  intros [Hs Ho Hp Hh Ha Hd Ht Hw Hk Hq]. split; simpl; try done.
  - intros o s Hos. rewrite length_app. specialize (Hs o s Hos). lia.
  - rewrite !length_app. simpl. lia.
  - intros d p [Hdp|[Hge Hdp]]%lookup_app_Some; [by eapply Hh|].
    apply list_lookup_singleton_Some in Hdp as [Hd0 Hdp].
    destruct detached; [done|]. specialize (Ha p Hdp). lia.
  - intros a Haa. rewrite length_app. specialize (Ha a Haa). lia.
  - intros h w Hhw. destruct (Hw h w Hhw) as (Hc & Hlt & Hscope).
    split; [done|]. rewrite length_app. split; [lia|].
    destruct Hscope as [?|Hst]; [by left|right]. by rewrite lookup_app_l.
Qed.

Lemma sound_makeObjectScope object rt :
  sound rt -> object < length (properties rt) -> sound (snd (makeObjectScope object rt)).
Proof.
  intros Hsound Hobj. unfold makeObjectScope.
  destruct (scopes rt !! object) as [s|] eqn:Hobject; [done|].
  pose proof (sound_effectScope false rt Hsound) as [Hs Ho Hp Hh Ha Hd Ht Hw Hk Hq].
  simpl in *. split; simpl; try done.
  - intros o s. destruct (decide (object = o)) as [->|Hne].
    + rewrite lookup_insert_eq. intros [= <-]. rewrite length_app. simpl. lia.
    + rewrite lookup_insert_ne by done. apply Hs.
  - intros o s. destruct (decide (object = o)) as [->|Hne]; [done|].
    rewrite lookup_insert_ne by done. apply Ho.
  - assert (forall o s, scopes rt !! o = Some s -> s < length (stopped rt)) as Hlt
      by apply (sound_scopes rt Hsound).
    intros o1 o2 s.
    destruct (decide (object = o1)) as [He1|Hne1]; destruct (decide (object = o2)) as [He2|Hne2];
      subst; rewrite ?lookup_insert_eq, ?lookup_insert_ne by done; try done.
    + intros [= <-] H2. specialize (Hlt _ _ H2). lia.
    + intros H1 [= <-]. specialize (Hlt _ _ H1). lia.
    + apply Hd.
  - intros h w Hhw. destruct (Hw h w Hhw) as (Hc & Hlt & [Hin|Hst]); (split; [done|]);
      (split; [done|]); [left|by right].
    rewrite lookup_insert_ne; [done|]. intros ->. congruence.
Qed.

Lemma sound_stop s rt : sound rt -> sound (stop s rt).
Proof.
  intros [Hs Ho Hp Hh Ha Hd Ht Hw Hk Hq]. split; simpl; try done;
    rewrite ?length_stop_upto; try done.
  intros h w Hhw. destruct (Hw h w Hhw) as (Hc & Hlt & [Hin|Hst]); (split; [done|]);
    (split; [done|]); [by left|right].
  by apply (stop_mono s rt).
Qed.

Lemma sound_disposeObjectScope object rt :
  sound rt -> sound (disposeObjectScope object rt).
Proof.
  intros Hsound. unfold disposeObjectScope.
  destruct (scopes rt !! object) as [s|] eqn:Hobject; [|done].
  assert (s < length (stopped rt)) as Hlt by (by eapply (sound_scopes rt Hsound)).
  pose proof (sound_stop s rt Hsound) as [Hs Ho Hp Hh Ha Hd Ht Hw Hk Hq].
  pose proof (stop_self s rt Hlt) as Hself.
  simpl in *. split; simpl; try done.
  - intros o s'. destruct (decide (object = o)) as [->|Hne]; [by rewrite lookup_delete_eq|].
    rewrite lookup_delete_ne by done. apply Hs.
  - intros o s'. destruct (decide (object = o)) as [->|Hne]; [by rewrite lookup_delete_eq|].
    rewrite lookup_delete_ne by done. apply Ho.
  - intros o1 o2 s'.
    destruct (decide (object = o1)) as [->|Hne1]; [by rewrite lookup_delete_eq|].
    destruct (decide (object = o2)) as [->|Hne2]; [by rewrite lookup_delete_eq|].
    rewrite !lookup_delete_ne by done. apply Hd.
  - intros h w Hhw. destruct (Hw h w Hhw) as (Hc & Hl & [Hin|Hst]); (split; [done|]);
      (split; [done|]); [|by right].
    destruct (decide (object = made_for w)) as [->|Hne].
    + right. rewrite Hobject in Hin. by simplify_eq.
    + left. by rewrite lookup_delete_ne.
Qed.

Lemma sound_call_watcher c context targetName rt :
  sound rt -> sound (call_watcher c context targetName rt).
Proof.
  intros [Hs Ho Hp Hh Ha Hd Ht Hw Hk Hq]. unfold call_watcher.
  destruct (get_watchHandle _ _ _) as [handle|]; [|done].
  split; simpl; try done.
  - intros o t h inner Hoi Hi. destruct (Ht o t h inner Hoi Hi) as (w & Hhw & Hf & Hm).
    destruct (decide (handle = h)) as [->|Hne].
    + exists (receive c w). by rewrite list_lookup_alter_eq, Hhw.
    + exists w. by rewrite list_lookup_alter_ne.
  - intros h w. destruct (decide (handle = h)) as [->|Hne].
    + rewrite list_lookup_alter_eq.
      destruct (handles rt !! h) as [w0|] eqn:Hw0; [|done].
      simpl. intros [= <-]. simpl. by eapply Hw.
    + rewrite list_lookup_alter_ne by done. apply Hw.
Qed.

Lemma sound_run_in_scope scope this target how rt :
  sound rt -> scopes rt !! this = Some scope -> this < length (properties rt) ->
  sound (run_in_scope scope this target how rt).
Proof.
  intros Hsound Hscope Hthis. unfold run_in_scope.
  destruct (stopped rt !! scope) as [[|]|] eqn:Hlive; [done| |done].
  destruct Hsound as [Hs Ho Hp Hh Ha Hd Ht Hw Hk Hq].
  unfold setWatcher. simpl.
  split; simpl; try done.
  - intros o t h inner. destruct (decide (this = o)) as [->|Hne].
    + rewrite lookup_insert_eq. intros [= <-].
      destruct (decide (target = t)) as [->|Hnt].
      * rewrite lookup_insert_eq. intros [= <-].
        eexists. rewrite lookup_app_r by lia. rewrite Nat.sub_diag. simpl. done.
      * rewrite lookup_insert_ne by done. intros Hin.
        destruct (watchersMap rt !! o) as [inner0|] eqn:Hoi; simpl in Hin;
          [|by rewrite lookup_empty in Hin].
        destruct (Ht o t h inner0 Hoi Hin) as (w & Hhw & Hf & Hm).
        exists w. rewrite lookup_app_l by (by eapply lookup_lt_Some). done.
    + rewrite lookup_insert_ne by done. intros Hoi Hin.
      destruct (Ht o t h inner Hoi Hin) as (w & Hhw & Hf & Hm).
      exists w. rewrite lookup_app_l by (by eapply lookup_lt_Some). done.
  - intros h w Hhw. apply lookup_app_Some in Hhw as [Hhw|[Hge Hhw]]; [by eapply Hw|].
    apply list_lookup_singleton_Some in Hhw as [_ <-]. simpl.
    split; [done|]. split; [by eapply Hs|by left].
  - intros o inner. destruct (decide (this = o)) as [->|Hne].
    + done.
    + rewrite lookup_insert_ne by done. apply Hk.
Qed.

Lemma makeObjectScope_spec object rt :
  scopes (snd (makeObjectScope object rt)) !! object = Some (fst (makeObjectScope object rt)) /\
  handles (snd (makeObjectScope object rt)) = handles rt /\
  watchersMap (snd (makeObjectScope object rt)) = watchersMap rt /\
  properties (snd (makeObjectScope object rt)) = properties rt /\
  microtasks (snd (makeObjectScope object rt)) = microtasks rt.
Proof.
  unfold makeObjectScope.
  destruct (scopes rt !! object) as [s|] eqn:Ho; simpl; [done|].
  by rewrite lookup_insert_eq.
Qed.

Lemma sound_run_job j rt :
  sound rt -> job_this j < length (properties rt) -> sound (run_job j rt).
Proof.
  intros Hsound Hthis.
  destruct j as [this target flush|this target source options]; simpl in *;
    destruct (makeObjectScope this rt) as [scope rt'] eqn:Hmk;
    pose proof (sound_makeObjectScope this rt Hsound Hthis) as Hs';
    destruct (makeObjectScope_spec this rt) as (Hsc & _ & _ & Hp & _);
    rewrite Hmk in Hs', Hsc, Hp; simpl in *;
    apply sound_run_in_scope; try done; by rewrite Hp.
Qed.

Lemma sound_run_microtask rt : sound rt -> sound (run_microtask rt).
Proof.
  intros Hsound. unfold run_microtask.
  destruct (microtasks rt) as [|j rest] eqn:Hq; [done|].
  apply sound_run_job.
  - destruct Hsound as [Hs Ho Hp Hh Ha Hd Ht Hw Hk Hq']. split; simpl; try done.
    intros j' Hj'. apply Hq'. rewrite Hq. by apply list_elem_of_further.
  - simpl. apply (sound_queue rt Hsound). rewrite Hq. apply list_elem_of_here.
Qed.

Lemma sound_enter a rt : sound rt -> made a rt = true -> sound (enter a rt).
Proof.
  intros [Hs Ho Hp Hh Ha Hd Ht Hw Hk Hq] Hmade. split; simpl; try done.
  intros a' ->. simpl in Hmade. by apply Nat.ltb_lt.
Qed.

Lemma sound_act rt a : sound rt -> sound (act rt a).
Proof.
  intros Hsound. destruct a; simpl.
  - by apply sound_construct.
  - by apply sound_run_microtask.
  - destruct (Nat.ltb_spec object (length (properties rt))); [|done].
    by apply sound_makeObjectScope.
  - by apply sound_disposeObjectScope.
  - by apply sound_call_watcher.
  - by apply sound_effectScope.
  - destruct (made a rt) eqn:Hmade; [|done]. by apply sound_enter.
  - by apply sound_stop.
Qed.

Lemma acts_snoc rt l a : acts rt (l ++ [a]) = act (acts rt l) a.
Proof. unfold acts. by rewrite fold_left_app. Qed.

Lemma possible_sound rt : possible rt -> sound rt.
Proof.
  intros [l ->]. induction l as [|a l IH] using rev_ind; [apply sound_no_runtime|].
  rewrite acts_snoc. by apply sound_act.
Qed.

(** *** Scopes *)

(** X11 (one scope per object).  Asking twice for the scope of an
    object gives the same scope and changes nothing the second time,
    and two different objects never get the same scope.  A scope that
    the call makes is running, and is held by the scope that runs at
    that moment; a scope already in the table is handed out as it is,
    stopped or not: after [makeObjectScope(o).stop()] the object still
    gets that scope, stopped, and running the job of a watcher in it
    makes nothing. *)
Theorem makeObjectScope_one_scope_per_object rt o :
  possible rt -> o < length (properties rt) ->
  let '(s, rt1) := makeObjectScope o rt in
  makeObjectScope o rt1 = (s, rt1) /\
  scopes rt1 !! o = Some s /\
  (scopes rt !! o = None ->
     s = length (stopped rt) /\ stopped rt1 !! s = Some false /\
     parents rt1 !! s = Some (activeEffectScope rt)) /\
  (forall s0, scopes rt !! o = Some s0 -> s = s0 /\ rt1 = rt) /\
  (forall o', o' <> o -> fst (makeObjectScope o' rt1) <> s) /\
  let rt2 := stop s rt1 in
  makeObjectScope o rt2 = (s, rt2) /\ stopped rt2 !! s = Some true /\
  forall this target how, run_in_scope s this target how rt2 = rt2.
Proof.
  intros Hp Hobj. pose proof (possible_sound rt Hp) as Hsound.
  pose proof (sound_makeObjectScope o rt Hsound Hobj) as Hsound1.
  destruct (makeObjectScope_spec o rt) as (Hsc & _).
  assert (scopes rt !! o = None ->
          makeObjectScope o rt =
            (length (stopped rt),
             with_scopes (<[o := length (stopped rt)]> (scopes rt))
                         (snd (effectScope false rt)))) as Hnew.
  { intros Hnone. unfold makeObjectScope. by rewrite Hnone. }
  assert (forall s0, scopes rt !! o = Some s0 -> makeObjectScope o rt = (s0, rt)) as Hold.
  { intros s0 Hs0. unfold makeObjectScope. by rewrite Hs0. }
  destruct (makeObjectScope o rt) as [s rt1]. simpl in *.
  assert (s < length (stopped rt1)) as Hlt by (by eapply (sound_scopes rt1 Hsound1)).
  split; [unfold makeObjectScope; by rewrite Hsc|]. split; [done|].
  split; [|split; [|split]].
  - intros Hnone. specialize (Hnew Hnone). injection Hnew as -> ->. simpl.
    split; [done|]. rewrite lookup_app_r by lia. rewrite Nat.sub_diag.
    rewrite <- (sound_parents rt Hsound), lookup_app_r by lia. by rewrite Nat.sub_diag.
  - intros s0 Hs0. specialize (Hold s0 Hs0). by injection Hold as -> ->.
  - intros o' Hne Heq.
    destruct (makeObjectScope_spec o' rt1) as (Hsc' & _). rewrite Heq in Hsc'.
    unfold makeObjectScope in Hsc', Heq.
    destruct (scopes rt1 !! o') as [s'|] eqn:Ho'; simpl in *.
    + simplify_eq. apply Hne. by eapply (sound_distinct rt1 Hsound1 o' o).
    + lia.
  - split; [|split].
    + unfold makeObjectScope. simpl. by rewrite Hsc.
    + by apply stop_self.
    + intros this target how. unfold run_in_scope. by rewrite (stop_self s rt1 Hlt).
Qed.

Lemma makeObjectScope_one_scope_per_object_witness :
  let rt := acts no_runtime [New ∅ []; New ∅ []] in
  possible rt /\ 0 < length (properties rt) /\
  makeObjectScope 0 (snd (makeObjectScope 0 rt)) = makeObjectScope 0 rt /\
  fst (makeObjectScope 1 (snd (makeObjectScope 0 rt))) <> fst (makeObjectScope 0 rt) /\
  fst (makeObjectScope 0 (stop 0 (snd (makeObjectScope 0 rt)))) = 0 /\
  stopped (stop 0 (snd (makeObjectScope 0 rt))) !! 0 = Some true.
Proof.
  intros rt.
  assert (possible rt) as Hp by (eexists; reflexivity).
  assert (0 < length (properties rt)) as Hobj by (vm_compute; lia).
  split; [exact Hp|]. split; [exact Hobj|].
  pose proof (makeObjectScope_one_scope_per_object rt 0 Hp Hobj) as H.
  destruct (makeObjectScope 0 rt) as [s rt1] eqn:Hmk.
  assert (s = 0) as -> by (vm_compute in Hmk; by injection Hmk as <- _).
  destruct H as (Hsame & _ & _ & _ & Hother & Hagain & Hstopped & _).
  cbn [fst snd].
  split; [exact Hsame|]. split; [apply Hother; discriminate|].
  split; [by rewrite Hagain|exact Hstopped].
Defined.

(** X12 (disposal).  Disposing the scope of an object stops that scope
    and forgets it, so that the next [makeObjectScope] makes a new one,
    different from the old, and running; disposing again, or disposing
    an object that has no scope, changes nothing.  No scope starts
    running again; a running scope that the stopping scope holds stops
    with it, be it the scope of another object; every scope that is
    neither the disposed one nor held by it, through however many
    scopes, stays as it is; and the other objects keep their scopes. *)
Theorem disposeObjectScope_stops_and_forgets rt o :
  possible rt ->
  (scopes rt !! o = None -> disposeObjectScope o rt = rt) /\
  (forall s, scopes rt !! o = Some s ->
     let rt' := disposeObjectScope o rt in
     stopped rt' !! s = Some true /\ scopes rt' !! o = None /\
     fst (makeObjectScope o rt') <> s /\
     stopped (snd (makeObjectScope o rt')) !! fst (makeObjectScope o rt') = Some false /\
     disposeObjectScope o rt' = rt' /\
     (forall d, stopped rt !! d = Some true -> stopped rt' !! d = Some true) /\
     (forall d p, parents rt !! d = Some (Some p) -> stopped rt !! p = Some false ->
        stopped rt' !! p = Some true -> stopped rt' !! d = Some true) /\
     (forall d, d < length (stopped rt) -> ~ below (parents rt) s d ->
        stopped rt' !! d = stopped rt !! d) /\
     forall o' s', o' <> o -> scopes rt !! o' = Some s' -> scopes rt' !! o' = Some s').
Proof.
  intros Hp. pose proof (possible_sound rt Hp) as Hsound.
  split; [intros Ho; unfold disposeObjectScope; by rewrite Ho|].
  intros s Ho rt'.
  pose proof (sound_disposeObjectScope o rt Hsound) as Hsound'. fold rt' in Hsound'.
  assert (s < length (stopped rt)) as Hlt by (by eapply (sound_scopes rt Hsound)).
  assert (scopes rt' !! o = None) as Hnone.
  { unfold rt', disposeObjectScope. rewrite Ho. simpl. by rewrite lookup_delete_eq. }
  assert (stopped rt' = stopped (stop s rt)) as Hst.
  { unfold rt', disposeObjectScope. by rewrite Ho. }
  assert (length (stopped rt') = length (stopped rt)) as Hlen.
  { rewrite Hst. simpl. by rewrite length_stop_upto. }
  split; [rewrite Hst; by apply stop_self|]. split; [done|].
  split; [|split; [|split; [|split; [|split; [|split]]]]].
  - unfold makeObjectScope. rewrite Hnone. simpl. lia.
  - unfold makeObjectScope. rewrite Hnone. simpl.
    rewrite lookup_app_r by lia. by rewrite Nat.sub_diag.
  - unfold disposeObjectScope at 1. by rewrite Hnone.
  - intros d Hd. rewrite Hst. by apply stop_mono.
  - intros d p Hdp Hrun Hstops. rewrite Hst in *. simpl in *.
    apply (stop_upto_held s (stopped rt) (parents rt) _ d p); try done.
    + rewrite <- (sound_parents rt Hsound). by eapply lookup_lt_Some.
    + by eapply (sound_held rt Hsound).
  - intros d Hd Hnot. rewrite Hst. by apply stop_frame.
  - intros o' s' Hne Ho'. unfold rt', disposeObjectScope. rewrite Ho. simpl.
    by rewrite lookup_delete_ne.
Qed.

Lemma disposeObjectScope_stops_and_forgets_witness :
  let rt := acts no_runtime [New ∅ []; New ∅ []; MakeObjectScope 0; MakeObjectScope 1] in
  possible rt /\ scopes rt !! 0 = Some 0 /\
  stopped (disposeObjectScope 0 rt) !! 0 = Some true /\
  fst (makeObjectScope 0 (disposeObjectScope 0 rt)) <> 0 /\
  scopes (disposeObjectScope 0 rt) !! 1 = Some 1.
Proof.
  intros rt.
  assert (possible rt) as Hp by (eexists; reflexivity).
  assert (scopes rt !! 0 = Some 0) as Ho by reflexivity.
  split; [exact Hp|]. split; [exact Ho|].
  destruct (disposeObjectScope_stops_and_forgets rt 0 Hp) as (_ & H).
  destruct (H 0 Ho) as (Hst & _ & Hnew & _ & _ & _ & _ & _ & Hother).
  split; [exact Hst|]. split; [exact Hnew|].
  exact (Hother 1 1 ltac:(discriminate) eq_refl).
Defined.

(** The scope that an object gets while the scope of another object is
    running is held by that scope, and stops when the other object is
    disposed of. *)
Example disposal_stops_a_held_scope :
  let rt := acts no_runtime
              [New ∅ []; New ∅ []; MakeObjectScope 0; Enter (Some 0); MakeObjectScope 1;
               Enter None] in
  scopes rt !! 1 = Some 1 /\ stopped rt !! 1 = Some false /\
  parents rt !! 1 = Some (Some 0) /\
  scopes (disposeObjectScope 0 rt) !! 1 = Some 1 /\
  stopped (disposeObjectScope 0 rt) !! 1 = Some true.
Proof. vm_compute. by repeat split. Qed.

(** *** Watchers *)

(** X13 (control comes too early).  The watcher of a decorated method
    is made in a microtask, not by the constructor.  Right after
    [new C()], [stopWatcher], [pauseWatcher] and [resumeWatcher] on the
    new instance find no handle and do nothing; the job that runs
    afterwards makes the watcher all the same, in a scope that has not
    been stopped, registers it for the instance and its method, and the
    watcher has received no call. *)
Theorem watcher_control_before_the_microtask rt methods m members :
  possible rt -> microtasks rt = [] ->
  let '(this, rt1) := construct methods (m :: members) rt in
  (forall c targetName, call_watcher c this targetName rt1 = rt1) /\
  let rt2 := run_microtask rt1 in
  get_watchHandle this (Some (member_target m)) rt2 = Some (length (handles rt)) /\
  exists w, handles rt2 !! length (handles rt) = Some w /\
    made_for w = this /\ made_from w = member_target m /\ calls w = [] /\
    callback w = Bound this (member_target m) /\
    scopes rt2 !! this = Some (made_in w) /\ stopped rt2 !! made_in w = Some false.
Proof.
  intros Hp Hq. pose proof (possible_sound rt Hp) as Hsound.
  unfold construct. set (this := length (properties rt)).
  assert (watchersMap rt !! this = None) as Hnone.
  { destruct (watchersMap rt !! this) as [inner|] eqn:Hw; [|done].
    pose proof (sound_known rt Hsound this inner Hw). unfold this in *. lia. }
  assert (scopes rt !! this = None) as Hfresh.
  { destruct (scopes rt !! this) as [s|] eqn:Hs; [|done].
    pose proof (sound_objects rt Hsound this s Hs). unfold this in *. lia. }
  split.
  - intros c targetName. unfold call_watcher, get_watchHandle. simpl.
    rewrite Hnone. by destruct (get_method _ _ _).
  - unfold run_microtask. simpl. rewrite Hq. simpl.
    set (rt0 := {| scopes := scopes rt; stopped := stopped rt; parents := parents rt;
                   activeEffectScope := activeEffectScope rt; handles := handles rt;
                   watchersMap := watchersMap rt;
                   properties := properties rt ++ [methods];
                   microtasks := map (initializer_job this) members |}).
    assert (forall how,
      let rt2 := (let '(scope, rt') := makeObjectScope this rt0 in
                  run_in_scope scope this (member_target m) how rt') in
      get_watchHandle this (Some (member_target m)) rt2 = Some (length (handles rt)) /\
      exists w, handles rt2 !! length (handles rt) = Some w /\
        made_for w = this /\ made_from w = member_target m /\ calls w = [] /\
        callback w = Bound this (member_target m) /\
        scopes rt2 !! this = Some (made_in w) /\ stopped rt2 !! made_in w = Some false) as Hjob.
    { intros how. unfold makeObjectScope. simpl. rewrite Hfresh. simpl.
      unfold run_in_scope. simpl.
      rewrite lookup_app_r by lia. rewrite Nat.sub_diag. simpl.
      unfold get_watchHandle, setWatcher. simpl.
      rewrite !lookup_insert_eq. split; [done|].
      eexists. rewrite lookup_app_r by lia. rewrite Nat.sub_diag. simpl.
      split; [done|]. repeat split; try done.
      simpl. rewrite lookup_app_r by lia. by rewrite Nat.sub_diag. }
    destruct m as [target flush|target source options]; simpl; apply Hjob.
Qed.

Lemma watcher_control_before_the_microtask_witness :
  let methods : gmap PropertyKey nat := {[ StringKey "logCount" := 10 ]} in
  possible no_runtime /\ microtasks no_runtime = [] /\
  let rt1 := snd (construct methods [dEffect_member 10 None] no_runtime) in
  stopWatcher 0 (StringKey "logCount") rt1 = rt1 /\
  get_watchHandle 0 (Some 10) (run_microtask rt1) = Some 0.
Proof.
  intros methods.
  assert (possible no_runtime) as Hp by (exists []; reflexivity).
  split; [exact Hp|]. split; [reflexivity|].
  pose proof (watcher_control_before_the_microtask no_runtime methods
                (dEffect_member 10 None) [] Hp eq_refl) as H.
  destruct (construct methods [dEffect_member 10 None] no_runtime) as [this rt1] eqn:Hc.
  injection Hc as <- <-. destruct H as (Hlost & Hmade & _).
  split; [exact (Hlost stop_call (StringKey "logCount"))|exact Hmade].
Defined.

(** X14 (each watcher is controlled through its own instance).  A call
    of [stopWatcher], [pauseWatcher] or [resumeWatcher] reaches at most
    one handle, the one registered for that instance and that method,
    which then records the call; a handle made for another instance,
    even of the same class and for the same method, or for another
    method, stays as it is, and so do the scopes and the table. *)
Theorem call_watcher_reaches_its_own_handle rt c context targetName :
  possible rt ->
  let rt' := call_watcher c context targetName rt in
  scopes rt' = scopes rt /\ stopped rt' = stopped rt /\ watchersMap rt' = watchersMap rt /\
  (forall h w, handles rt !! h = Some w ->
     made_for w <> context \/ Some (made_from w) <> get_method context targetName rt ->
     handles rt' !! h = Some w) /\
  (forall h, get_watchHandle context (get_method context targetName rt) rt = Some h ->
     exists w, handles rt !! h = Some w /\ made_for w = context /\
       handles rt' !! h = Some (receive c w) /\
       forall h', h' <> h -> handles rt' !! h' = handles rt !! h').
Proof.
  intros Hp rt'. pose proof (possible_sound rt Hp) as Hsound.
  assert (forall h, get_watchHandle context (get_method context targetName rt) rt = Some h ->
            exists w, handles rt !! h = Some w /\ made_for w = context /\
                      Some (made_from w) = get_method context targetName rt) as Hown.
  { intros h. unfold get_watchHandle.
    destruct (get_method context targetName rt) as [t|]; [|done].
    destruct (watchersMap rt !! context) as [inner|] eqn:Hw; [|done].
    intros Hi. destruct (sound_table rt Hsound context t h inner Hw Hi) as (w & ? & ? & ?).
    exists w. by simplify_eq. }
  unfold rt', call_watcher.
  destruct (get_watchHandle context (get_method context targetName rt) rt) as [h0|] eqn:Hget;
    simpl; (split; [done|]); (split; [done|]); (split; [done|]).
  - destruct (Hown h0 eq_refl) as (w0 & Hw0 & Hf0 & Ht0). split.
    + intros h w Hw Hother. destruct (decide (h0 = h)) as [->|Hne].
      * simplify_eq. destruct Hother as [Hother|Hother]; done.
      * by rewrite list_lookup_alter_ne.
    + intros h [= <-]. exists w0. split; [done|]. split; [done|]. split.
      * by rewrite list_lookup_alter_eq, Hw0.
      * intros h' Hne. by rewrite list_lookup_alter_ne.
  - split; [done|]. by intros h.
Qed.

Lemma call_watcher_reaches_its_own_handle_witness :
  let methods : gmap PropertyKey nat := {[ StringKey "onCountChange" := 10 ]} in
  let member := dWatch_member 10 (SourceFunction (Function 20)) None in
  let rt := acts no_runtime [New methods [member]; New methods [member]; Microtask; Microtask] in
  possible rt /\
  let rt' := stopWatcher 0 (StringKey "onCountChange") rt in
  (calls <$> handles rt' !! 0) = Some [stop_call] /\
  handles rt' !! 1 = handles rt !! 1.
Proof.
  intros methods member rt.
  assert (possible rt) as Hp by (eexists; reflexivity).
  split; [exact Hp|].
  destruct (call_watcher_reaches_its_own_handle rt stop_call 0 (StringKey "onCountChange") Hp)
    as (_ & _ & _ & _ & Hown).
  destruct (Hown 0 eq_refl) as (w & Hw & _ & Hrec & Hother).
  split.
  - unfold stopWatcher. rewrite Hrec. vm_compute in Hw. injection Hw as <-. reflexivity.
  - exact (Hother 1 ltac:(discriminate)).
Defined.

(** X15 (disposal reaches the watchers of the instance).  Every watcher
    of an instance was made in the scope the instance had at that time:
    as long as that scope has not been stopped it still is the scope of
    the instance.  [disposeObjectScope] therefore stops the scope of
    every watcher made for the object so far.  The scope of a watcher
    made for another object stays as it is unless the disposed scope
    holds it, through however many scopes. *)
Theorem disposeObjectScope_reaches_the_watchers rt o h w :
  possible rt -> handles rt !! h = Some w ->
  let rt' := disposeObjectScope o rt in
  (stopped rt !! made_in w = Some false -> scopes rt !! made_for w = Some (made_in w)) /\
  (made_for w = o -> stopped rt' !! made_in w = Some true) /\
  (made_for w <> o ->
   (forall s, scopes rt !! o = Some s -> ~ below (parents rt) s (made_in w)) ->
   stopped rt' !! made_in w = stopped rt !! made_in w) /\
  handles rt' = handles rt /\ watchersMap rt' = watchersMap rt.
Proof.
  intros Hp Hw rt'. pose proof (possible_sound rt Hp) as Hsound.
  destruct (sound_handles rt Hsound h w Hw) as (_ & Hmade & Hscope).
  unfold rt', disposeObjectScope.
  split; [intros Hlive; destruct Hscope as [?|?]; [done|congruence]|].
  destruct (scopes rt !! o) as [s|] eqn:Ho.
  - assert (s < length (stopped rt)) as Hlt by (by eapply (sound_scopes rt Hsound)).
    change (stopped (with_scopes (delete o (scopes (stop s rt))) (stop s rt)))
      with (stopped (stop s rt)).
    split; [|split; [|done]].
    + intros <-. destruct Hscope as [Hin|Hst].
      * rewrite Ho in Hin. simplify_eq. by apply stop_self.
      * by apply stop_mono.
    + intros Hne Hnot. apply stop_frame; [done|by apply Hnot].
  - split; [|done]. intros <-. destruct Hscope as [Hin|Hst]; [congruence|done].
Qed.

Lemma disposeObjectScope_reaches_the_watchers_witness :
  let methods : gmap PropertyKey nat := {[ StringKey "logCount" := 10 ]} in
  let rt := acts no_runtime [New methods [dEffect_member 10 None; dEffect_member 11 (Some "sync")];
                             New methods [dEffect_member 10 None];
                             Microtask; Microtask; Microtask] in
  possible rt /\
  (made_for <$> handles rt !! 1) = Some 0 /\
  (made_in <$> handles rt !! 0) = (made_in <$> handles rt !! 1) /\
  stopped (disposeObjectScope 0 rt) !! 0 = Some true /\
  stopped (disposeObjectScope 0 rt) !! 1 = Some false.
Proof.
  intros methods rt.
  assert (possible rt) as Hp by (eexists; reflexivity).
  split; [exact Hp|]. split; [reflexivity|]. split; [reflexivity|].
  assert (exists w, handles rt !! 1 = Some w /\ made_for w = 0 /\ made_in w = 0) as (w & Hw & Hf & Hi).
  { eexists. split; [reflexivity|]. split; reflexivity. }
  destruct (disposeObjectScope_reaches_the_watchers rt 0 1 w Hp Hw) as (_ & Hst & _).
  pose proof (Hst Hf) as Hstopped. rewrite Hi in Hstopped.
  split; [exact Hstopped|reflexivity].
Defined.

(** *** The source of a [dWatch] watcher *)

Lemma watched_sources_current instances source :
  watched_sources dWatch_source instances source =
  map (fun this => bind_source this source) instances.
Proof. induction instances as [|this rest IH]; [done|]. simpl. by rewrite IH. Qed.

Lemma bind_source_bound this this' source :
  bind_source this' (bind_source this source) = bind_source this source.
Proof. destruct source as [[id|t id]|r]; done. Qed.

Lemma watched_sources_legacy first rest source :
  watched_sources LegacyWatch.dWatch_source (first :: rest) source =
  replicate (S (length rest)) (bind_source first source).
Proof.
  simpl. f_equal. induction rest as [|this rest IH]; [done|].
  simpl. rewrite bind_source_bound. by rewrite IH.
Qed.

(** X16 (every instance watches itself).  With a getter function as
    source, the watcher of each instance of the class is given the
    getter bound to that very instance; a ref as source is passed on as
    it is. *)
Theorem dWatch_binds_each_instance instances i this :
  instances !! i = Some this ->
  (forall getter,
     watched_sources dWatch_source instances (SourceFunction (Function getter)) !! i
     = Some (SourceFunction (Bound this getter))) /\
  (forall r, watched_sources dWatch_source instances (SourceRef r) !! i = Some (SourceRef r)).
Proof.
  intros Hi. split; intros; rewrite watched_sources_current, list_lookup_fmap, Hi; done.
Qed.

Lemma dWatch_binds_each_instance_witness :
  [3; 4] !! 1 = Some 4 /\
  watched_sources dWatch_source [3; 4] (SourceFunction (Function 20)) !! 1
  = Some (SourceFunction (Bound 4 20)).
Proof.
  assert ([3; 4] !! 1 = Some 4) as Hi by reflexivity.
  split; [exact Hi|].
  exact (proj1 (dWatch_binds_each_instance [3; 4] 1 4 Hi) 20).
Defined.

(** X17 (the earlier revision watches the first instance).  In the
    earlier revision the job overwrites the closure variable with the
    bound getter, and binding a bound function again keeps its [this]:
    the watcher of every instance of the class is given the getter
    bound to the instance whose job ran first.  For a second instance
    this differs from what the later revision gives it. *)
Theorem legacy_dWatch_binds_the_first_instance first rest getter :
  watched_sources LegacyWatch.dWatch_source (first :: rest) (SourceFunction (Function getter))
  = replicate (S (length rest)) (SourceFunction (Bound first getter)) /\
  (forall i this, (first :: rest) !! i = Some this -> this <> first ->
     watched_sources LegacyWatch.dWatch_source (first :: rest)
       (SourceFunction (Function getter)) !! i
     <> watched_sources dWatch_source (first :: rest)
       (SourceFunction (Function getter)) !! i).
Proof.
  split; [by rewrite watched_sources_legacy|].
  intros i this Hi Hne.
  rewrite watched_sources_current, list_lookup_fmap, Hi, watched_sources_legacy.
  assert (i < S (length rest)) as Hlt by (apply lookup_lt_Some in Hi; simpl in Hi; lia).
  rewrite lookup_replicate_2 by done. simpl. congruence.
Qed.

Lemma legacy_dWatch_binds_the_first_instance_witness :
  watched_sources LegacyWatch.dWatch_source [3; 4] (SourceFunction (Function 20)) !! 1
  = Some (SourceFunction (Bound 3 20)) /\
  watched_sources LegacyWatch.dWatch_source [3; 4] (SourceFunction (Function 20)) !! 1
  <> watched_sources dWatch_source [3; 4] (SourceFunction (Function 20)) !! 1.
Proof.
  destruct (legacy_dWatch_binds_the_first_instance 3 [4] 20) as (Hall & Hdiff).
  split.
  - rewrite Hall. reflexivity.
  - apply (Hdiff 1 4); [reflexivity|lia].
Defined.

(** * Computed getters *)

Lemma dComputed_getter_initializer this name target this' name' cm :
  dComputed_getter this' name' (dComputed_initializer this name target cm) =
  if decide (this = this') then
    if decide (name = name') then value_of (Bound this target)
    else match dComputed_getter this' name' cm with
         | throws _ => no_entry
         | r => r
         end
  else dComputed_getter this' name' cm.
Proof.
  unfold dComputed_getter, dComputed_initializer.
  destruct (decide (this = this')) as [->|Hne].
  - rewrite lookup_insert_eq. destruct (decide (name = name')) as [->|Hnn].
    + by rewrite lookup_insert_eq.
    + rewrite lookup_insert_ne by done.
      destruct (cm !! this') as [record|]; simpl; [by destruct (record !! name')|].
      by rewrite lookup_empty.
  - by rewrite lookup_insert_ne.
Qed.

Lemma dComputed_initializers_snoc inits this name target cm :
  dComputed_initializers (inits ++ [(this, name, target)]) cm =
  dComputed_initializer this name target (dComputed_initializers inits cm).
Proof. unfold dComputed_initializers. by rewrite fold_left_app. Qed.

(** X18 (a computed getter reads its own instance).  After any
    initializers have run, starting with none, the getter called on an
    object for which no initializer has run throws [Error("Computed
    decorator lost its value")], and on no other object; whenever it
    returns the value of a computed ref, that ref was made from a getter
    decorated under this name for this very instance, bound to the
    instance; and right after the initializer for an instance and a
    name has run, it is the ref made by that initializer. *)
Theorem dComputed_getter_reads_own_instance inits this name :
  let cm := dComputed_initializers inits ∅ in
  (dComputed_getter this name cm = throws (new_Error "Computed decorator lost its value")
   <-> this ∉ (fst ∘ fst <$> inits)) /\
  (forall c, dComputed_getter this name cm = value_of c ->
     exists target, c = Bound this target /\ (this, name, target) ∈ inits) /\
  (forall target earlier,
     inits = earlier ++ [(this, name, target)] ->
     dComputed_getter this name cm = value_of (Bound this target)).
Proof.
  simpl. split; [|split].
  - induction inits as [|[[this0 name0] target0] inits IH] using rev_ind.
    + simpl. unfold dComputed_getter. rewrite lookup_empty. split; [|done].
      intros _ ?%elem_of_nil. done.
    + rewrite dComputed_initializers_snoc, dComputed_getter_initializer, fmap_app. simpl.
      rewrite elem_of_app, list_elem_of_singleton.
      destruct (decide (this0 = this)) as [->|Hne].
      * split; [|intros Hn; exfalso; apply Hn; by right].
        destruct (decide (name0 = name)); [done|].
        by destruct (dComputed_getter this name (dComputed_initializers inits ∅)).
      * rewrite IH. split; [intros Hn [?|?]; [done|congruence]|intros Hn ?; apply Hn; by left].
  - induction inits as [|[[this0 name0] target0] inits IH] using rev_ind.
    + intros c. unfold dComputed_getter. simpl. by rewrite lookup_empty.
    + intros c. rewrite dComputed_initializers_snoc, dComputed_getter_initializer.
      destruct (decide (this0 = this)) as [->|Hne].
      * destruct (decide (name0 = name)) as [->|Hnn].
        -- intros [= <-]. exists target0. split; [done|]. apply elem_of_app. right.
           apply list_elem_of_singleton. done.
        -- destruct (dComputed_getter this name (dComputed_initializers inits ∅)) eqn:Hg;
             try done.
           intros [= <-]. destruct (IH _ eq_refl) as (target & -> & Hin).
           exists target. split; [done|]. apply elem_of_app. by left.
      * intros Hc. destruct (IH _ Hc) as (target & -> & Hin).
        exists target. split; [done|]. apply elem_of_app. by left.
  - intros target earlier ->.
    rewrite dComputed_initializers_snoc, dComputed_getter_initializer.
    by rewrite !decide_True.
Qed.

Lemma dComputed_getter_reads_own_instance_witness :
  let inits := [(1, StringKey "fullName", 10); (2, StringKey "fullName", 10)] in
  dComputed_getter 2 (StringKey "fullName") (dComputed_initializers inits ∅)
  = value_of (Bound 2 10) /\
  dComputed_getter 3 (StringKey "fullName") (dComputed_initializers inits ∅)
  = throws (new_Error "Computed decorator lost its value").
Proof.
  intros inits. split.
  - destruct (dComputed_getter_reads_own_instance inits 2 (StringKey "fullName"))
      as (_ & _ & Hlast).
    exact (Hlast 10 [(1, StringKey "fullName", 10)] eq_refl).
  - destruct (dComputed_getter_reads_own_instance inits 3 (StringKey "fullName"))
      as (Hthrows & _).
    apply Hthrows. intros Hin. vm_compute in Hin.
    apply elem_of_cons in Hin as [Hin|Hin]; [discriminate|].
    apply elem_of_cons in Hin as [Hin|Hin]; [discriminate|].
    by apply elem_of_nil in Hin.
Defined.

(** * More about the accessors *)

Section AccessorFrames.
Context {Value : Type} `{Reactivity Value}.

Lemma get_set_other (d1 d2 : ClassAccessorDecoratorTarget -> ClassAccessorDecoratorResult)
    (n1 n2 : string) (this1 this2 : gmap string nat) (h h' : gmap nat Ref) a1 a2 v :
  d1 = dRef \/ d1 = dShallowRef -> d2 = dRef \/ d2 = dShallowRef ->
  this1 !! n1 = Some a1 -> this2 !! n2 = Some a2 -> a1 <> a2 ->
  set (d1 (accessor n1)) this1 v h = Some h' ->
  get (d2 (accessor n2)) this2 h' = get (d2 (accessor n2)) this2 h.
Proof.
  intros Hd1 Hd2 H1 H2 Hne.
  assert (set (d1 (accessor n1)) this1 v h =
          match h !! a1 with Some r => Some (<[a1 := set_value r v]> h) | None => None end) as ->.
  { destruct Hd1 as [-> | ->]; cbn [set dRef dShallowRef accessor target_get]; by rewrite H1. }
  assert (forall h0, get (d2 (accessor n2)) this2 h0 = get_value <$> h0 !! a2) as Hget.
  { intros h0. destruct Hd2 as [-> | ->]; cbn [get dRef dShallowRef accessor target_get];
      by rewrite H2. }
  destruct (h !! a1) as [r|]; [|done]. intros [= <-].
  by rewrite !Hget, lookup_insert_ne.
Qed.

End AccessorFrames.


(** * The table of the earlier revision *)

(** X20 (the earlier revision looks the promise object up under the
    wrong function).  The table is filled under the method as written
    but read under whatever the instance holds at the given name.  Under
    the name at which the wrapper is callable the instance holds the
    wrapper, so there the lookup finds nothing, before and after the
    first call, and [isPromisePending] and [getPromiseResult] throw;
    only when a prefix was stripped does the declared name, which still
    reaches the method as written, find the promise object once the
    first call has made it. *)
Theorem legacy_lookup_needs_the_declared_name (name : PropertyKey)
    (own proto : gmap PropertyKey method_value)
    (inner : option (gmap method_value PromiseObject)) :
  own !! name = None -> proto !! name = Some the_target ->
  (forall m, inner = Some m -> m !! the_makePromise = None) ->
  let own' := LegacyTable.dPromise_initializer name own in
  let callable := LegacyNames.stored_name name in
  let inner' := LegacyTable.first_call name own' proto inner in
  get_property own' proto callable = Some the_makePromise /\
  LegacyTable.getPromiseData own' proto inner callable = None /\
  LegacyTable.getPromiseData own' proto inner' callable = None /\
  LegacyTable.isPromisePending own' proto inner' callable
    = Throw (new_Error "Promise object not found") /\
  LegacyTable.getPromiseResult own' proto inner' callable
    = Throw (new_Error "Promise object not found") /\
  (callable <> name ->
     exists po, LegacyTable.getPromiseData own' proto inner' name = Some po).
Proof.
  intros Hown Hproto Hkeys own' callable inner'.
  assert (get_property own' proto callable = Some the_makePromise) as Hcall.
  { unfold get_property, own', LegacyTable.dPromise_initializer. by rewrite lookup_insert_eq. }
  assert (forall i, (forall m, i = Some m -> m !! the_makePromise = None) ->
            LegacyTable.getPromiseData own' proto i callable = None) as Hnone.
  { intros i Hi. unfold LegacyTable.getPromiseData. rewrite Hcall.
    destruct i as [m|]; [by apply Hi|done]. }
  assert (forall m, inner' = Some m -> m !! the_makePromise = None) as Hkeys'.
  { unfold inner', LegacyTable.first_call, LegacyTable.makePromiseObject.
    destruct (LegacyTable.getPromiseData own' proto inner name); simpl; [done|].
    intros m [= <-]. rewrite lookup_insert_ne by done.
    destruct inner as [m0|]; simpl; [by apply Hkeys|by rewrite lookup_empty]. }
  split; [done|]. split; [by apply Hnone|]. split; [by apply Hnone|].
  split; [unfold LegacyTable.isPromisePending; by rewrite Hnone|].
  split; [unfold LegacyTable.getPromiseResult; by rewrite Hnone|].
  intros Hne.
  assert (get_property own' proto name = Some the_target) as Hdecl.
  { unfold get_property, own', LegacyTable.dPromise_initializer.
    rewrite lookup_insert_ne by done. by rewrite Hown. }
  unfold inner', LegacyTable.first_call, LegacyTable.makePromiseObject.
  destruct (LegacyTable.getPromiseData own' proto inner name) as [po|] eqn:Hget; simpl.
  - by exists po.
  - exists assignPromiseObject. unfold LegacyTable.getPromiseData, LegacyTable.setPromiseObject.
    rewrite Hdecl. by rewrite lookup_insert_eq.
Qed.

Lemma legacy_lookup_needs_the_declared_name_witness :
  let name := StringKey "fetchData" in
  let proto : gmap PropertyKey method_value := {[ name := the_target ]} in
  let own' := LegacyTable.dPromise_initializer name ∅ in
  LegacyNames.stored_name name = name /\
  get_property own' proto name = Some the_makePromise /\
  LegacyTable.isPromisePending own' proto (LegacyTable.first_call name own' proto None) name
    = Throw (new_Error "Promise object not found").
Proof.
  intros name proto own'.
  split; [reflexivity|].
  assert (proto !! name = Some the_target) as Hproto by apply lookup_singleton_eq.
  destruct (legacy_lookup_needs_the_declared_name name ∅ proto None
              (lookup_empty name) Hproto ltac:(discriminate)) as (Hcall & _ & _ & Hthrow & _).
  split; [exact Hcall|exact Hthrow].
Defined.
